(** * GrooveX (PlayWise music engine): favorites queue, recommender,
      constrained shuffle and playlist, embedded from the Python sources.

    Python [int] is [Z]; [dict] is stdpp's [gmap]; [str] is [string];
    a method that mutates [self] takes the state and returns the new one. *)

From Stdlib Require Import ZArith QArith Qabs String Ascii List Bool Lia.
From Stdlib Require Import Permutation Sorting.Sorted OrderedTypeEx.
From stdpp Require Import base option list gmap strings.

Local Open Scope string_scope.
Local Open Scope list_scope.
Local Open Scope Z_scope.

(** ** Python exceptions
    A call either returns a value or raises. *)
Inductive exn :=
  | IndexError
  | AttributeError
  | ZeroDivisionError
  | Unending.   (* a loop that does not end: no value, no exception *)

Definition result (A : Type) : Type := exn + A.
Definition ret {A} (a : A) : result A := inr a.
Definition raise {A} (e : exn) : result A := inl e.
Definition bind {A B} (m : result A) (k : A -> result B) : result B :=
  match m with
  | inl e => inl e
  | inr a => k a
  end.

Notation "'do' x <- m ; k" := (bind m (fun x => k))
  (at level 10, x name, m at level 100, k at level 200).

(** A [for] loop whose body may raise. *)
Fixpoint for_each {A S} (body : S -> A -> result S) (xs : list A) (s : S)
  : result S :=
  match xs with
  | [] => ret s
  | x :: xs' => do s' <- body s x; for_each body xs' s'
  end.

(** Python's [xs[:k]]: the first [k] items, or all but the last [-k]. *)
Definition py_slice_to {A} (xs : list A) (k : Z) : list A :=
  if 0 <=? k then firstn (Z.to_nat k) xs
  else firstn (Z.to_nat (Z.of_nat (length xs) + k)) xs.

(** [deque(maxlen=...).append]: a full deque drops its oldest item. *)
Definition deque_append {A} (maxlen : nat) (d : list A) (x : A) : list A :=
  match maxlen with
  | O => d
  | _ => if (length d <? maxlen)%nat then d ++ [x] else tl d ++ [x]
  end.

(** Truth value of a [str]: the empty string is false. *)
Definition str_truthy (s : string) : bool :=
  match s with EmptyString => false | _ => true end.

(** ** str methods
    [str.lower], [str.strip] and [re.sub(r'\s+', ' ', ...)] are library
    code over Unicode text.  The embedding takes them as they come: the
    definitions below call the three methods of [StrMethods], and every
    theorem stated for all [StrMethods] holds whatever the library
    computes. *)
Class StrMethods := {
  lower : string -> string;
  strip : string -> string;
  collapse_spaces : string -> string
}.

(** *** The methods on ASCII text
    On text of ASCII characters only, [str.lower] lowers the letters
    A-Z, and white space ([str.isspace], [\s]) is the characters 9 to 13
    (tab, line feed, vertical tab, form feed, carriage return), 28 to 31
    (the four separators) and 32 (space).  The examples, whose strings
    are ASCII, are run with these. *)
Definition is_space (c : ascii) : bool :=
  let n := nat_of_ascii c in
  ((9 <=? n)%nat && (n <=? 13)%nat) || ((28 <=? n)%nat && (n <=? 32)%nat).

Definition lower_ascii (c : ascii) : ascii :=
  let n := nat_of_ascii c in
  if (65 <=? n)%nat && (n <=? 90)%nat then ascii_of_nat (n + 32) else c.

Fixpoint ascii_lower (s : string) : string :=
  match s with
  | EmptyString => EmptyString
  | String c s' => String (lower_ascii c) (ascii_lower s')
  end.

Fixpoint lstrip (s : string) : string :=
  match s with
  | EmptyString => EmptyString
  | String c s' => if is_space c then lstrip s' else s
  end.

(** [rstrip]: drop the trailing run of white space. *)
Fixpoint rstrip (s : string) : string :=
  match s with
  | EmptyString => EmptyString
  | String c s' =>
      match rstrip s' with
      | EmptyString => if is_space c then EmptyString else String c EmptyString
      | r => String c r
      end
  end.

Definition ascii_strip (s : string) : string := rstrip (lstrip s).

(** Every run of white space becomes one space. *)
Fixpoint ascii_collapse_spaces (s : string) : string :=
  match s with
  | EmptyString => EmptyString
  | String c s' =>
      if is_space c then
        match s' with
        | String c' _ =>
            if is_space c' then ascii_collapse_spaces s'
            else String " " (ascii_collapse_spaces s')
        | EmptyString => String " " EmptyString
        end
      else String c (ascii_collapse_spaces s')
  end.

#[global] Instance ascii_text : StrMethods := {|
  lower := ascii_lower;
  strip := ascii_strip;
  collapse_spaces := ascii_collapse_spaces
|}.

(** ** favorites/favorite_queue.py *)
Module Favorites.

(** [@dataclass SongSummary]. *)
Record SongSummary := mkSummary {
  song_id : string;
  title : string;
  artist : string;
  total_listen_time : Z
}.

(** A heap entry [(-total_listen_time, timestamp, song_id)].  The
    timestamp is the reading of [time.time()] at the push; only its order
    is ever used, so a reading is an integer number of clock ticks. *)
Definition entry : Type := Z * Z * string.

Definition neg_listen_time (e : entry) : Z := e.1.1.
Definition timestamp (e : entry) : Z := e.1.2.
Definition entry_id (e : entry) : string := e.2.

(** Python's tuple comparison: lexicographic, strings by code point. *)
Definition entry_compare (a b : entry) : comparison :=
  match Z.compare (neg_listen_time a) (neg_listen_time b) with
  | Eq => match Z.compare (timestamp a) (timestamp b) with
          | Eq => String.compare (entry_id a) (entry_id b)
          | c => c
          end
  | c => c
  end.

Definition entry_ltb (a b : entry) : bool :=
  match entry_compare a b with Lt => true | _ => false end.

(** [a <= b] in tuple order, that is [not (b < a)]. *)
Definition entry_le (a b : entry) : Prop := entry_ltb b a = false.

(** The strict tuple order, spelled out. *)
Definition entry_lt (a b : entry) : Prop :=
  neg_listen_time a < neg_listen_time b \/
  (neg_listen_time a = neg_listen_time b /\
   (timestamp a < timestamp b \/
    (timestamp a = timestamp b /\
     String_as_OT.lt (entry_id a) (entry_id b)))).

(** *** heapq
    [heapq] is Python's standard library.  [FavoriteQueue] touches
    [self.heap] only through [heappush] and [heappop], and the entries are
    totally ordered tuples, so the list is modelled as the bag of its
    entries: [heappush] adds one, [heappop] removes and returns a least
    one ("pop and return the smallest item from the heap"). *)
Definition heappush (h : list entry) (e : entry) : list entry := h ++ [e].

Fixpoint heap_min (m : entry) (h : list entry) : entry :=
  match h with
  | [] => m
  | x :: h' => heap_min (if entry_ltb x m then x else m) h'
  end.

Fixpoint remove_first (e : entry) (h : list entry) : list entry :=
  match h with
  | [] => []
  | x :: h' => if decide (x = e) then h' else x :: remove_first e h'
  end.

(** [None] is the [IndexError] of popping an empty heap. *)
Definition heappop (h : list entry) : option (entry * list entry) :=
  match h with
  | [] => None
  | x :: h' => let m := heap_min x h' in Some (m, remove_first m h)
  end.

Record FavoriteQueue := mkQueue {
  song_listen_times : gmap string Z;
  heap : list entry;
  favorites : gmap string (string * string)
}.

Definition init : FavoriteQueue :=
  {| song_listen_times := ∅; heap := []; favorites := ∅ |}.

Definition add_to_favorites (q : FavoriteQueue) (sid ttl art : string)
  : FavoriteQueue :=
  match favorites q !! sid with
  | Some _ => q
  | None =>
      {| favorites := <[sid := (ttl, art)]> (favorites q);
         song_listen_times :=
           match song_listen_times q !! sid with
           | Some _ => song_listen_times q
           | None => <[sid := 0]> (song_listen_times q)
           end;
         heap := heap q |}
  end.

Definition remove_from_favorites (q : FavoriteQueue) (sid : string)
  : FavoriteQueue :=
  match favorites q !! sid with
  | Some _ =>
      {| favorites := delete sid (favorites q);
         song_listen_times := song_listen_times q;
         heap := heap q |}
  | None => q
  end.

(** [now] is the value [time.time()] returns inside the call. *)
Definition record_listen (q : FavoriteQueue) (sid : string)
    (delta_seconds : Z) (now : Z) : FavoriteQueue :=
  match favorites q !! sid with
  | None => q
  | Some _ =>
      let total :=
        match song_listen_times q !! sid with
        | Some t => t + delta_seconds
        | None => delta_seconds
        end in
      {| favorites := favorites q;
         song_listen_times := <[sid := total]> (song_listen_times q);
         heap := heappush (heap q) (- total, now, sid) |}
  end.

(** The validity test of [get_top_n] together with the summary it builds:
    [Some] exactly when the entry is not stale. *)
Definition check_entry (q : FavoriteQueue) (e : entry) : option SongSummary :=
  let listen_time := - neg_listen_time e in
  match song_listen_times q !! entry_id e, favorites q !! entry_id e with
  | Some t, Some (ttl, art) =>
      if t =? listen_time
      then Some (mkSummary (entry_id e) ttl art listen_time)
      else None
  | _, _ => None
  end.

(** Loop state of [get_top_n]: the heap, [result] and [temp_entries]. *)
Definition loop_state : Type := list entry * list SongSummary * list entry.

(** The [while len(result) < n and self.heap] loop.  Every iteration pops
    one entry, so [length heap] iterations of fuel are enough
    ([top_n_loop_done] below). *)
Fixpoint top_n_loop (fuel : nat) (q : FavoriteQueue) (n : Z) (st : loop_state)
  : loop_state :=
  match fuel with
  | O => st
  | S fuel' =>
      let '(h, result, temp) := st in
      if Z.of_nat (length result) <? n then
        match heappop h with
        | None => st
        | Some (e, h') =>
            match check_entry q e with
            | Some s => top_n_loop fuel' q n (h', result ++ [s], temp ++ [e])
            | None => top_n_loop fuel' q n (h', result, temp)
            end
        end
      else st
  end.

Definition run_loop (q : FavoriteQueue) (n : Z) : loop_state :=
  top_n_loop (length (heap q)) q n (heap q, [], []).

(** Returns the queue after the call and the returned list. *)
Definition get_top_n (q : FavoriteQueue) (n : Z)
  : FavoriteQueue * list SongSummary :=
  let '(h, result, temp) := run_loop q n in
  ({| favorites := favorites q;
      song_listen_times := song_listen_times q;
      heap := fold_left heappush temp h |},
   result).

(** The entries behind the returned summaries ([temp_entries]). *)
Definition top_n_entries (q : FavoriteQueue) (n : Z) : list entry :=
  (run_loop q n).2.

Definition clear (q : FavoriteQueue) : FavoriteQueue := init.

(** The heap entries that pass the validity test of [get_top_n]. *)
Definition valid_entries (q : FavoriteQueue) : list entry :=
  filter (fun e => is_Some (check_entry q e)) (heap q).

(** Two favorites with equal totals: "a" is recorded at clock reading 1,
    then "b" at clock reading 2. *)
Definition tie_queue : FavoriteQueue :=
  let q0 := add_to_favorites init "a" "Song A" "Artist A" in
  let q1 := add_to_favorites q0 "b" "Song B" "Artist B" in
  let q2 := record_listen q1 "a" 10 1 in
  record_listen q2 "b" 10 2.

(** A song that was played for 10 seconds while a favorite. *)
Definition played_queue : FavoriteQueue :=
  record_listen (add_to_favorites init "a" "Song A" "Artist A") "a" 10 1.

End Favorites.

(** ** recommend/recommender.py *)
Module Recommend.

(** The keys of a metadata dict that the recommender reads.  [None] is an
    absent key; a present key holds a string or a number. *)
Record Metadata := mkMeta {
  genre : option string;
  subgenre : option string;
  mood : option string;
  artist : option string;
  duration : option Q;
  bpm : option Q
}.

(** The criteria dict handed to [PlaylistExplorer.search]: ['genre'] is
    always set, ['subgenre'] and ['mood'] only when the seed has them. *)
Record Criteria := mkCriteria {
  c_genre : string;
  c_subgenre : option string;
  c_mood : option string
}.

(** One part of the reason text of a seed and candidate pair. *)
Inductive reason_part :=
  | SameGenre
  | SameSubgenre
  | SameMood
  | SimilarDuration (diff : Q)
  | SimilarBPM (diff : Q).

(** The reason of a pair: ["Missing metadata"], or the parts joined by
    [", "], where no part at all reads ["minimal similarity"]. *)
Inductive pair_reason :=
  | MissingMetadata
  | Matches (parts : list reason_part).

(** [list(set(reasons))]: the reasons without repeats, in the order in
    which the set is walked.  That order comes from the hashes of the
    strings, which change from run to run, so it is left open. *)
Class SetOrder := {
  unique_reasons : list pair_reason -> list pair_reason
}.

(** [@dataclass Recommendation].  The score is the exact rational value
    of the sum that Python computes in binary floating point, so the two
    can differ where a float is not exact (the float nearest to 2.215
    lies below it and rounds to 2.21).  What is proved of scores is
    proved of the exact values, and no example states a score.  The
    reason is kept as the list of pair reasons that Python joins with
    ["; "]. *)
Record Recommendation := mkRec {
  song_id : string;
  score : Q;
  reason : list pair_reason
}.

(** The collaborators are passed to [__init__]: [playlist_explorer] is
    its [search] method, giving the found set in the order [list(...)]
    walks it; [skipped_tracker] is its [is_recently_skipped] method;
    [playlist_songs_getter] is the [song_id] of each song it returns. *)
Record SmartRecommender := mkRecommender {
  playlist_explorer : Criteria -> list string;
  skipped_tracker : string -> bool;
  playlist_songs_getter : list (option string);
  window_size : nat;
  seed_count : Z;
  top_n : Z;
  duration_threshold : Z;
  bpm_threshold : Z;
  max_candidates_per_seed : Z;
  play_window : list (string * Z);
  played_set : gset string;
  song_metadata : gmap string Metadata;
  total_listen_time : gmap string Z
}.

Definition metadata_truthy (m : Metadata) : bool :=
  match genre m, subgenre m, mood m, artist m, duration m, bpm m with
  | None, None, None, None, None, None => false
  | _, _, _, _, _, _ => true
  end.

Definition record_play (r : SmartRecommender) (sid : string) (played_at : Z)
    (play_duration : Z) (metadata : option Metadata) : SmartRecommender :=
  {| playlist_explorer := playlist_explorer r;
     skipped_tracker := skipped_tracker r;
     playlist_songs_getter := playlist_songs_getter r;
     window_size := window_size r;
     seed_count := seed_count r;
     top_n := top_n r;
     duration_threshold := duration_threshold r;
     bpm_threshold := bpm_threshold r;
     max_candidates_per_seed := max_candidates_per_seed r;
     play_window := deque_append (window_size r) (play_window r) (sid, played_at);
     played_set := {[sid]} ∪ played_set r;
     song_metadata :=
       match metadata with
       | Some m => if metadata_truthy m then <[sid := m]> (song_metadata r)
                   else song_metadata r
       | None => song_metadata r
       end;
     total_listen_time :=
       <[sid := default 0 (total_listen_time r !! sid) + play_duration]>
         (total_listen_time r) |}.

(** [if x:] for an ['x' = meta.get(...)] that is a string or [None]. *)
Definition opt_truthy (o : option string) : option string :=
  match o with
  | Some s => if str_truthy s then Some s else None
  | None => None
  end.

Definition _get_similar_songs (r : SmartRecommender) (seed_song_id : string)
  : list string :=
  match song_metadata r !! seed_song_id with
  | None => []
  | Some seed_meta =>
      match opt_truthy (genre seed_meta) with
      | Some g =>
          let criteria :=
            {| c_genre := g;
               c_subgenre := opt_truthy (subgenre seed_meta);
               c_mood := opt_truthy (mood seed_meta) |} in
          let similar_songs := playlist_explorer r criteria in
          filter (fun c => c <> seed_song_id) similar_songs
      | None => []
      end
  end.

Section WithLibrary.
Context {str_methods : StrMethods} {set_order : SetOrder}.

(** [a.lower()] and [b.lower()] are non-empty and equal, for
    [a = meta.get(key, '')]. *)
Definition same_field (a b : option string) : bool :=
  let a' := lower (default "" a) in
  let b' := lower (default "" b) in
  str_truthy a' && str_truthy b' && String.eqb a' b'.

Definition Qlt_bool (a b : Q) : bool := negb (Qle_bool b a).
Definition Qmax (a b : Q) : Q := if Qle_bool a b then b else a.

(** The duration and BPM terms: both values positive and at most
    [threshold] apart.  Gives the term's score and the difference. *)
Definition proximity (a b : Q) (threshold : Z) : result (option (Q * Q)) :=
  if Qlt_bool 0 a && Qlt_bool 0 b then
    let diff := Qabs (b - a) in
    if Qle_bool diff (inject_Z threshold) then
      if threshold =? 0 then raise ZeroDivisionError
      else ret (Some (Qmax 0 (1 - diff / inject_Z threshold), diff))
    else ret None
  else ret None.

Definition W_GENRE : Q := 1.
Definition W_SUBGENRE : Q := 8 # 10.
Definition W_MOOD : Q := 6 # 10.
Definition W_DURATION : Q := 5 # 10.
Definition W_BPM : Q := 4 # 10.
Definition half : Q := 1 # 2.

Definition _calculate_similarity_score (r : SmartRecommender)
    (seed_id candidate_id : string) : result (Q * pair_reason) :=
  match song_metadata r !! seed_id, song_metadata r !! candidate_id with
  | Some seed_meta, Some candidate_meta =>
      let '(score1, reasons1) :=
        if same_field (genre seed_meta) (genre candidate_meta)
        then (W_GENRE, [SameGenre]) else (0, []) in
      let '(score2, reasons2) :=
        if same_field (subgenre seed_meta) (subgenre candidate_meta)
        then (score1 + W_SUBGENRE, reasons1 ++ [SameSubgenre])
        else (score1, reasons1) in
      let '(score3, reasons3) :=
        if same_field (mood seed_meta) (mood candidate_meta)
        then (score2 + W_MOOD, reasons2 ++ [SameMood])
        else (score2, reasons2) in
      do d <- proximity (default 0 (duration seed_meta))
                (default 0 (duration candidate_meta)) (duration_threshold r);
      let '(score4, reasons4) :=
        match d with
        | Some (duration_score, diff) =>
            (score3 + W_DURATION * duration_score,
             if Qlt_bool half duration_score
             then reasons3 ++ [SimilarDuration diff] else reasons3)
        | None => (score3, reasons3)
        end in
      do b <- proximity (default 0 (bpm seed_meta))
                (default 0 (bpm candidate_meta)) (bpm_threshold r);
      let '(score5, reasons5) :=
        match b with
        | Some (bpm_score, diff) =>
            (score4 + W_BPM * bpm_score,
             if Qlt_bool half bpm_score
             then reasons4 ++ [SimilarBPM diff] else reasons4)
        | None => (score4, reasons4)
        end in
      ret (score5, Matches reasons5)
  | _, _ => ret (0, MissingMetadata)
  end%Q.

(** [x or default] for an [Optional[int]]: [None] and [0] are false. *)
Definition py_or (x : option Z) (dflt : Z) : Z :=
  match x with
  | Some v => if v =? 0 then dflt else v
  | None => dflt
  end.

(** The seed loop over [reversed(self.play_window)]. *)
Fixpoint select_seeds (seed_count : Z) (window_rev : list (string * Z))
    (seed_songs : list string) : list string :=
  match window_rev with
  | [] => seed_songs
  | (sid, _) :: rest =>
      if Z.of_nat (length seed_songs) >=? seed_count then seed_songs
      else select_seeds seed_count rest
             (if bool_decide (sid ∈ seed_songs) then seed_songs
              else seed_songs ++ [sid])
  end.

(** [{song.song_id for song in playlist_songs if song.song_id}]. *)
Definition active_ids (playlist_songs : list (option string)) : gset string :=
  list_to_set (omap opt_truthy playlist_songs).

(** [candidate_scores]: a dict in insertion order. *)
Fixpoint add_score (scores : list (string * Q)) (c : string) (s : Q)
  : list (string * Q) :=
  match scores with
  | [] => [(c, (0 + s)%Q)]
  | (k, v) :: rest =>
      if String.eqb k c then (k, (v + s)%Q) :: rest
      else (k, v) :: add_score rest c s
  end.

Definition tally : Type := list (string * Q) * gmap string (list pair_reason).

(** The three [continue] tests of the candidate loop. *)
Definition filtered_out (r : SmartRecommender) (exclude_active_playlist : bool)
    (active_playlist_songs : gset string) (candidate_id : string) : bool :=
  bool_decide (candidate_id ∈ played_set r)
  || skipped_tracker r candidate_id
  || (exclude_active_playlist
      && bool_decide (candidate_id ∈ active_playlist_songs)).

(** The body of [for candidate_id in similar_songs_list]. *)
Definition score_candidate (r : SmartRecommender)
    (exclude_active_playlist : bool) (active_playlist_songs : gset string)
    (seed_id : string) (acc : tally) (candidate_id : string) : result tally :=
  if filtered_out r exclude_active_playlist active_playlist_songs candidate_id
  then ret acc
  else
    do sr <- _calculate_similarity_score r seed_id candidate_id;
    if Qlt_bool 0 sr.1 then
      ret (add_score acc.1 candidate_id sr.1,
           <[candidate_id :=
               default [] (acc.2 !! candidate_id) ++ [sr.2]]> acc.2)
    else ret acc.

(** The body of [for seed_id in seed_songs]. *)
Definition score_seed (r : SmartRecommender) (exclude_active_playlist : bool)
    (active_playlist_songs : gset string) (acc : tally) (seed_id : string)
  : result tally :=
  let similar_songs := _get_similar_songs r seed_id in
  let similar_songs_list :=
    py_slice_to similar_songs (max_candidates_per_seed r) in
  for_each
    (score_candidate r exclude_active_playlist active_playlist_songs seed_id)
    similar_songs_list acc.

(** [sorted(items, key=score, reverse=True)]: stable, highest first. *)
Fixpoint insert_desc (x : string * Q) (l : list (string * Q))
  : list (string * Q) :=
  match l with
  | [] => [x]
  | y :: l' => if Qlt_bool x.2 y.2 then y :: insert_desc x l' else x :: l
  end.

Definition sorted_desc (l : list (string * Q)) : list (string * Q) :=
  foldr insert_desc [] l.

Definition reason_part_eqb (a b : reason_part) : bool :=
  match a, b with
  | SameGenre, SameGenre | SameSubgenre, SameSubgenre
  | SameMood, SameMood => true
  | SimilarDuration x, SimilarDuration y
  | SimilarBPM x, SimilarBPM y => Qeq_bool x y
  | _, _ => false
  end.

Fixpoint parts_eqb (a b : list reason_part) : bool :=
  match a, b with
  | [], [] => true
  | x :: a', y :: b' => reason_part_eqb x y && parts_eqb a' b'
  | _, _ => false
  end.

Definition pair_reason_eqb (a b : pair_reason) : bool :=
  match a, b with
  | MissingMetadata, MissingMetadata => true
  | Matches x, Matches y => parts_eqb x y
  | _, _ => false
  end.

(** [round(score, 2)] of an exact value: the nearest multiple of 1/100,
    halves to even. *)
Definition round2 (q : Q) : Q :=
  let n := Qnum q * 100 in
  let d := Z.pos (Qden q) in
  let fl := n / d in
  let twice_rem := 2 * (n mod d) in
  let up := if twice_rem =? d then Z.odd fl else d <? twice_rem in
  ((if up then fl + 1 else fl) # 100)%Q.

(** The body of [recommend] after the two [or] lines. *)
Definition recommend_with (r : SmartRecommender) (seed_count top_n : Z)
    (exclude_active_playlist : bool) : result (list Recommendation) :=
  let seed_songs := select_seeds seed_count (rev (play_window r)) [] in
  match seed_songs with
  | [] => ret []
  | _ =>
      let active_playlist_songs :=
        if exclude_active_playlist
        then active_ids (playlist_songs_getter r) else ∅ in
      do acc <- for_each
                  (score_seed r exclude_active_playlist active_playlist_songs)
                  seed_songs ([], ∅);
      let sorted_candidates := sorted_desc acc.1 in
      ret (map (fun cs : string * Q =>
                  mkRec cs.1 (round2 cs.2)
                    (unique_reasons (default [] (acc.2 !! cs.1))))
               (py_slice_to sorted_candidates top_n))
  end.

Definition recommend (r : SmartRecommender) (seed_count top_n : option Z)
    (exclude_active_playlist : bool) : result (list Recommendation) :=
  let seed_count := py_or seed_count (Recommend.seed_count r) in
  let top_n := py_or top_n (Recommend.top_n r) in
  recommend_with r seed_count top_n exclude_active_playlist.

(** [[rec.song_id for rec in self.recommend(...)]]. *)
Definition recommended_ids (r : SmartRecommender) (seed_count top_n : option Z)
    (exclude_active_playlist : bool) : result (list string) :=
  do recs <- recommend r seed_count top_n exclude_active_playlist;
  ret (song_id <$> recs).

End WithLibrary.

(** A run of [record_play] calls, oldest first; a play is the song id,
    [played_at], [play_duration] and the metadata argument. *)
Definition play : Type := string * Z * Z * option Metadata.

Definition record_plays (r : SmartRecommender) (plays : list play)
  : SmartRecommender :=
  fold_left (fun r' (p : play) => record_play r' p.1.1.1 p.1.1.2 p.1.2 p.2)
            plays r.

(** The window entry of a play. *)
Definition window_entry (p : play) : string * Z := (p.1.1.1, p.1.1.2).

(** The order of [sorted(..., reverse=True)] by score. *)
Definition by_score_desc (a b : string * Q) : Prop := (b.2 <= a.2)%Q.

(** The rounded numerator [k] of [N / d]: within a half of the
    quotient, and even at a tie. *)
Definition nearest (N d k : Z) : Prop :=
  2 * d * k - d <= 2 * N /\ 2 * N <= 2 * d * k + d /\
  (2 * N = 2 * d * k + d -> Z.even k = true) /\
  (2 * N = 2 * d * k - d -> Z.even k = true).

(** *** A small catalogue, as in the demo *)

(** One order a set of reasons can be walked in, that of first
    occurrence; the examples are run with it. *)
Fixpoint first_seen (l : list pair_reason) : list pair_reason :=
  match l with
  | [] => []
  | x :: l' =>
      x :: filter (fun y => pair_reason_eqb x y = false) (first_seen l')
  end.

#[global] Instance first_seen_order : SetOrder := {|
  unique_reasons := first_seen
|}.

Definition rock (md : string) (d b : Z) : Metadata :=
  mkMeta (Some "Rock") None (Some md) (Some "x")
         (Some (inject_Z d)) (Some (inject_Z b)).

(** The defaults of [__init__]; one song ["s1"] was played, and the
    explorer knows ["s1"], ["s2"] and ["s3"] as Rock. *)
Definition demo : SmartRecommender :=
  {| playlist_explorer := fun c =>
       if String.eqb (lower (c_genre c)) "rock" then ["s1"; "s2"; "s3"] else [];
     skipped_tracker := fun s => String.eqb s "s3";
     playlist_songs_getter := [];
     window_size := 50;
     seed_count := 5;
     top_n := 10;
     duration_threshold := 120;
     bpm_threshold := 10;
     max_candidates_per_seed := 200;
     play_window := [("s1", 1)];
     played_set := {["s1"]};
     song_metadata :=
       <["s1" := rock "Melancholic" 200 100]>
       (<["s2" := rock "Melancholic" 230 104]>
       (<["s3" := rock "Happy" 200 100]> ∅));
     total_listen_time := {["s1" := 200]} |}.

(** [demo] with a fourth Rock song ["s4"], which is in the live
    playlist next to a song without [song_id]. *)
Definition live : SmartRecommender :=
  {| playlist_explorer := fun c =>
       if String.eqb (c_genre c) "Rock" then ["s1"; "s2"; "s3"; "s4"] else [];
     skipped_tracker := fun s => String.eqb s "s3";
     playlist_songs_getter := [Some "s4"; None];
     window_size := 50;
     seed_count := 5;
     top_n := 10;
     duration_threshold := 120;
     bpm_threshold := 10;
     max_candidates_per_seed := 200;
     play_window := [("s1", 1)];
     played_set := {["s1"]};
     song_metadata :=
       <["s1" := rock "Melancholic" 200 100]>
       (<["s2" := rock "Melancholic" 230 104]>
       (<["s3" := rock "Happy" 200 100]>
       (<["s4" := rock "Happy" 200 100]> ∅)));
     total_listen_time := {["s1" := 200]} |}.

(** A catalogue with a song whose [song_id] is the empty string; that
    song is in the live playlist. *)
Definition unnamed : SmartRecommender :=
  {| playlist_explorer := fun c =>
       if String.eqb (c_genre c) "Rock" then ["s1"; EmptyString] else [];
     skipped_tracker := fun _ => false;
     playlist_songs_getter := [Some EmptyString];
     window_size := 50;
     seed_count := 5;
     top_n := 10;
     duration_threshold := 120;
     bpm_threshold := 10;
     max_candidates_per_seed := 200;
     play_window := [("s1", 1)];
     played_set := {["s1"]};
     song_metadata :=
       <["s1" := rock "Melancholic" 200 100]>
       (<[EmptyString := rock "Melancholic" 230 104]> ∅);
     total_listen_time := {["s1" := 200]} |}.

End Recommend.
(** ** playlist/song.py *)
Module Songs.

Record Song := mkSong {
  title : string;
  artist : string;
  duration : Z;
  song_id : option string;
  genre : option string;
  play_count : Z
}.

(** [Song(title, artist, duration, song_id=..., genre=...)]. *)
Definition new_song (ttl art : string) (dur : Z) (sid gnr : option string)
  : Song :=
  mkSong ttl art dur sid gnr 0.

Definition increment_play_count (s : Song) : Song :=
  mkSong (title s) (artist s) (duration s) (song_id s) (genre s)
         (play_count s + 1).

End Songs.

(** ** playlist/constrained_shuffle.py *)
Module Shuffle.
Import Songs.

(** *** random
    The generator is the sequence of its raw draws and a cursor;
    [randbelow n] reduces the next draw to [0 .. n-1]. *)
Record Rng := mkRng {
  draws : nat -> nat;
  cursor : nat
}.

Definition randbelow (g : Rng) (n : nat) : nat * Rng :=
  ((draws g (cursor g) mod n)%nat, mkRng (draws g) (S (cursor g))).

(** [x[i], x[j] = x[j], x[i]]. *)
Definition swap {A} (x : list A) (i j : nat) : list A :=
  match x !! i, x !! j with
  | Some a, Some b => <[j := a]> (<[i := b]> x)
  | _, _ => x
  end.

(** [random.shuffle]:
    [for i in reversed(range(1, len(x))): j = randbelow(i + 1); swap]. *)
Fixpoint shuffle_from {A} (i : nat) (g : Rng) (x : list A) : list A * Rng :=
  match i with
  | O => (x, g)
  | S i' =>
      let '(j, g') := randbelow g (S i) in
      shuffle_from i' g' (swap x i j)
  end.

Definition shuffle {A} (g : Rng) (x : list A) : list A * Rng :=
  shuffle_from (length x - 1) g x.

(** *** ConstrainedShuffler *)

Section WithLibrary.
Context {str_methods : StrMethods}.

Fixpoint _has_consecutive_artists (songs : list Song) : bool :=
  match songs with
  | a :: ((b :: _) as rest) =>
      if String.eqb (lower (artist a)) (lower (artist b)) then true
      else _has_consecutive_artists rest
  | _ => false
  end.

(** The [artist_counts] dict after the counting loop. *)
Definition artist_counts (songs : list Song) : gmap string Z :=
  fold_left
    (fun (counts : gmap string Z) song =>
       let artist_key := lower (artist song) in
       <[artist_key := default 0 (counts !! artist_key) + 1]> counts)
    songs ∅.

(** [max(artist_counts.values())] of a dict that is not empty. *)
Definition max_value (counts : gmap string Z) : Z :=
  foldr Z.max 0 (map_to_list counts).*2.

Definition _is_arrangement_possible (songs : list Song) : bool :=
  if (length songs <=? 1)%nat then true
  else
    let max_count := max_value (artist_counts songs) in
    max_count <=? (Z.of_nat (length songs) + 1) / 2.

(** The [for _ in range(self._max_attempts)] loop and the fallback after
    it. *)
Fixpoint attempts (n : nat) (g : Rng) (songs : list Song) : list Song * Rng :=
  match n with
  | O => (songs, g)
  | S n' =>
      let '(shuffled, g') := shuffle g songs in
      if _has_consecutive_artists shuffled then attempts n' g' songs
      else (shuffled, g')
  end.

Definition shuffle_with_constraints (_max_attempts : Z) (g : Rng)
    (songs : list Song) : list Song * Rng :=
  if (length songs <=? 1)%nat then (songs, g)
  else if negb (_is_arrangement_possible songs) then shuffle g songs
  else attempts (Z.to_nat _max_attempts) g songs.

Definition get_artist_distribution (songs : list Song) : gmap string Z :=
  fold_left
    (fun (distribution : gmap string Z) song =>
       let artist_key := lower (artist song) in
       <[artist_key := default 0 (distribution !! artist_key) + 1]> distribution)
    songs ∅.

(** *** Words of the specification *)

(** How many songs are by [a], compared in lower case. *)
Definition artist_count (a : string) (songs : list Song) : Z :=
  Z.of_nat (length (filter (fun s => lower (artist s) = a) songs)).

(** The generator before the [k]-th attempt (counting from 0). *)
Fixpoint rng_before (k : nat) (g : Rng) (songs : list Song) : Rng :=
  match k with
  | O => g
  | S k' => rng_before k' (shuffle g songs).2 songs
  end.

End WithLibrary.

(** Three songs by one artist, spelled in two ways. *)
Definition one_artist : list Song :=
  [new_song "t1" "Queen" 100 None None;
   new_song "t2" "QUEEN" 100 None None;
   new_song "t3" "queen" 100 None None].

(** A generator whose draws count up from 0. *)
Definition counting : Rng := mkRng (fun k => k) 0.

(** The same generator six draws later, where the third attempt on a
    list of four songs starts. *)
Definition later : Rng := mkRng (fun k => k) 6.

(** Two artists, two songs each, same artists next to each other. *)
Definition two_artists : list Song :=
  [new_song "t1" "Queen" 100 None None;
   new_song "t2" "queen" 100 None None;
   new_song "t3" "Muse" 100 None None;
   new_song "t4" "MUSE" 100 None None].

End Shuffle.
(** ** playlist/: linked list, lookup map, blocklist, action log, playlist *)
Module Playlists.
Import Songs.

(** *** playlist/linked_list.py, playlist/playlist_engine.py
    [Node] objects live in a store and point at each other by address;
    [fresh] is the address the next [Node(...)] gets. *)
Definition addr := nat.

Record Node := mkNode {
  song : Song;
  prev : option addr;
  next : option addr
}.

Record DoublyLinkedList := mkDLL {
  nodes : gmap addr Node;
  fresh : addr;
  head : option addr;
  tail : option addr;
  size : Z
}.

Definition empty_list : DoublyLinkedList := mkDLL ∅ 0%nat None None 0.

(** Reading an attribute of [None] raises [AttributeError]. *)
Definition node_at (ns : gmap addr Node) (a : option addr) : result Node :=
  match a with
  | Some a' =>
      match ns !! a' with
      | Some n => ret n
      | None => raise AttributeError
      end
  | None => raise AttributeError
  end.

Definition set_next (a : addr) (v : option addr) (ns : gmap addr Node)
  : gmap addr Node :=
  alter (fun n => mkNode (song n) (prev n) v) a ns.

Definition set_prev (a : addr) (v : option addr) (ns : gmap addr Node)
  : gmap addr Node :=
  alter (fun n => mkNode (song n) v (next n)) a ns.

(** [for _ in range(k): current = current.next]. *)
Fixpoint walk (ns : gmap addr Node) (current : option addr) (k : nat)
  : result (option addr) :=
  match k with
  | O => ret current
  | S k' => do n <- node_at ns current; walk ns (next n) k'
  end.

Definition dll_add_song (d : DoublyLinkedList) (s : Song)
  : result DoublyLinkedList :=
  let a := fresh d in
  let ns := <[a := mkNode s None None]> (nodes d) in
  match head d with
  | None => ret (mkDLL ns (S a) (Some a) (Some a) (size d + 1))
  | Some _ =>
      match tail d with
      | None => raise AttributeError
      | Some t =>
          let ns := set_next t (Some a) ns in
          let ns := set_prev a (Some t) ns in
          ret (mkDLL ns (S a) (head d) (Some a) (size d + 1))
      end
  end.

(** The four unlinking lines shared by [delete_song] and [move_song]:
    gives the store, the head and the tail after them. *)
Definition unlink (d : DoublyLinkedList) (current : option addr)
  : result (gmap addr Node * option addr * option addr) :=
  do n <- node_at (nodes d) current;
  let '(ns, hd) :=
    match prev n with
    | Some p => (set_next p (next n) (nodes d), head d)
    | None => (nodes d, next n)
    end in
  do n <- node_at ns current;
  let '(ns, tl) :=
    match next n with
    | Some q => (set_prev q (prev n) ns, tail d)
    | None => (ns, prev n)
    end in
  ret (ns, hd, tl).

Definition dll_delete_song (d : DoublyLinkedList) (index : Z)
  : result DoublyLinkedList :=
  if (index <? 0) || (size d <=? index) then raise IndexError
  else
    do current <- walk (nodes d) (head d) (Z.to_nat index);
    do u <- unlink d current;
    ret (mkDLL u.1.1 (fresh d) u.1.2 u.2 (size d - 1)).

Definition dll_move_song (d : DoublyLinkedList) (from_index to_index : Z)
  : result DoublyLinkedList :=
  if (from_index <? 0) || (size d <=? from_index)
     || (to_index <? 0) || (size d <=? to_index)
  then raise IndexError
  else if from_index =? to_index then ret d
  else
    do current <- walk (nodes d) (head d) (Z.to_nat from_index);
    do u <- unlink d current;
    let '(ns, hd, tl) := u in
    match current with
    | None => raise AttributeError
    | Some c =>
        if to_index =? 0 then
          let ns := set_next c hd ns in
          let ns := match hd with Some h => set_prev h (Some c) ns | None => ns end in
          let ns := set_prev c None ns in
          ret (mkDLL ns (fresh d) (Some c)
                 (match tl with None => Some c | Some _ => tl end) (size d))
        else
          do target <- walk ns hd (Z.to_nat (to_index - 1));
          do tn <- node_at ns target;
          match target with
          | None => raise AttributeError
          | Some t =>
              let ns := set_next c (next tn) ns in
              let ns := match next tn with
                        | Some q => set_prev q (Some c) ns
                        | None => ns
                        end in
              let ns := set_prev c (Some t) ns in
              let ns := set_next t (Some c) ns in
              ret (mkDLL ns (fresh d) hd tl (size d))
          end
    end.

(** The [while current:] loop of [reverse_playlist]; it ends unless the
    list is cyclic, within as many steps as there are nodes. *)
Fixpoint reverse_loop (fuel : nat) (ns : gmap addr Node)
    (current prev_node : option addr) : result (gmap addr Node * option addr) :=
  match current with
  | None => ret (ns, prev_node)
  | Some c =>
      match fuel with
      | O => raise Unending
      | S fuel' =>
          do n <- node_at ns current;
          let next_node := next n in
          let ns := set_next c prev_node ns in
          let ns := set_prev c next_node ns in
          reverse_loop fuel' ns next_node (Some c)
      end
  end.

Definition dll_reverse_playlist (d : DoublyLinkedList)
  : result DoublyLinkedList :=
  do r <- reverse_loop (base.size (nodes d)) (nodes d) (head d) None;
  ret (mkDLL r.1 (fresh d) r.2 (head d) (size d)).

Section WithLibrary.
Context {str_methods : StrMethods}.

(** *** song_lookup_map/duplicate_cleaner.py *)

Definition normalize (text : string) : string :=
  if str_truthy text then collapse_spaces (lower (strip text)) else "".

(** [key_to_song_id] holds the registered [song_id], which may be
    [None]. *)
Record DuplicateCleaner := mkCleaner {
  keep : string;
  key_to_song_id : gmap string (option string)
}.

Definition _make_key (ttl art : string) : string :=
  (normalize ttl ++ "|" ++ normalize art)%string.

Definition is_duplicate (dc : DuplicateCleaner) (ttl art : string) : bool :=
  bool_decide (is_Some (key_to_song_id dc !! _make_key ttl art)).

Definition register (dc : DuplicateCleaner) (sid : option string)
    (ttl art : string) : DuplicateCleaner :=
  mkCleaner (keep dc) (<[_make_key ttl art := sid]> (key_to_song_id dc)).

Definition deregister (dc : DuplicateCleaner) (sid : option string)
    (ttl art : string) : DuplicateCleaner :=
  mkCleaner (keep dc) (delete (_make_key ttl art) (key_to_song_id dc)).

(** Returns the value of [cleanup_on_add] (a [song_id] or [None]) and
    the cleaner after the call. *)
Definition cleanup_on_add (dc : DuplicateCleaner) (song_obj : Song)
  : option string * DuplicateCleaner :=
  match key_to_song_id dc !! _make_key (title song_obj) (artist song_obj) with
  | Some existing_song_id =>
      if String.eqb (keep dc) "first" then (existing_song_id, dc)
      else (None, register dc (song_id song_obj) (title song_obj) (artist song_obj))
  | None =>
      (None, register dc (song_id song_obj) (title song_obj) (artist song_obj))
  end.

(** *** song_lookup_map/lookup_map.py *)

Record SongLookupMap := mkLookup {
  id_map : gmap string Song;
  title_map : gmap string Song;
  enable_dedupe : bool;
  duplicate_cleaner : option DuplicateCleaner
}.

Definition new_lookup_map (enable : bool) (policy : string) : SongLookupMap :=
  mkLookup ∅ ∅ enable (if enable then Some (mkCleaner policy ∅) else None).

(** The cleaner when [self.enable_dedupe and self.duplicate_cleaner]. *)
Definition active_cleaner (m : SongLookupMap) : option DuplicateCleaner :=
  if enable_dedupe m then duplicate_cleaner m else None.

Definition lookup_add_song (m : SongLookupMap) (s : Song)
  : option string * SongLookupMap :=
  let '(duplicate_result, cleaner) :=
    match active_cleaner m with
    | Some dc => let '(r, dc') := cleanup_on_add dc s in (r, Some dc')
    | None => (None, duplicate_cleaner m)
    end in
  match duplicate_result with
  | Some existing => (Some existing, mkLookup (id_map m) (title_map m)
                                       (enable_dedupe m) cleaner)
  | None =>
      let ids :=
        match song_id s with
        | Some sid => <[sid := s]> (id_map m)
        | None => id_map m
        end in
      let titles := <[title s := s]> (title_map m) in
      let cleaner :=
        match (if enable_dedupe m then cleaner else None) with
        | Some dc => Some (register dc (song_id s) (title s) (artist s))
        | None => cleaner
        end in
      (None, mkLookup ids titles (enable_dedupe m) cleaner)
  end.

Definition lookup_remove_song (m : SongLookupMap) (sid : string)
  : bool * SongLookupMap :=
  match id_map m !! sid with
  | Some s =>
      let ids := delete sid (id_map m) in
      match title_map m !! title s with
      | Some _ =>
          (true,
           mkLookup ids (delete (title s) (title_map m)) (enable_dedupe m)
             (match active_cleaner m with
              | Some dc => Some (deregister dc (Some sid) (title s) (artist s))
              | None => duplicate_cleaner m
              end))
      | None =>
          (false, mkLookup ids (title_map m) (enable_dedupe m)
                    (duplicate_cleaner m))
      end
  | None => (false, m)
  end.

(** *** playlist/artist_blocklist.py *)

Definition _normalize_artist (art : string) : string :=
  if str_truthy art then lower (strip art) else "".

Definition is_blocked (blocked : gset string) (art : string) : bool :=
  bool_decide (_normalize_artist art ∈ blocked).

Definition blocklist_add_artist (blocked : gset string) (art : string)
  : gset string :=
  {[_normalize_artist art]} ∪ blocked.

(** *** playlist/action_logger.py
    The undo closures of [Playlist], one constructor per [def undo_...]
    with the variables it captures. *)
Inductive Undo :=
  | UndoAdd (index : Z)
  | UndoDelete (s : Song) (sid : option string) (index : Z)
  | UndoMove (from_index to_index : Z)
  | UndoReverse.

Record Action := mkAction {
  action_type : string;
  undo_func : Undo
}.

Record ActionLogger := mkLogger {
  _action_history : list Action;
  _max_history : nat
}.

Definition log_action (lg : ActionLogger) (kind : string) (u : Undo)
  : ActionLogger :=
  mkLogger (deque_append (_max_history lg) (_action_history lg)
              (mkAction kind u))
           (_max_history lg).

(** [deque.pop()]: the newest action and the rest. *)
Definition pop_action (lg : ActionLogger) : option (Action * ActionLogger) :=
  match reverse (_action_history lg) with
  | [] => None
  | a :: rest => Some (a, mkLogger (reverse rest) (_max_history lg))
  end.

(** *** playlist/playlist.py *)

Record Playlist := mkPlaylist {
  playlist : DoublyLinkedList;
  lookup_map : SongLookupMap;
  artist_blocklist : gset string;
  action_logger : ActionLogger;
  constrained_shuffler : Z
}.

(** [Playlist(enable_dedupe, dedupe_policy, max_undo_history)]. *)
Definition new_playlist (enable : bool) (policy : string) (max_undo : nat)
  : Playlist :=
  mkPlaylist empty_list (new_lookup_map enable policy) ∅
             (mkLogger [] max_undo) 1000.

(** [Playlist()]. *)
Definition default_playlist : Playlist := new_playlist true "first" 50.

Definition with_list (p : Playlist) (d : DoublyLinkedList) : Playlist :=
  mkPlaylist d (lookup_map p) (artist_blocklist p) (action_logger p)
             (constrained_shuffler p).

Definition with_lookup (p : Playlist) (m : SongLookupMap) : Playlist :=
  mkPlaylist (playlist p) m (artist_blocklist p) (action_logger p)
             (constrained_shuffler p).

Definition with_logger (p : Playlist) (lg : ActionLogger) : Playlist :=
  mkPlaylist (playlist p) (lookup_map p) (artist_blocklist p) lg
             (constrained_shuffler p).

(** Returns the playlist after the call and the returned value. *)
Definition add_song (p : Playlist) (ttl art : string) (dur : Z)
    (gnr sid : option string) : result (Playlist * option string) :=
  if is_blocked (artist_blocklist p) art then ret (p, Some "BLOCKED_ARTIST")
  else
    let s := new_song ttl art dur sid gnr in
    let '(duplicate_result, m) := lookup_add_song (lookup_map p) s in
    let p := with_lookup p m in
    match duplicate_result with
    | Some existing => ret (p, Some existing)
    | None =>
        let index := size (playlist p) in
        do d <- dll_add_song (playlist p) s;
        let p := with_list p d in
        ret (with_logger p (log_action (action_logger p) "add" (UndoAdd index)),
             None)
    end.

Definition add_existing_song (p : Playlist) (s : Song)
  : result (Playlist * option string) :=
  if is_blocked (artist_blocklist p) (artist s)
  then ret (p, Some "BLOCKED_ARTIST")
  else
    let '(duplicate_result, m) := lookup_add_song (lookup_map p) s in
    let p := with_lookup p m in
    match duplicate_result with
    | Some existing => ret (p, Some existing)
    | None =>
        do d <- dll_add_song (playlist p) s;
        ret (with_list p d, None)
    end.

Definition delete_song (p : Playlist) (index : Z) : result Playlist :=
  if (index <? 0) || (size (playlist p) <=? index) then raise IndexError
  else
    do current <- walk (nodes (playlist p)) (head (playlist p)) (Z.to_nat index);
    do n <- node_at (nodes (playlist p)) current;
    let s := song n in
    let sid := song_id s in
    let p :=
      match sid with
      | Some i => with_lookup p (lookup_remove_song (lookup_map p) i).2
      | None => p
      end in
    do d <- dll_delete_song (playlist p) index;
    let p := with_list p d in
    ret (with_logger p
           (log_action (action_logger p) "delete" (UndoDelete s sid index))).

(** The traversal of [get_all_songs]; it ends unless the list is
    cyclic, within as many steps as there are nodes. *)
Fixpoint collect (fuel : nat) (ns : gmap addr Node) (node : option addr)
  : result (list Song) :=
  match node with
  | None => ret []
  | Some a =>
      match fuel with
      | O => raise Unending
      | S fuel' =>
          do n <- node_at ns node;
          do rest <- collect fuel' ns (next n);
          ret (song n :: rest)
      end
  end.

Definition get_all_songs (p : Playlist) : result (list Song) :=
  collect (base.size (nodes (playlist p))) (nodes (playlist p))
          (head (playlist p)).

Definition _insert_song_at_index (p : Playlist) (s : Song) (index : Z)
  : result Playlist :=
  let p := with_lookup p (lookup_add_song (lookup_map p) s).2 in
  let d := playlist p in
  let a := fresh d in
  if index =? 0 then
    let ns := <[a := mkNode s None None]> (nodes d) in
    let ns := set_next a (head d) ns in
    let ns := match head d with
              | Some h => set_prev h (Some a) ns
              | None => ns
              end in
    ret (with_list p
           (mkDLL ns (S a) (Some a)
              (match tail d with None => Some a | Some _ => tail d end)
              (size d + 1)))
  else if size d <=? index then
    do d' <- dll_add_song d s;
    ret (with_list p d')
  else
    do current <- walk (nodes d) (head d) (Z.to_nat index);
    do n <- node_at (nodes d) current;
    match current with
    | None => raise AttributeError
    | Some c =>
        let ns := <[a := mkNode s None None]> (nodes d) in
        let ns := set_prev a (prev n) ns in
        let ns := set_next a (Some c) ns in
        let '(ns, hd) :=
          match prev n with
          | Some q => (set_next q (Some a) ns, head d)
          | None => (ns, Some a)
          end in
        let ns := set_prev c (Some a) ns in
        ret (with_list p (mkDLL ns (S a) hd (tail d) (size d + 1)))
    end.

Definition move_song (p : Playlist) (from_index to_index : Z)
  : result Playlist :=
  do d <- dll_move_song (playlist p) from_index to_index;
  let p := with_list p d in
  ret (with_logger p
         (log_action (action_logger p) "move"
            (UndoMove from_index to_index))).

Definition reverse_playlist (p : Playlist) : result Playlist :=
  do d <- dll_reverse_playlist (playlist p);
  let p := with_list p d in
  ret (with_logger p (log_action (action_logger p) "reverse" UndoReverse)).

(** Calling an undo closure. *)
Definition run_undo (p : Playlist) (u : Undo) : result Playlist :=
  match u with
  | UndoAdd index => delete_song p index
  | UndoDelete s sid index =>
      let restored_song := new_song (title s) (artist s) (duration s) sid (genre s) in
      _insert_song_at_index p restored_song index
  | UndoMove from_index to_index =>
      do d <- dll_move_song (playlist p) to_index from_index;
      ret (with_list p d)
  | UndoReverse =>
      do d <- dll_reverse_playlist (playlist p);
      ret (with_list p d)
  end.

(** The [for _ in range(n)] loop of [ActionLogger.undo_last_n_actions]. *)
Fixpoint undo_loop (k : nat) (p : Playlist) (undone_actions : list string)
  : result (Playlist * list string) :=
  match k with
  | O => ret (p, undone_actions)
  | S k' =>
      match pop_action (action_logger p) with
      | None => undo_loop k' p undone_actions
      | Some (action, lg) =>
          do p' <- run_undo (with_logger p lg) (undo_func action);
          undo_loop k' p' (undone_actions ++ [action_type action])
      end
  end.

Definition undo_last_n_actions (p : Playlist) (n : Z)
  : result (Playlist * list string) :=
  if n <=? 0 then ret (p, [])
  else
    let n := Z.min n (Z.of_nat (length (_action_history (action_logger p)))) in
    undo_loop (Z.to_nat n) p [].

(** The three [while] loops of [merge_alternately]. *)
Fixpoint merge_loop (merged : Playlist) (songs1 songs2 : list Song)
  : result Playlist :=
  match songs1, songs2 with
  | s1 :: rest1, s2 :: rest2 =>
      do m1 <- add_existing_song merged s1;
      do m2 <- add_existing_song m1.1 s2;
      merge_loop m2.1 rest1 rest2
  | _, [] =>
      for_each (fun m s => do r <- add_existing_song m s; ret r.1) songs1 merged
  | [], _ =>
      for_each (fun m s => do r <- add_existing_song m s; ret r.1) songs2 merged
  end.

(** Returns [self] and [other_playlist] as the call leaves them, and the
    new playlist. *)
Definition merge_alternately (self other_playlist : Playlist)
  : result (Playlist * Playlist * Playlist) :=
  let merged_playlist := default_playlist in
  do songs1 <- get_all_songs self;
  do songs2 <- get_all_songs other_playlist;
  do merged_playlist <- merge_loop merged_playlist songs1 songs2;
  ret (self, other_playlist, merged_playlist).

Definition is_empty (p : Playlist) : bool :=
  match head (playlist p) with None => true | Some _ => false end.

(** Returns the playlist after the call and the returned song. *)
Definition pop_next (p : Playlist) : result (Playlist * option Song) :=
  match head (playlist p) with
  | None => ret (p, None)
  | Some _ =>
      do n <- node_at (nodes (playlist p)) (head (playlist p));
      let s := song n in
      let p :=
        match song_id s with
        | Some i => with_lookup p (lookup_remove_song (lookup_map p) i).2
        | None => p
        end in
      do d <- dll_delete_song (playlist p) 0;
      ret (with_list p d, Some s)
  end.

(** [ActionLogger.get_action_history]. *)
Definition get_action_history (p : Playlist) : list string :=
  action_type <$> _action_history (action_logger p).

(** [SongLookupMap.lookup_song_by_id] and [lookup_song_by_title]. *)
Definition lookup_song_by_id (m : SongLookupMap) (sid : string)
  : option Song :=
  id_map m !! sid.

Definition lookup_song_by_title (m : SongLookupMap) (ttl : string)
  : option Song :=
  title_map m !! ttl.

(** [ArtistBlocklist.remove_artist]: the returned flag and the set
    after the call. *)
Definition blocklist_remove_artist (blocked : gset string) (art : string)
  : bool * gset string :=
  if bool_decide (_normalize_artist art ∈ blocked)
  then (true, blocked ∖ {[_normalize_artist art]})
  else (false, blocked).

(** The [while not self.is_empty(): self.delete_song(0)] loop of
    [shuffle_with_artist_constraints]; every round unlinks a node, so it
    ends within as many rounds as there are nodes unless the list is
    cyclic. *)
Fixpoint clear_loop (fuel : nat) (p : Playlist) : result Playlist :=
  if is_empty p then ret p
  else
    match fuel with
    | O => raise Unending
    | S fuel' => do p' <- delete_song p 0; clear_loop fuel' p'
    end.

(** Returns the playlist after the call, the returned list and the
    generator after the draws. *)
Definition shuffle_with_artist_constraints (p : Playlist) (g : Shuffle.Rng)
  : result (Playlist * list Song * Shuffle.Rng) :=
  do songs <- get_all_songs p;
  let '(shuffled_songs, g') :=
    Shuffle.shuffle_with_constraints (constrained_shuffler p) g songs in
  do p <- clear_loop (base.size (nodes (playlist p))) p;
  do p <- for_each (fun m s => do r <- add_existing_song m s; ret r.1)
            shuffled_songs p;
  ret (p, shuffled_songs, g').

(** *** Words of the specification *)

(** The list is well formed: the nodes [l] (address and song) are
    linked from [head] to [tail] in both directions, and [size] counts
    them. *)
Definition first_addr (l : list (addr * Song)) (n : option addr) : option addr :=
  match l with
  | [] => n
  | (a, _) :: _ => Some a
  end.

Definition last_addr (p : option addr) (l : list (addr * Song)) : option addr :=
  match last l with
  | Some (a, _) => Some a
  | None => p
  end.

Fixpoint dseg (ns : gmap addr Node) (p : option addr)
    (l : list (addr * Song)) (n : option addr) : Prop :=
  match l with
  | [] => True
  | (a, s) :: l' =>
      ns !! a = Some (mkNode s p (first_addr l' n)) /\ dseg ns (Some a) l' n
  end.

Definition well_formed (d : DoublyLinkedList) (l : list (addr * Song)) : Prop :=
  dseg (nodes d) None l None /\
  head d = first_addr l None /\
  tail d = last_addr None l /\
  size d = Z.of_nat (length l) /\
  NoDup l.*1 /\
  Forall (fun a => (a < fresh d)%nat) l.*1.

(** The song [undo_delete] builds from the deleted one: [play_count]
    starts again at 0. *)
Definition restored (s : Song) : Song :=
  new_song (title s) (artist s) (duration s) (song_id s) (genre s).

(** [s'] has the title, artist, duration, song_id and genre of [s]. *)
Definition same_song (s s' : Song) : Prop :=
  title s' = title s /\ artist s' = artist s /\ duration s' = duration s /\
  song_id s' = song_id s /\ genre s' = genre s.

(** The sequence after the item at [from_index] is taken out and put
    back so that it stands at [to_index]. *)
Definition relocate {A} (l : list A) (from_index to_index : nat) : list A :=
  match l !! from_index with
  | Some x =>
      take to_index (delete from_index l) ++ x :: drop to_index (delete from_index l)
  | None => l
  end.

(** A1, B1, A2, B2, ... and then the rest of the longer list. *)
Fixpoint interleave (a b : list Song) : list Song :=
  match a, b with
  | x :: a', y :: b' => x :: y :: interleave a' b'
  | _, [] => a
  | [], _ => b
  end.

(** The action log after [delete_song(0)] removed each of [songs] in
    turn. *)
Definition log_deletes (lg : ActionLogger) (songs : list Song)
  : ActionLogger :=
  fold_left
    (fun lg' s => log_action lg' "delete" (UndoDelete s (song_id s) 0))
    songs lg.

(** [m'] has the blocklist, the action log and the dedupe settings of
    [m]. *)
Definition same_settings (m m' : Playlist) : Prop :=
  artist_blocklist m' = artist_blocklist m /\
  action_logger m' = action_logger m /\
  enable_dedupe (lookup_map m') = enable_dedupe (lookup_map m) /\
  keep <$> duplicate_cleaner (lookup_map m')
  = keep <$> duplicate_cleaner (lookup_map m).

(** The normalized (title, artist) key of a song. *)
Definition song_key (s : Song) : string := _make_key (title s) (artist s).

(** The songs a fresh default playlist accepts when offered [songs] in
    turn: a song is dropped when its normalized (title, artist) key is
    registered to a song that has an id. *)
Fixpoint accepted (reg : gmap string (option string)) (songs : list Song)
  : list Song :=
  match songs with
  | [] => []
  | s :: rest =>
      match reg !! _make_key (title s) (artist s) with
      | Some (Some _) => accepted reg rest
      | _ => s :: accepted (<[_make_key (title s) (artist s) := song_id s]> reg) rest
      end
  end.

(** [p.artist_blocklist.add_artist(art)]. *)
Definition block (p : Playlist) (art : string) : Playlist :=
  mkPlaylist (playlist p) (lookup_map p)
             (blocklist_add_artist (artist_blocklist p) art)
             (action_logger p) (constrained_shuffler p).

(** [p] after [add_existing_song] of each of [songs] in turn. *)
Definition extend (p : Playlist) (songs : list Song) : Playlist :=
  match for_each (fun m s => do r <- add_existing_song m s; ret r.1) songs p with
  | inr p' => p'
  | inl _ => p
  end.

End WithLibrary.

(** *** Example playlists *)

Definition track (ttl sid : string) : Song :=
  new_song ttl "artist" 180 (Some sid) None.

(** Three songs in a default playlist. *)
Definition abc : Playlist :=
  extend default_playlist [track "A" "1"; track "B" "2"; track "C" "3"].

(** The nodes of [abc]: addresses 0, 1 and 2. *)
Definition abc_nodes : list (addr * Song) :=
  [(0%nat, track "A" "1"); (1%nat, track "B" "2"); (2%nat, track "C" "3")].

(** A song that was played three times, alone in a default
    playlist. *)
Definition played_thrice : Song :=
  increment_play_count
    (increment_play_count (increment_play_count (track "A" "1"))).

Definition played : Playlist := extend default_playlist [played_thrice].

(** Four and three songs to merge. *)
Definition four : Playlist :=
  extend default_playlist
    [track "A1" "a1"; track "A2" "a2"; track "A3" "a3"; track "A4" "a4"].

Definition three : Playlist :=
  extend default_playlist [track "B1" "b1"; track "B2" "b2"; track "B3" "b3"].

(** The same title and artist under two ids, one per playlist. *)
Definition single (sid : string) : Playlist :=
  extend default_playlist [track "A" sid].

(** [[s.title for s in p.get_all_songs()]]. *)
Definition titles (p : Playlist) : result (list string) :=
  do songs <- get_all_songs p; ret (title <$> songs).

(** [abc] after [move_song(0, 2)], then [add_song("D", ...)], then
    [delete_song(2)]; a step that raises leaves the playlist as it
    was. *)
Definition moved : Playlist :=
  match move_song abc 0 2 with inr p => p | inl _ => abc end.

Definition moved_added : Playlist :=
  match add_song moved "D" "artist" 180 None (Some "4") with
  | inr r => r.1
  | inl _ => moved
  end.

Definition moved_deleted : Playlist :=
  match delete_song moved_added 2 with inr p => p | inl _ => moved_added end.

(** A song added without a [song_id]. *)
Definition nameless : Playlist :=
  extend default_playlist [new_song "A" "artist" 180 None None].

(** Two songs with one title by different artists. *)
Definition cover_a : Song := new_song "Hurt" "Nine Inch Nails" 375 (Some "h1") None.
Definition cover_b : Song := new_song "Hurt" "Johnny Cash" 218 (Some "h2") None.

Definition covers : Playlist := extend default_playlist [cover_a; cover_b].

(** A playlist without duplicate detection, three songs. *)
Definition plain : Playlist :=
  extend (new_playlist false "first" 50)
    [track "A" "1"; track "B" "2"; track "C" "3"].

(** A playlist under policy 'latest', one song. *)
Definition latest : Playlist :=
  extend (new_playlist true "latest" 50) [track "A" "1"].

Definition latest_nodes : list (addr * Song) := [(0%nat, track "A" "1")].

End Playlists.
(** ** playback_history/skipped_tracker.py *)
Module Skipped.

(** [RecentlySkippedTracker]: [deque(maxlen=capacity)] and the set kept
    beside it. *)
Record RecentlySkippedTracker := mkTracker {
  capacity : nat;
  _deque : list string;
  _set : gset string
}.

(** [RecentlySkippedTracker(capacity)]. *)
Definition new_tracker (cap : nat) : RecentlySkippedTracker :=
  mkTracker cap [] ∅.

Definition skip_song (t : RecentlySkippedTracker) (sid : string)
  : RecentlySkippedTracker :=
  let s :=
    match _deque t with
    | oldest :: _ =>
        if (length (_deque t) =? capacity t)%nat then _set t ∖ {[oldest]}
        else _set t
    | [] => _set t
    end in
  mkTracker (capacity t) (deque_append (capacity t) (_deque t) sid)
            ({[sid]} ∪ s).

Definition is_recently_skipped (t : RecentlySkippedTracker) (sid : string)
  : bool :=
  bool_decide (sid ∈ _set t).

Definition get_recently_skipped (t : RecentlySkippedTracker) : list string :=
  _deque t.

Definition clear_skipped (t : RecentlySkippedTracker)
  : RecentlySkippedTracker :=
  mkTracker (capacity t) [] ∅.

(** A run of [skip_song] calls on a new tracker, oldest first. *)
Definition skip_songs (cap : nat) (ids : list string)
  : RecentlySkippedTracker :=
  fold_left skip_song ids (new_tracker cap).

End Skipped.

(** ** Properties of the favorites queue *)
Module FavoritesProofs.
Import Favorites.

(** *** The tuple order is a strict total order *)

Lemma entry_ltb_lt a b : entry_ltb a b = true <-> entry_lt a b.
Proof.
  unfold entry_ltb, entry_compare, entry_lt.
  destruct (Z.compare_spec (neg_listen_time a) (neg_listen_time b)) as [Hn|Hn|Hn];
    [ | split; [intros _; lia | reflexivity] | split; [discriminate | lia] ].
  destruct (Z.compare_spec (timestamp a) (timestamp b)) as [Ht|Ht|Ht];
    [ | split; [intros _; lia | reflexivity] | split; [discriminate | lia] ].
  destruct (String.compare (entry_id a) (entry_id b)) eqn:Hs.
  - split; [discriminate|].
    apply String_as_OT.cmp_eq in Hs.
    intros [?|[_ [?|[_ Hlt]]]]; try lia.
    exfalso. exact (String_as_OT.lt_not_eq _ _ Hlt Hs).
  - split; [|reflexivity]. intros _. right. split; [exact Hn|].
    right. split; [exact Ht|]. apply String_as_OT.cmp_lt. exact Hs.
  - split; [discriminate|].
    intros [?|[_ [?|[_ Hlt]]]]; try lia.
    apply String_as_OT.cmp_lt in Hlt.
    unfold String_as_OT.cmp in Hlt. congruence.
Qed.

Lemma entry_le_not_lt a b : entry_le a b <-> ~ entry_lt b a.
Proof.
  unfold entry_le. rewrite <- entry_ltb_lt.
  destruct (entry_ltb b a); split; congruence.
Qed.

Lemma entry_lt_irrefl a : ~ entry_lt a a.
Proof.
  intros [?|[_ [?|[_ Hlt]]]]; try lia.
  exact (String_as_OT.lt_not_eq _ _ Hlt eq_refl).
Qed.

Lemma entry_lt_trans a b c : entry_lt a b -> entry_lt b c -> entry_lt a c.
Proof.
  unfold entry_lt.
  intros [?|[? [?|[? H1]]]] [?|[? [?|[? H2]]]]; try (left; lia);
    try (right; split; [lia|left; lia]).
  right. split; [lia|]. right. split; [lia|].
  exact (String_as_OT.lt_trans _ _ _ H1 H2).
Qed.

Lemma entry_trichotomy a b : entry_lt a b \/ a = b \/ entry_lt b a.
Proof.
  destruct a as [[n1 t1] s1], b as [[n2 t2] s2].
  unfold entry_lt, neg_listen_time, timestamp, entry_id; simpl.
  destruct (Z.lt_trichotomy n1 n2) as [?|[->|?]]; [left; lia| |right; right; lia].
  destruct (Z.lt_trichotomy t1 t2) as [?|[->|?]];
    [left; right; split; [lia|left; lia]|
    |right; right; right; split; [lia|left; lia]].
  destruct (String_as_OT.compare s1 s2) as [H|H|H].
  - left. right. split; [lia|]. right. split; [lia|exact H].
  - right. left. unfold String_as_OT.eq in H. subst. reflexivity.
  - right. right. right. split; [lia|]. right. split; [lia|exact H].
Qed.

Lemma entry_le_refl a : entry_le a a.
Proof. apply entry_le_not_lt, entry_lt_irrefl. Qed.

Lemma entry_le_antisym a b : entry_le a b -> entry_le b a -> a = b.
Proof.
  rewrite !entry_le_not_lt. intros H1 H2.
  destruct (entry_trichotomy a b) as [?|[?|?]]; tauto.
Qed.

Lemma entry_le_trans a b c : entry_le a b -> entry_le b c -> entry_le a c.
Proof.
  rewrite !entry_le_not_lt. intros H1 H2 H3.
  destruct (entry_trichotomy a b) as [H|[H|H]]; [|subst; tauto|tauto].
  apply H2. exact (entry_lt_trans _ _ _ H3 H).
Qed.

Lemma entry_lt_le a b : entry_lt a b -> entry_le a b.
Proof.
  intros H. apply entry_le_not_lt. intros H'.
  exact (entry_lt_irrefl _ (entry_lt_trans _ _ _ H H')).
Qed.

Lemma entry_le_neg a b : entry_le a b -> neg_listen_time a <= neg_listen_time b.
Proof.
  rewrite entry_le_not_lt. unfold entry_lt. intros H.
  destruct (Z_le_gt_dec (neg_listen_time a) (neg_listen_time b)); [assumption|].
  exfalso. apply H. left. lia.
Qed.

(** *** heappop returns a least entry and removes one copy of it *)

Lemma heap_min_elem m h : heap_min m h = m \/ heap_min m h ∈ h.
Proof.
  revert m. induction h as [|x h IH]; intros m; simpl; [left; reflexivity|].
  destruct (IH (if entry_ltb x m then x else m)) as [Hm|Hm].
  - rewrite Hm. destruct (entry_ltb x m); [right; left|left; reflexivity].
  - right. right. exact Hm.
Qed.

Lemma heap_min_least m h :
  entry_le (heap_min m h) m /\ Forall (entry_le (heap_min m h)) h.
Proof.
  revert m. induction h as [|x h IH]; intros m; simpl.
  - split; [apply entry_le_refl|constructor].
  - destruct (IH (if entry_ltb x m then x else m)) as [H1 H2].
    destruct (entry_ltb x m) eqn:Hx.
    + apply entry_ltb_lt in Hx. split; [|constructor; assumption].
      eapply entry_le_trans; [exact H1|]. apply entry_lt_le, Hx.
    + split; [exact H1|]. constructor; [|exact H2].
      eapply entry_le_trans; [exact H1|]. exact Hx.
Qed.

Lemma remove_first_perm e h : e ∈ h -> h ≡ₚ e :: remove_first e h.
Proof.
  induction h as [|x h IH]; intros Hin; [inversion Hin|].
  simpl. destruct (decide (x = e)) as [->|Hne]; [reflexivity|].
  apply elem_of_cons in Hin as [?|Hin]; [congruence|].
  rewrite (IH Hin) at 1. apply perm_swap.
Qed.

Lemma heappop_spec h m h' :
  heappop h = Some (m, h') ->
  m ∈ h /\ h ≡ₚ m :: h' /\ Forall (entry_le m) h'.
Proof.
  destruct h as [|x h0]; [discriminate|].
  unfold heappop. intros [= <- <-].
  assert (Hin : heap_min x h0 ∈ x :: h0).
  { destruct (heap_min_elem x h0) as [->|?]; [left|right; assumption]. }
  pose proof (remove_first_perm _ _ Hin) as Hp.
  split; [exact Hin|]. split; [exact Hp|].
  destruct (heap_min_least x h0) as [H1 H2].
  assert (Hall : Forall (entry_le (heap_min x h0)) (x :: h0))
    by (constructor; assumption).
  rewrite Hp in Hall. apply Forall_cons in Hall as [_ ?]. assumption.
Qed.

Lemma heappop_nonempty h : h <> [] -> exists m h', heappop h = Some (m, h').
Proof. destruct h; [congruence|]. intros _. eexists _, _. reflexivity. Qed.

Lemma fold_heappush temp h : fold_left heappush temp h = h ++ temp.
Proof.
  revert h. induction temp as [|e temp IH]; intros h; simpl.
  - symmetry. apply app_nil_r.
  - rewrite IH. unfold heappush. rewrite <- app_assoc. reflexivity.
Qed.

(** *** The read loop *)

Lemma heappop_None h : heappop h = None -> h = [].
Proof. destruct h; [reflexivity|discriminate]. Qed.

(** The loop stops at once: nothing is appended. *)
Ltac loop_stops :=
  split; [reflexivity|]; split; [reflexivity|];
  split; [constructor|]; split; [constructor|];
  split; [constructor|]; split; [constructor|];
  split; [auto|]; split; [left; reflexivity|].

(** What one run of the loop does: it appends to [temp_entries] a list
    [ts] of valid entries in ascending tuple order, each at most every
    entry left in the heap, and their summaries to [result]. *)
Lemma top_n_loop_spec q n fuel : forall h r t h' r' t',
  top_n_loop fuel q n (h, r, t) = (h', r', t') ->
  exists ts rs, t' = t ++ ts /\ r' = r ++ rs /\
    Forall2 (fun e s => check_entry q e = Some s) ts rs /\
    StronglySorted entry_le ts /\
    Forall (fun e => Forall (entry_le e) h') ts /\
    Forall (fun e => e ∈ h) ts /\
    (forall x, x ∈ h' -> x ∈ h) /\
    (ts = [] \/ Z.of_nat (length r + length ts) <= n) /\
    ((length h <= fuel)%nat ->
     h' = [] \/ n <= Z.of_nat (length r + length ts)).
Proof.
  induction fuel as [|fuel IH]; intros h r t h' r' t' Hrun; simpl in Hrun.
  - injection Hrun as <- <- <-. exists [], [].
    rewrite !app_nil_r. loop_stops.
    intros Hl. left. destruct h; [reflexivity|simpl in Hl; lia].
  - destruct (Z.of_nat (length r) <? n) eqn:Hlt.
    2:{ injection Hrun as <- <- <-. exists [], [].
        rewrite !app_nil_r. loop_stops.
        intros _. right. apply Z.ltb_ge in Hlt. simpl. lia. }
    apply Z.ltb_lt in Hlt.
    destruct (heappop h) as [[e h1]|] eqn:Hpop.
    2:{ injection Hrun as <- <- <-. exists [], [].
        rewrite !app_nil_r. loop_stops.
        intros _. left. apply heappop_None, Hpop. }
    destruct (heappop_spec _ _ _ Hpop) as (Hin & Hperm & Hmin).
    assert (Hsub : forall x, x ∈ h1 -> x ∈ h).
    { intros x Hx. rewrite Hperm. right. exact Hx. }
    assert (Hlen : length h = S (length h1)).
    { rewrite Hperm. reflexivity. }
    destruct (check_entry q e) as [s|] eqn:Hc.
    + destruct (IH _ _ _ _ _ _ Hrun)
        as (ts & rs & -> & -> & Hf2 & Hss & Hle & Hfrom & Hsub' & Hcnt & Hdone).
      exists (e :: ts), (s :: rs).
      rewrite <- !app_assoc. simpl.
      split; [reflexivity|]. split; [reflexivity|].
      split; [constructor; assumption|].
      split.
      { constructor; [exact Hss|].
        eapply Forall_impl; [exact Hfrom|]. intros x Hx. simpl in Hx.
        rewrite Forall_forall in Hmin. apply Hmin, Hx. }
      split.
      { constructor; [|exact Hle].
        rewrite Forall_forall in Hmin |- *. intros x Hx.
        apply Hmin, Hsub', Hx. }
      split.
      { constructor; [exact Hin|].
        eapply Forall_impl; [exact Hfrom|]. intros x Hx. apply Hsub, Hx. }
      split; [intros x Hx; apply Hsub, Hsub', Hx|].
      rewrite length_app in Hcnt, Hdone. simpl in Hcnt, Hdone.
      split.
      { right. destruct Hcnt as [->|Hcnt]; simpl; lia. }
      intros Hl. destruct Hdone as [->|Hdone]; [lia|left; reflexivity|right; lia].
    + destruct (IH _ _ _ _ _ _ Hrun)
        as (ts & rs & -> & -> & Hf2 & Hss & Hle & Hfrom & Hsub' & Hcnt & Hdone).
      exists ts, rs.
      repeat split; auto.
      * eapply Forall_impl; [exact Hfrom|]. intros x Hx. apply Hsub, Hx.
      * intros Hl. apply Hdone. lia.
Qed.

(** Replaying the loop on a heap that holds the valid entries [ts] found
    by an earlier run, plus entries none of which is smaller: the same
    entries are popped, in the same order. *)
Lemma top_n_loop_replay q n ts : forall rs H h' r t fuel,
  H ≡ₚ ts ++ h' ->
  Forall2 (fun e s => check_entry q e = Some s) ts rs ->
  StronglySorted entry_le ts ->
  Forall (fun e => Forall (entry_le e) h') ts ->
  (ts = [] \/ Z.of_nat (length r + length ts) <= n) ->
  (h' = [] \/ n <= Z.of_nat (length r + length ts)) ->
  (length H <= fuel)%nat ->
  exists H', top_n_loop fuel q n (H, r, t) = (H', r ++ rs, t ++ ts) /\ H' ≡ₚ h'.
Proof.
  induction ts as [|e ts IH]; intros rs H h' r t fuel Hperm Hf2 Hss Hle Hcnt Hdone Hfuel.
  - apply Forall2_nil_inv_l in Hf2 as ->. rewrite !app_nil_r.
    simpl in Hperm. exists H. split; [|exact Hperm].
    destruct fuel as [|fuel]; [reflexivity|]. simpl.
    destruct (Z.of_nat (length r) <? n) eqn:Hlt; [|reflexivity].
    apply Z.ltb_lt in Hlt. simpl in Hdone.
    destruct Hdone as [->|Hdone]; [|lia].
    apply Permutation_nil_r in Hperm as ->. reflexivity.
  - apply Forall2_cons_inv_l in Hf2 as (s & rs' & Hc & Hf2 & ->).
    destruct Hcnt as [|Hcnt]; [discriminate|]. simpl in Hcnt.
    assert (HH : H <> []).
    { intros ->. apply Permutation_nil_l in Hperm. discriminate. }
    destruct (heappop_nonempty _ HH) as (m & H1 & Hpop).
    destruct (heappop_spec _ _ _ Hpop) as (Hin & Hp & Hmin).
    apply StronglySorted_inv in Hss as [Hss Hhd].
    apply Forall_cons in Hle as [Hle_e Hle].
    assert (Hem : m = e).
    { apply entry_le_antisym.
      - assert (He : e ∈ H) by (rewrite Hperm; left).
        rewrite Hp in He. apply elem_of_cons in He as [->|He];
          [apply entry_le_refl|].
        rewrite Forall_forall in Hmin. apply Hmin, He.
      - rewrite Hperm in Hin. simpl in Hin.
        apply elem_of_cons in Hin as [->|Hin]; [apply entry_le_refl|].
        apply elem_of_app in Hin as [Hin|Hin].
        + rewrite Forall_forall in Hhd. apply Hhd, Hin.
        + rewrite Forall_forall in Hle_e. apply Hle_e, Hin. }
    subst m.
    assert (Hp1 : H1 ≡ₚ ts ++ h').
    { apply (Permutation_cons_inv (a := e)). rewrite <- Hp, Hperm. reflexivity. }
    assert (Hlen : length H = S (length H1)) by (rewrite Hp; reflexivity).
    destruct fuel as [|fuel]; [lia|].
    destruct (IH rs' H1 h' (r ++ [s]) (t ++ [e]) fuel Hp1 Hf2 Hss Hle)
      as (H' & Hrun & HpH').
    { right. rewrite length_app. simpl. lia. }
    { rewrite length_app. simpl. simpl in Hdone.
      destruct Hdone as [->|Hdone]; [left; reflexivity|right; lia]. }
    { lia. }
    exists H'. split; [|exact HpH'].
    simpl. replace (Z.of_nat (length r) <? n) with true
      by (symmetry; apply Z.ltb_lt; lia).
    rewrite Hpop, Hc, Hrun. rewrite <- !app_assoc. reflexivity.
Qed.

Lemma check_entry_ext q q' e :
  song_listen_times q' = song_listen_times q ->
  favorites q' = favorites q ->
  check_entry q' e = check_entry q e.
Proof. intros H1 H2. unfold check_entry. rewrite H1, H2. reflexivity. Qed.

Lemma check_entry_Some q e s :
  check_entry q e = Some s ->
  song_id s = entry_id e /\ total_listen_time s = - neg_listen_time e /\
  favorites q !! entry_id e = Some (title s, artist s) /\
  song_listen_times q !! entry_id e = Some (- neg_listen_time e).
Proof.
  unfold check_entry.
  destruct (song_listen_times q !! entry_id e) as [t|]; [|discriminate].
  destruct (favorites q !! entry_id e) as [[ttl art]|]; [|discriminate].
  destruct (t =? - neg_listen_time e) eqn:Ht; [|discriminate].
  apply Z.eqb_eq in Ht. intros [= <-]. simpl. subst t. auto.
Qed.

(** The loop of [get_top_n] runs to completion on the fuel it is given:
    it stops only because [result] holds [n] summaries or because the heap
    is empty. *)
Lemma top_n_loop_done q n :
  (run_loop q n).1.1 = [] \/ n <= Z.of_nat (length (run_loop q n).1.2).
Proof.
  unfold run_loop.
  destruct (top_n_loop (length (heap q)) q n (heap q, [], []))
    as [[h' r'] t'] eqn:Hrun.
  destruct (top_n_loop_spec _ _ _ _ _ _ _ _ _ Hrun)
    as (ts & rs & _ & -> & Hf2 & _ & _ & _ & _ & _ & Hdone).
  simpl. apply Forall2_length in Hf2. rewrite <- Hf2.
  apply Hdone. lia.
Qed.

Lemma get_top_n_run q n :
  exists h' ts rs,
    run_loop q n = (h', rs, ts) /\
    Forall2 (fun e s => check_entry q e = Some s) ts rs /\
    StronglySorted entry_le ts /\
    Forall (fun e => Forall (entry_le e) h') ts /\
    (ts = [] \/ Z.of_nat (length ts) <= n) /\
    (h' = [] \/ n <= Z.of_nat (length ts)).
Proof.
  unfold run_loop.
  destruct (top_n_loop (length (heap q)) q n (heap q, [], []))
    as [[h' r'] t'] eqn:Hrun.
  destruct (top_n_loop_spec _ _ _ _ _ _ _ _ _ Hrun)
    as (ts & rs & -> & -> & Hf2 & Hss & Hle & _ & _ & Hcnt & Hdone).
  exists h', ts, rs. simpl in *. repeat split; auto.
Qed.

Lemma StronglySorted_lookup {A} (R : A -> A -> Prop) (l : list A) i j a b :
  StronglySorted R l -> (i < j)%nat ->
  l !! i = Some a -> l !! j = Some b -> R a b.
Proof.
  intros Hss. revert i j. induction Hss as [|x l Hss IH Hx]; intros i j Hij Hi Hj.
  - rewrite lookup_nil in Hi. discriminate.
  - destruct j as [|j]; [lia|]. simpl in Hj. destruct i as [|i].
    + simpl in Hi. injection Hi as <-.
      rewrite Forall_forall in Hx. apply Hx.
      eapply list_elem_of_lookup_2. exact Hj.
    + simpl in Hi. apply (IH i j); [lia|assumption..].
Qed.

(** C1.  Every song [get_top_n q n] returns is a key of the favorites
    map; of any two returned songs the earlier one has at least the later
    one's total listen time; and at most [n] songs are returned (none when
    [n] is not positive). *)
Theorem get_top_n_sound (q : FavoriteQueue) (n : Z) :
  let result := (get_top_n q n).2 in
  (forall s, s ∈ result -> is_Some (favorites q !! song_id s)) /\
  (forall i j a b, (i < j)%nat ->
     result !! i = Some a -> result !! j = Some b ->
     total_listen_time b <= total_listen_time a) /\
  Z.of_nat (length result) <= Z.max 0 n.
Proof.
  unfold get_top_n.
  destruct (get_top_n_run q n) as (h' & ts & rs & -> & Hf2 & Hss & _ & Hcnt & _).
  simpl. split; [|split].
  - intros s Hs.
    destruct (proj1 (list_elem_of_lookup _ _) Hs) as [i Hi].
    destruct (Forall2_lookup_r _ _ _ _ _ Hf2 Hi) as (e & _ & Hc).
    apply check_entry_Some in Hc as (-> & _ & Hfav & _).
    rewrite Hfav. eexists. reflexivity.
  - intros i j a b Hij Ha Hb.
    destruct (Forall2_lookup_r _ _ _ _ _ Hf2 Ha) as (ea & Hea & Hca).
    destruct (Forall2_lookup_r _ _ _ _ _ Hf2 Hb) as (eb & Heb & Hcb).
    apply check_entry_Some in Hca as (_ & -> & _).
    apply check_entry_Some in Hcb as (_ & -> & _).
    pose proof (StronglySorted_lookup _ _ _ _ _ _ Hss Hij Hea Heb) as Hle.
    apply entry_le_neg in Hle. lia.
  - apply Forall2_length in Hf2. rewrite <- Hf2.
    destruct Hcnt as [->|Hcnt]; simpl; lia.
Qed.

(** C7.  A second [get_top_n n] right after the first returns the same
    list: the first read leaves both maps as they were and puts the valid
    entries it popped back into the heap. *)
Theorem get_top_n_twice (q : FavoriteQueue) (n : Z) :
  (get_top_n (get_top_n q n).1 n).2 = (get_top_n q n).2 /\
  favorites (get_top_n q n).1 = favorites q /\
  song_listen_times (get_top_n q n).1 = song_listen_times q /\
  heap (get_top_n q n).1 ≡ₚ (run_loop q n).1.1 ++ top_n_entries q n.
Proof.
  unfold get_top_n at 2 3 4 5 6, top_n_entries.
  destruct (get_top_n_run q n) as (h' & ts & rs & -> & Hf2 & Hss & Hle & Hcnt & Hdone).
  simpl. split; [|repeat split; rewrite fold_heappush; reflexivity].
  set (q1 := {| song_listen_times := song_listen_times q;
                heap := fold_left heappush ts h';
                favorites := favorites q |}).
  assert (Hf2' : Forall2 (fun e s => check_entry q1 e = Some s) ts rs).
  { eapply Forall2_impl; [exact Hf2|]. intros e s He.
    rewrite (check_entry_ext q q1); [exact He|reflexivity..]. }
  destruct (top_n_loop_replay q1 n ts rs (heap q1) h' [] [] (length (heap q1)))
    as (H' & Hrun & _); auto.
  - unfold q1. simpl. rewrite fold_heappush. apply Permutation_app_comm.
  - unfold get_top_n, run_loop. rewrite Hrun. reflexivity.
Qed.

(** C8, as the code has it.  The summaries are those of the popped
    entries, in order; of two returned entries with equal totals the one
    with the smaller push timestamp is ranked first, and with equal
    timestamps the one with the smaller song id. *)
Theorem tie_break_earlier_first (q : FavoriteQueue) (n : Z) :
  Forall2 (fun e s => check_entry q e = Some s)
    (top_n_entries q n) (get_top_n q n).2 /\
  (forall i j e1 e2, (i < j)%nat ->
     top_n_entries q n !! i = Some e1 -> top_n_entries q n !! j = Some e2 ->
     neg_listen_time e1 = neg_listen_time e2 ->
     timestamp e1 <= timestamp e2 /\
     (timestamp e1 = timestamp e2 ->
      String.leb (entry_id e1) (entry_id e2) = true)).
Proof.
  unfold get_top_n, top_n_entries.
  destruct (get_top_n_run q n) as (h' & ts & rs & -> & Hf2 & Hss & _).
  simpl. split; [exact Hf2|].
  intros i j e1 e2 Hij H1 H2 Hneg.
  pose proof (StronglySorted_lookup _ _ _ _ _ _ Hss Hij H1 H2) as Hle.
  apply entry_le_not_lt in Hle. unfold entry_lt in Hle.
  split.
  - destruct (Z_le_gt_dec (timestamp e1) (timestamp e2)); [assumption|].
    exfalso. apply Hle. right. split; [lia|]. left. lia.
  - intros Ht. unfold String.leb.
    destruct (String.compare (entry_id e1) (entry_id e2)) eqn:Hs; try reflexivity.
    exfalso. apply Hle. right. split; [lia|]. right. split; [lia|].
    apply String_as_OT.cmp_lt. unfold String_as_OT.cmp.
    rewrite String_as_OT.cmp_antisym. unfold String_as_OT.cmp.
    rewrite Hs. reflexivity.
Qed.

(** C8 as stated fails: "a" and "b" have the same total, "b" was
    recorded later, and "a" is ranked first. *)
Lemma tie_break_later_is_second :
  map song_id (get_top_n tie_queue 2).2 = ["a"; "b"] /\
  map total_listen_time (get_top_n tie_queue 2).2 = [10; 10] /\
  map timestamp (top_n_entries tie_queue 2) = [1; 2].
Proof. vm_compute. repeat split. Qed.

Lemma tie_break_earlier_first_witness :
  top_n_entries tie_queue 2 !! 0%nat = Some (-10, 1, "a") /\
  top_n_entries tie_queue 2 !! 1%nat = Some (-10, 2, "b") /\
  1 <= 2.
Proof.
  assert (H0 : top_n_entries tie_queue 2 !! 0%nat = Some (-10, 1, "a"))
    by (vm_compute; reflexivity).
  assert (H1 : top_n_entries tie_queue 2 !! 1%nat = Some (-10, 2, "b"))
    by (vm_compute; reflexivity).
  split; [exact H0|]. split; [exact H1|].
  exact (proj1 (proj2 (tie_break_earlier_first tie_queue 2) 0%nat 1%nat
                  _ _ (Nat.lt_0_succ 0) H0 H1 eq_refl)).
Defined.

(** C9.  When a listen time is already tracked for [sid],
    [add_to_favorites] leaves [song_listen_times] as it is; so removing
    [sid] from the favorites and adding it again makes it a favorite with
    the total it had. *)
Theorem add_to_favorites_keeps_listen_time
    (q : FavoriteQueue) (sid ttl art : string) (t : Z) :
  song_listen_times q !! sid = Some t ->
  song_listen_times (add_to_favorites q sid ttl art) = song_listen_times q /\
  let q1 := remove_from_favorites q sid in
  let q2 := add_to_favorites q1 sid ttl art in
  song_listen_times q1 = song_listen_times q /\
  favorites q1 !! sid = None /\
  song_listen_times q2 = song_listen_times q /\
  favorites q2 !! sid = Some (ttl, art) /\
  song_listen_times q2 !! sid = Some t.
Proof.
  intros Ht.
  assert (Hadd : forall q', song_listen_times q' !! sid = Some t ->
            song_listen_times (add_to_favorites q' sid ttl art)
            = song_listen_times q').
  { intros q' Hq'. unfold add_to_favorites.
    destruct (favorites q' !! sid); [reflexivity|]. simpl.
    rewrite Hq'. reflexivity. }
  split; [apply Hadd, Ht|].
  assert (H1 : song_listen_times (remove_from_favorites q sid)
               = song_listen_times q).
  { unfold remove_from_favorites. destruct (favorites q !! sid); reflexivity. }
  assert (H2 : favorites (remove_from_favorites q sid) !! sid = None).
  { unfold remove_from_favorites.
    destruct (favorites q !! sid) eqn:Hf; simpl;
      [apply lookup_delete_eq|exact Hf]. }
  simpl. split; [exact H1|]. split; [exact H2|].
  assert (H3 : song_listen_times
                 (add_to_favorites (remove_from_favorites q sid) sid ttl art)
               = song_listen_times q).
  { rewrite Hadd; [exact H1|]. rewrite H1. exact Ht. }
  split; [exact H3|]. split.
  - unfold add_to_favorites. rewrite H2. simpl. apply lookup_insert_eq.
  - rewrite H3. exact Ht.
Qed.

Lemma add_to_favorites_keeps_listen_time_witness :
  song_listen_times played_queue !! "a" = Some 10 /\
  song_listen_times
    (add_to_favorites (remove_from_favorites played_queue "a")
       "a" "Song A" "Artist A") !! "a" = Some 10.
Proof.
  assert (H : song_listen_times played_queue !! "a" = Some 10)
    by (vm_compute; reflexivity).
  split; [exact H|].
  exact (proj2 (proj2 (proj2 (proj2 (proj2
    (add_to_favorites_keeps_listen_time played_queue "a" "Song A" "Artist A"
       10 H)))))).
Defined.

End FavoritesProofs.
(** ** Proofs: more of the favorites queue *)
Module FavoritesMore.
Import Favorites FavoritesProofs.

(** The entries one run of the loop takes out of the heap: the valid
    ones it keeps in [temp_entries], and stale ones. *)
Lemma top_n_loop_perm q n fuel : forall h r t h' r' t',
  top_n_loop fuel q n (h, r, t) = (h', r', t') ->
  exists ts stale,
    t' = t ++ ts /\ h ≡ₚ ts ++ stale ++ h' /\
    Forall (fun e => check_entry q e = None) stale.
Proof.
  induction fuel as [|fuel IH]; intros h r t h' r' t' Hrun; simpl in Hrun.
  - injection Hrun as <- <- <-. exists [], [].
    rewrite app_nil_r. split; [reflexivity|]. split; [reflexivity|constructor].
  - destruct (Z.of_nat (length r) <? n).
    2:{ injection Hrun as <- <- <-. exists [], []. rewrite app_nil_r.
        split; [reflexivity|]. split; [reflexivity|constructor]. }
    destruct (heappop h) as [[e h1]|] eqn:Hpop.
    2:{ injection Hrun as <- <- <-. exists [], []. rewrite app_nil_r.
        split; [reflexivity|]. split; [reflexivity|constructor]. }
    destruct (heappop_spec _ _ _ Hpop) as (_ & Hperm & _).
    destruct (check_entry q e) as [s|] eqn:Hc.
    + destruct (IH _ _ _ _ _ _ Hrun) as (ts & stale & -> & Hp & Hst).
      exists (e :: ts), stale. rewrite <- app_assoc.
      split; [reflexivity|]. split; [|exact Hst].
      rewrite Hperm, Hp. reflexivity.
    + destruct (IH _ _ _ _ _ _ Hrun) as (ts & stale & -> & Hp & Hst).
      exists ts, (e :: stale).
      split; [reflexivity|]. split; [|constructor; assumption].
      rewrite Hperm, Hp. apply Permutation_middle.
Qed.

Lemma filter_all {A} (P : A -> Prop) `{!forall x, Decision (P x)} (l : list A) :
  Forall P l -> filter P l = l.
Proof.
  induction 1 as [|x l Hx _ IH]; [reflexivity|].
  rewrite filter_cons_True by exact Hx. rewrite IH. reflexivity.
Qed.

Lemma filter_none {A} (P : A -> Prop) `{!forall x, Decision (P x)} (l : list A) :
  Forall (fun x => ~ P x) l -> filter P l = [].
Proof.
  induction 1 as [|x l Hx _ IH]; [reflexivity|].
  rewrite filter_cons_False by exact Hx. exact IH.
Qed.

(** One read, in full: what is returned, what is dropped and what is
    left. *)
Lemma get_top_n_split q n :
  exists h' ts rs stale,
    run_loop q n = (h', rs, ts) /\
    heap q ≡ₚ ts ++ stale ++ h' /\
    Forall (fun e => check_entry q e = None) stale /\
    Forall2 (fun e s => check_entry q e = Some s) ts rs /\
    Forall (fun e => Forall (entry_le e) h') ts /\
    (ts = [] \/ Z.of_nat (length ts) <= n) /\
    (h' = [] \/ n <= Z.of_nat (length ts)).
Proof.
  unfold run_loop.
  destruct (top_n_loop (length (heap q)) q n (heap q, [], []))
    as [[h' r'] t'] eqn:Hrun.
  destruct (top_n_loop_spec _ _ _ _ _ _ _ _ _ Hrun)
    as (ts & rs & -> & -> & Hf2 & Hss & Hle & _ & _ & Hcnt & Hdone).
  destruct (top_n_loop_perm _ _ _ _ _ _ _ _ _ Hrun)
    as (ts' & stale & Hts & Hp & Hst).
  simpl in Hts. subst ts'.
  exists h', ts, rs, stale. simpl in *.
  split; [reflexivity|]. split; [exact Hp|]. split; [exact Hst|].
  split; [exact Hf2|]. split; [exact Hle|]. split; [exact Hcnt|].
  apply Hdone. lia.
Qed.

Lemma checked_valid q ts rs :
  Forall2 (fun e s => check_entry q e = Some s) ts rs ->
  Forall (fun e => is_Some (check_entry q e)) ts.
Proof.
  induction 1 as [|e s ts rs He _ IH]; constructor; [|exact IH].
  exists s. exact He.
Qed.

Lemma valid_split q ts rs stale h' :
  heap q ≡ₚ ts ++ stale ++ h' ->
  Forall (fun e => check_entry q e = None) stale ->
  Forall2 (fun e s => check_entry q e = Some s) ts rs ->
  valid_entries q
  ≡ₚ ts ++ filter (fun e => is_Some (check_entry q e)) h'.
Proof.
  intros Hp Hst Hf2. unfold valid_entries. rewrite Hp, !filter_app.
  rewrite (filter_all _ ts), (filter_none _ stale); [reflexivity| |].
  - eapply Forall_impl; [exact Hst|]. intros e He [s Hs]. simpl in He.
    congruence.
  - eapply checked_valid. exact Hf2.
Qed.

(** X10.  [get_top_n q n] with [n >= 0] returns as many songs as asked
    for whenever the heap holds that many valid entries, and all of them
    otherwise; a valid heap entry that is not returned is not smaller, in
    tuple order, than any entry that is; and the read drops only stale
    entries: the valid entries of the heap are the same afterwards. *)
Theorem get_top_n_complete (q : FavoriteQueue) (n : Z) :
  0 <= n ->
  Z.of_nat (length (get_top_n q n).2)
  = Z.min n (Z.of_nat (length (valid_entries q))) /\
  (exists rest,
     valid_entries q ≡ₚ top_n_entries q n ++ rest /\
     Forall (fun e => Forall (entry_le e) rest) (top_n_entries q n)) /\
  valid_entries (get_top_n q n).1 ≡ₚ valid_entries q.
Proof.
  intros Hn. unfold get_top_n, top_n_entries.
  destruct (get_top_n_split q n)
    as (h' & ts & rs & stale & -> & Hp & Hst & Hf2 & Hle & Hcnt & Hdone).
  simpl. pose proof (valid_split _ _ _ _ _ Hp Hst Hf2) as Hv.
  pose proof (Forall2_length _ _ _ Hf2) as Hlen.
  split; [|split].
  - rewrite <- Hlen. apply Permutation_length in Hv.
    rewrite length_app in Hv. rewrite Hv.
    destruct Hdone as [->|Hdone].
    + rewrite filter_nil. simpl. destruct Hcnt as [->|Hcnt]; simpl; lia.
    + assert (Z.of_nat (length ts) <= n)
        by (destruct Hcnt as [->|Hcnt]; simpl; lia).
      lia.
  - eexists. split; [exact Hv|].
    eapply Forall_impl; [exact Hle|]. intros e He. simpl in He.
    rewrite Forall_forall in He |- *. intros x Hx.
    apply list_elem_of_filter in Hx. apply He, Hx.
  - unfold valid_entries at 1. simpl. rewrite fold_heappush, filter_app.
    rewrite Hv.
    assert (E : filter (fun e => is_Some (check_entry q e)) ts = ts).
    { apply filter_all. eapply checked_valid. exact Hf2. }
    unfold check_entry in E |- *. simpl. unfold check_entry in E. rewrite E.
    apply Permutation_app_comm.
Qed.

Lemma get_top_n_complete_witness :
  length (get_top_n tie_queue 1).2 = 1%nat /\
  length (get_top_n tie_queue 5).2 = 2%nat /\
  length (valid_entries (get_top_n tie_queue 1).1) = 2%nat.
Proof.
  assert (H1 : 0 <= 1) by lia. assert (H5 : 0 <= 5) by lia.
  destruct (get_top_n_complete tie_queue 1 H1) as (Hlen1 & _ & Hv1).
  destruct (get_top_n_complete tie_queue 5 H5) as (Hlen5 & _ & _).
  assert (E : length (valid_entries tie_queue) = 2%nat)
    by (vm_compute; reflexivity).
  rewrite E in Hlen1, Hlen5. apply Permutation_length in Hv1.
  rewrite E in Hv1. split; [lia|]. split; [lia|exact Hv1].
Defined.

(** Every returned summary is that of a heap entry. *)
Lemma get_top_n_from_heap q n s :
  s ∈ (get_top_n q n).2 ->
  exists e, e ∈ heap q /\ check_entry q e = Some s.
Proof.
  unfold get_top_n.
  destruct (get_top_n_split q n)
    as (h' & ts & rs & stale & -> & Hp & _ & Hf2 & _).
  simpl. intros Hs.
  destruct (proj1 (list_elem_of_lookup _ _) Hs) as [i Hi].
  destruct (Forall2_lookup_r _ _ _ _ _ Hf2 Hi) as (e & He & Hc).
  exists e. split; [|exact Hc]. rewrite Hp. apply elem_of_app. left.
  eapply list_elem_of_lookup_2. exact He.
Qed.

(** X11.  Every song [get_top_n] returns carries the total that
    [song_listen_times] holds for it and the title and artist stored in
    [favorites], and there is a heap entry for it; so a favorite for
    which nothing was pushed on the heap, such as one that was added but
    never listened to, is never returned. *)
Theorem get_top_n_current (q : FavoriteQueue) (n : Z) (s : SongSummary) :
  s ∈ (get_top_n q n).2 ->
  song_listen_times q !! song_id s = Some (total_listen_time s) /\
  favorites q !! song_id s = Some (title s, artist s) /\
  exists now, (- total_listen_time s, now, song_id s) ∈ heap q.
Proof.
  intros Hs. destruct (get_top_n_from_heap _ _ _ Hs) as (e & He & Hc).
  apply check_entry_Some in Hc. destruct Hc as (Hid & Ht & Hfav & Htime).
  rewrite Hid, Ht. split; [exact Htime|]. split; [exact Hfav|].
  exists (timestamp e). rewrite Z.opp_involutive.
  destruct e as [[a b] c]. exact He.
Qed.

Lemma get_top_n_current_witness :
  mkSummary "a" "Song A" "Artist A" 10 ∈ (get_top_n tie_queue 2).2 /\
  song_listen_times tie_queue !! "a" = Some 10 /\
  (get_top_n (add_to_favorites init "a" "Song A" "Artist A") 5).2 = [].
Proof.
  assert (H : mkSummary "a" "Song A" "Artist A" 10 ∈ (get_top_n tie_queue 2).2).
  { vm_compute. left. }
  split; [exact H|]. split; [|vm_compute; reflexivity].
  exact (proj1 (get_top_n_current tie_queue 2 _ H)).
Defined.

(** X12.  A song that is removed from the favorites loses its heap
    entries at the next read that empties the heap (one that returns
    fewer than [n] songs).  Adding it again then makes it a favorite
    with its old total, yet no later [get_top_n], whatever its size,
    returns it. *)
Theorem readded_favorite_is_forgotten (q : FavoriteQueue)
    (sid ttl art : string) (t n m : Z) :
  song_listen_times q !! sid = Some t ->
  Z.of_nat (length (get_top_n (remove_from_favorites q sid) n).2) < n ->
  favorites (add_to_favorites (get_top_n (remove_from_favorites q sid) n).1
               sid ttl art) !! sid = Some (ttl, art) /\
  song_listen_times
    (add_to_favorites (get_top_n (remove_from_favorites q sid) n).1
       sid ttl art) !! sid = Some t /\
  forall s,
    s ∈ (get_top_n
           (add_to_favorites (get_top_n (remove_from_favorites q sid) n).1
              sid ttl art) m).2 ->
    song_id s <> sid.
Proof.
  intros Ht.
  set (q1 := remove_from_favorites q sid).
  assert (Hfav1 : favorites q1 !! sid = None).
  { unfold q1, remove_from_favorites.
    destruct (favorites q !! sid) eqn:Hf; simpl;
      [apply lookup_delete_eq|exact Hf]. }
  assert (Htime1 : song_listen_times q1 = song_listen_times q).
  { unfold q1, remove_from_favorites.
    destruct (favorites q !! sid); reflexivity. }
  unfold get_top_n at 1 2 3 5.
  destruct (get_top_n_split q1 n)
    as (h' & ts & rs & stale & -> & Hp & _ & Hf2 & _ & _ & Hdone).
  simpl. intros Hlen.
  rewrite <- (Forall2_length _ _ _ Hf2) in Hlen.
  destruct Hdone as [->|Hdone]; [|lia].
  unfold add_to_favorites. simpl. rewrite Hfav1. simpl.
  rewrite Htime1, Ht.
  split; [apply lookup_insert_eq|]. split; [exact Ht|].
  intros s Hs. apply get_top_n_from_heap in Hs.
  destruct Hs as (e & He & Hc). simpl in He.
  rewrite fold_heappush in He. simpl in He.
  apply check_entry_Some in Hc. destruct Hc as (-> & _).
  destruct (proj1 (list_elem_of_lookup _ _) He) as [i Hi].
  destruct (Forall2_lookup_l _ _ _ _ _ Hf2 Hi) as (s1 & _ & Hc1).
  apply check_entry_Some in Hc1. destruct Hc1 as (_ & _ & Hf & _).
  intros E. rewrite E, Hfav1 in Hf. discriminate.
Qed.

Lemma readded_favorite_is_forgotten_witness :
  (get_top_n played_queue 1).2 = [mkSummary "a" "Song A" "Artist A" 10] /\
  song_listen_times
    (add_to_favorites
       (get_top_n (remove_from_favorites played_queue "a") 1).1
       "a" "Song A" "Artist A") !! "a" = Some 10 /\
  (get_top_n
     (add_to_favorites
        (get_top_n (remove_from_favorites played_queue "a") 1).1
        "a" "Song A" "Artist A") 1).2 = [].
Proof.
  assert (Ht : song_listen_times played_queue !! "a" = Some 10)
    by (vm_compute; reflexivity).
  assert (Hlen : Z.of_nat (length (get_top_n
                   (remove_from_favorites played_queue "a") 1).2) < 1)
    by (vm_compute; reflexivity).
  destruct (readded_favorite_is_forgotten played_queue "a" "Song A" "Artist A"
              10 1 1 Ht Hlen) as (_ & Htime & _).
  split; [vm_compute; reflexivity|]. split; [exact Htime|].
  vm_compute. reflexivity.
Defined.

(** *** Recording a listen *)

Lemma record_listen_entry q sid delta now ttl art :
  favorites q !! sid = Some (ttl, art) ->
  exists total,
    total = match song_listen_times q !! sid with
            | Some t => t + delta
            | None => delta
            end /\
    heap (record_listen q sid delta now) = heap q ++ [(- total, now, sid)] /\
    song_listen_times (record_listen q sid delta now)
    = <[sid := total]> (song_listen_times q) /\
    favorites (record_listen q sid delta now) = favorites q /\
    check_entry (record_listen q sid delta now) (- total, now, sid)
    = Some (mkSummary sid ttl art total).
Proof.
  intros Hf. eexists. split; [reflexivity|].
  unfold record_listen. rewrite Hf. simpl.
  split; [reflexivity|]. split; [reflexivity|]. split; [reflexivity|].
  unfold check_entry, neg_listen_time, entry_id. simpl.
  rewrite lookup_insert_eq, Hf, !Z.opp_involutive, Z.eqb_refl. reflexivity.
Qed.

(** When a read returns fewer than [n] songs, or [n] is at least the
    number of valid entries, every valid entry is returned. *)
Lemma get_top_n_all q n :
  Z.of_nat (length (valid_entries q)) <= n ->
  top_n_entries q n ≡ₚ valid_entries q /\
  Forall2 (fun e s => check_entry q e = Some s)
    (top_n_entries q n) (get_top_n q n).2.
Proof.
  intros Hn. unfold get_top_n, top_n_entries.
  destruct (get_top_n_split q n)
    as (h' & ts & rs & stale & -> & Hp & Hst & Hf2 & Hle & Hcnt & Hdone).
  simpl. split; [|exact Hf2].
  pose proof (valid_split _ _ _ _ _ Hp Hst Hf2) as Hv.
  destruct Hdone as [->|Hdone].
  - rewrite filter_nil, app_nil_r in Hv. symmetry. exact Hv.
  - pose proof (Permutation_length Hv) as Hl. rewrite length_app in Hl.
    assert (E : filter (fun e => is_Some (check_entry q e)) h' = []).
    { apply length_zero_iff_nil. lia. }
    rewrite E, app_nil_r in Hv. symmetry. exact Hv.
Qed.

(** X13.  After [record_listen] for a favorite, the song's total is the
    old one (0 when none was tracked) plus [delta_seconds], and a
    [get_top_n] that asks for at least as many songs as the heap holds
    valid entries returns the song with that total and the title and
    artist it was added with. *)
Theorem record_listen_listed (q : FavoriteQueue) (sid ttl art : string)
    (delta now n : Z) :
  favorites q !! sid = Some (ttl, art) ->
  Z.of_nat (length (valid_entries (record_listen q sid delta now))) <= n ->
  song_listen_times (record_listen q sid delta now) !! sid
  = Some (default 0 (song_listen_times q !! sid) + delta) /\
  mkSummary sid ttl art (default 0 (song_listen_times q !! sid) + delta)
  ∈ (get_top_n (record_listen q sid delta now) n).2.
Proof.
  intros Hf Hn.
  destruct (record_listen_entry q sid delta now ttl art Hf)
    as (total & Htotal & Hheap & Htimes & Hfav & Hc).
  assert (E : default 0 (song_listen_times q !! sid) + delta = total).
  { rewrite Htotal. destruct (song_listen_times q !! sid); simpl; lia. }
  rewrite E. split; [rewrite Htimes; apply lookup_insert_eq|].
  destruct (get_top_n_all _ _ Hn) as [Hperm Hf2].
  assert (Hin : (- total, now, sid)
                ∈ top_n_entries (record_listen q sid delta now) n).
  { rewrite Hperm. unfold valid_entries. apply list_elem_of_filter.
    split; [rewrite Hc; eexists; reflexivity|].
    rewrite Hheap. apply elem_of_app. right. left. }
  destruct (proj1 (list_elem_of_lookup _ _) Hin) as [i Hi].
  destruct (Forall2_lookup_l _ _ _ _ _ Hf2 Hi) as (s & Hs & Hcs).
  rewrite Hc in Hcs. inversion Hcs; subst s.
  eapply list_elem_of_lookup_2. exact Hs.
Qed.

Lemma record_listen_listed_witness :
  song_listen_times (record_listen played_queue "a" 5 2) !! "a" = Some 15 /\
  mkSummary "a" "Song A" "Artist A" 15
  ∈ (get_top_n (record_listen played_queue "a" 5 2) 3).2.
Proof.
  apply (record_listen_listed played_queue "a" "Song A" "Artist A" 5 2 3).
  - vm_compute. reflexivity.
  - vm_compute. discriminate.
Defined.

Lemma elem_length {A} (x : A) (l : list A) : x ∈ l -> (1 <= length l)%nat.
Proof. destruct l; [intros H; inversion H|simpl; lia]. Qed.

(** X14.  A listen of zero seconds for a favorite that already has a
    valid heap entry pushes a second valid entry for it, and a
    [get_top_n] that asks for at least as many songs as the heap holds
    valid entries returns the song at least twice. *)
Theorem zero_listen_is_listed_twice (q : FavoriteQueue) (sid ttl art : string)
    (now n : Z) (e : entry) :
  favorites q !! sid = Some (ttl, art) ->
  e ∈ heap q -> entry_id e = sid -> is_Some (check_entry q e) ->
  Z.of_nat (length (valid_entries (record_listen q sid 0 now))) <= n ->
  (2 <= length (filter (fun s => song_id s = sid)
                  (get_top_n (record_listen q sid 0 now) n).2))%nat.
Proof.
  intros Hf He Hid [s0 Hs0] Hn.
  destruct (record_listen_entry q sid 0 now ttl art Hf)
    as (total & Htotal & Hheap & Htimes & Hfav & Hc).
  pose proof (check_entry_Some _ _ _ Hs0) as (_ & _ & _ & Ht).
  rewrite Hid in Ht. rewrite Ht in Htotal.
  assert (Htimes' : song_listen_times (record_listen q sid 0 now)
                    = song_listen_times q).
  { rewrite Htimes, Htotal, Z.add_0_r. apply insert_id. exact Ht. }
  destruct (get_top_n_all _ _ Hn) as [Hperm Hf2].
  set (q' := record_listen q sid 0 now) in *.
  assert (Hlen : length (filter (fun s => song_id s = sid) (get_top_n q' n).2)
                 = length (filter (fun x => entry_id x = sid)
                             (top_n_entries q' n))).
  { symmetry. eapply Forall2_length.
    eapply Forall2_filter; [|exact Hf2].
    intros x y Hxy. simpl in Hxy. apply check_entry_Some in Hxy.
    destruct Hxy as (-> & _). reflexivity. }
  rewrite Hlen, Hperm. unfold valid_entries.
  rewrite Hheap, !filter_app, length_app.
  match goal with
  | |- (2 <= length ?a + length ?b)%nat =>
      assert (H1 : e ∈ a); [|assert (H2 : (- total, now, sid) ∈ b)]
  end.
  - apply list_elem_of_filter. split; [exact Hid|].
    apply list_elem_of_filter. split; [|exact He].
    rewrite (check_entry_ext q q' e Htimes' Hfav), Hs0. eexists. reflexivity.
  - apply list_elem_of_filter. split; [reflexivity|].
    apply list_elem_of_filter. split; [|left].
    rewrite Hc. eexists. reflexivity.
  - apply (Nat.add_le_mono 1 _ 1 _);
      [exact (elem_length _ _ H1)|exact (elem_length _ _ H2)].
Qed.

Lemma zero_listen_is_listed_twice_witness :
  map song_id (get_top_n (record_listen played_queue "a" 0 2) 5).2
  = ["a"; "a"] /\
  (2 <= length (filter (fun s => song_id s = "a")
                  (get_top_n (record_listen played_queue "a" 0 2) 5).2))%nat.
Proof.
  split; [vm_compute; reflexivity|].
  apply (zero_listen_is_listed_twice played_queue "a" "Song A" "Artist A"
           2 5 (-10, 1, "a")).
  - vm_compute. reflexivity.
  - vm_compute. left.
  - reflexivity.
  - vm_compute. eexists. reflexivity.
  - vm_compute. discriminate.
Defined.

End FavoritesMore.

(** ** Properties of the recommender *)
Module RecommendProofs.
Import Recommend.

Section WithLibrary.
Context {str_methods : StrMethods} {set_order : SetOrder}.

(** A candidate that passes the three [continue] tests. *)
Definition eligible (r : SmartRecommender) (ex : bool) (active : gset string)
    (c : string) : Prop :=
  filtered_out r ex active c = false.

Lemma add_score_keys scores c s k :
  k ∈ (add_score scores c s).*1 -> k = c \/ k ∈ scores.*1.
Proof.
  induction scores as [|[k' v] rest IH]; simpl.
  - intros H. apply list_elem_of_singleton in H. left. exact H.
  - destruct (String.eqb k' c) eqn:Hk; simpl; intros H.
    + right. exact H.
    + apply elem_of_cons in H as [->|H]; [right; left|].
      destruct (IH H) as [?|?]; [left; assumption|right; right; assumption].
Qed.

Lemma score_candidate_keeps r ex active seed acc c acc' :
  Forall (eligible r ex active) acc.1.*1 ->
  score_candidate r ex active seed acc c = inr acc' ->
  Forall (eligible r ex active) acc'.1.*1.
Proof.
  intros Hacc. unfold score_candidate.
  destruct (filtered_out r ex active c) eqn:Hf.
  - intros [= <-]. exact Hacc.
  - destruct (_calculate_similarity_score r seed c) as [e|sr]; simpl;
      [discriminate|].
    destruct (Qlt_bool 0 sr.1); intros [= <-]; [|exact Hacc].
    simpl. rewrite Forall_forall in Hacc |- *. intros k Hk.
    apply add_score_keys in Hk as [->|Hk]; [exact Hf|apply Hacc, Hk].
Qed.

Lemma for_each_keeps {A S} (P : S -> Prop) (body : S -> A -> result S) :
  (forall s x s', P s -> body s x = inr s' -> P s') ->
  forall xs s s', P s -> for_each body xs s = inr s' -> P s'.
Proof.
  intros Hbody. induction xs as [|x xs IH]; intros s s' Hs; simpl.
  - intros [= <-]. exact Hs.
  - destruct (body s x) as [e|s1] eqn:Hb; simpl; [discriminate|].
    apply IH. eapply Hbody; eassumption.
Qed.

Lemma score_seed_keeps r ex active acc seed acc' :
  Forall (eligible r ex active) acc.1.*1 ->
  score_seed r ex active acc seed = inr acc' ->
  Forall (eligible r ex active) acc'.1.*1.
Proof.
  unfold score_seed.
  apply (for_each_keeps (fun a : tally => Forall (eligible r ex active) a.1.*1)).
  intros s x s'. apply score_candidate_keeps.
Qed.

Lemma insert_desc_elem x l y : y ∈ insert_desc x l -> y = x \/ y ∈ l.
Proof.
  induction l as [|z l IH]; simpl.
  - intros H. apply list_elem_of_singleton in H. left. exact H.
  - destruct (Qlt_bool x.2 z.2); intros H.
    + apply elem_of_cons in H as [->|H]; [right; left|].
      destruct (IH H) as [?|?]; [left; assumption|right; right; assumption].
    + apply elem_of_cons in H as [->|H]; [left; reflexivity|right; exact H].
Qed.

Lemma sorted_desc_elem l y : y ∈ sorted_desc l -> y ∈ l.
Proof.
  induction l as [|x l IH]; simpl; [auto|].
  intros H. apply insert_desc_elem in H as [->|H]; [left|right; auto].
Qed.

Lemma py_slice_to_elem {A} (xs : list A) k y : y ∈ py_slice_to xs k -> y ∈ xs.
Proof.
  unfold py_slice_to. destruct (0 <=? k); intros H;
    eapply subseteq_take; exact H.
Qed.

Lemma recommend_with_eligible r sc tn ex recs :
  recommend_with r sc tn ex = inr recs ->
  Forall (fun rec => eligible r ex
            (if ex then active_ids (playlist_songs_getter r) else ∅)
            (song_id rec)) recs.
Proof.
  unfold recommend_with.
  destruct (select_seeds sc (rev (play_window r)) []) as [|s0 seeds].
  { intros [= <-]. constructor. }
  set (active := if ex then active_ids (playlist_songs_getter r) else ∅).
  destruct (for_each (score_seed r ex active) (s0 :: seeds) ([], ∅))
    as [e|acc] eqn:Hloop; simpl; [discriminate|].
  intros [= <-].
  assert (Hacc : Forall (eligible r ex active) acc.1.*1).
  { revert Hloop.
    apply (for_each_keeps (fun a : tally => Forall (eligible r ex active) a.1.*1)).
    - intros s x s'. apply score_seed_keeps.
    - constructor. }
  apply Forall_forall. intros rec Hrec.
  apply list_elem_of_fmap in Hrec as (cs & -> & Hcs). simpl.
  apply py_slice_to_elem, sorted_desc_elem in Hcs.
  rewrite Forall_forall in Hacc. apply Hacc.
  apply list_elem_of_fmap. exists cs. split; [reflexivity|exact Hcs].
Qed.

Lemma active_ids_snapshot (snapshot : list (option string)) (c : string) :
  c <> EmptyString -> Some c ∈ snapshot -> c ∈ active_ids snapshot.
Proof.
  intros Hc Hin. unfold active_ids. apply elem_of_list_to_set.
  apply list_elem_of_omap. exists (Some c). split; [exact Hin|].
  simpl. destruct c; [contradiction|reflexivity].
Qed.

(** C6, amended.  Whatever the scores, no recommendation that
    [recommend] returns is in the all-time played set or is reported
    recently skipped; and when [exclude_active_playlist] is set, none
    with a [song_id] other than the empty string is the [song_id] of a
    song in the playlist snapshot. *)
Theorem recommend_excludes (r : SmartRecommender) (sc tn : option Z)
    (ex : bool) :
  match recommend r sc tn ex with
  | inr recs =>
      Forall (fun rec =>
        (song_id rec ∉ played_set r) /\
        skipped_tracker r (song_id rec) = false /\
        (ex = true -> song_id rec <> EmptyString ->
         Some (song_id rec) ∉ playlist_songs_getter r)) recs
  | inl _ => True
  end.
Proof.
  unfold recommend.
  destruct (recommend_with r (py_or sc (seed_count r)) (py_or tn (top_n r)) ex)
    as [e|recs] eqn:Hrun; [exact I|].
  eapply Forall_impl; [exact (recommend_with_eligible _ _ _ _ _ Hrun)|].
  intros rec. unfold eligible, filtered_out. simpl.
  rewrite !orb_false_iff. intros [[Hp Hs] Ha].
  apply bool_decide_eq_false in Hp.
  split; [exact Hp|]. split; [exact Hs|].
  intros -> Hid Hin. simpl in Ha. apply bool_decide_eq_false in Ha.
  apply Ha, active_ids_snapshot; assumption.
Qed.

Lemma select_seeds_nonpositive sc w : sc <= 0 -> select_seeds sc w [] = [].
Proof.
  intros Hsc. destruct w as [|[sid t] w]; [reflexivity|]. simpl.
  change (Z.of_nat 0) with 0.
  replace (0 >=? sc) with true; [reflexivity|].
  symmetry. rewrite Z.geb_leb. apply Z.leb_le. exact Hsc.
Qed.

Lemma recommend_with_zero_seeds (r : SmartRecommender) (tn : Z) (ex : bool) :
  recommend_with r 0 tn ex = inr [].
Proof.
  unfold recommend_with. rewrite select_seeds_nonpositive; [reflexivity|lia].
Qed.

End WithLibrary.

(** In [live] the song ["s4"] of the playlist is a candidate like ["s2"]:
    it is recommended only when the playlist is not excluded. *)
Lemma recommend_excludes_witness :
  recommended_ids live None None false = inr ["s2"; "s4"] /\
  exists recs,
    recommend live None None true = inr recs /\
    song_id <$> recs = ["s2"] /\
    Forall (fun rec =>
      (song_id rec ∉ played_set live) /\
      skipped_tracker live (song_id rec) = false /\
      (true = true -> song_id rec <> EmptyString ->
       Some (song_id rec) ∉ playlist_songs_getter live)) recs.
Proof.
  split; [vm_compute; reflexivity|].
  pose proof (recommend_excludes live None None true) as Hex.
  destruct (recommend live None None true) as [e|recs] eqn:Hrun;
    [vm_compute in Hrun; discriminate|].
  exists recs. split; [reflexivity|]. split; [|exact Hex].
  vm_compute in Hrun. injection Hrun as <-. reflexivity.
Defined.

(** The claim as stated fails for a song whose [song_id] is the empty
    string: [unnamed] has that song in the playlist snapshot, and
    [recommend] returns it with [exclude_active_playlist] set. *)
Lemma recommend_returns_unnamed_playlist_song :
  exists recs rec,
    recommend unnamed None None true = inr recs /\
    rec ∈ recs /\
    Some (song_id rec) ∈ playlist_songs_getter unnamed.
Proof.
  destruct (recommend unnamed None None true) as [e|recs] eqn:Hrun;
    [vm_compute in Hrun; discriminate|].
  destruct recs as [|rec recs]; [vm_compute in Hrun; discriminate|].
  exists (rec :: recs), rec. split; [reflexivity|]. split; [left|].
  vm_compute in Hrun. injection Hrun as <- _. simpl. left.
Qed.

(** C10.  A [seed_count] or [top_n] of 0 is not used: [recommend]
    behaves as if the argument had been left out and runs with the
    configured value.  With the constructor's defaults (5 and 10)
    [recommend(seed_count=0)] returns a recommendation, where a seed count
    of 0, had it been used, gives the empty list. *)
Theorem recommend_zero_uses_default :
  (forall (M : StrMethods) (O : SetOrder) (r : SmartRecommender)
          (sc tn : option Z) (ex : bool),
     recommend r (Some 0) tn ex = recommend r None tn ex /\
     recommend r sc (Some 0) ex = recommend r sc None ex /\
     recommend r (Some 0) (Some 0) ex
     = recommend_with r (seed_count r) (top_n r) ex /\
     recommend_with r 0 (py_or tn (top_n r)) ex = inr []) /\
  seed_count demo = 5 /\ top_n demo = 10 /\
  recommended_ids demo (Some 0) None true = inr ["s2"].
Proof.
  split.
  { intros M O r sc tn ex.
    split; [reflexivity|]. split; [reflexivity|]. split; [reflexivity|].
    apply recommend_with_zero_seeds. }
  split; [reflexivity|]. split; [reflexivity|].
  vm_compute. reflexivity.
Qed.

End RecommendProofs.
(** ** Proofs: more of the recommender *)
From Stdlib Require Import Lqa.

Module RecommendMore.
Import Recommend RecommendProofs.

Section WithLibrary.
Context {str_methods : StrMethods} {set_order : SetOrder}.

(** *** The play window *)

Lemma deque_append_window {A} (W : nat) (d : list A) (x : A) :
  (1 <= W)%nat -> (length d <= W)%nat ->
  deque_append W d x = drop (length (d ++ [x]) - W) (d ++ [x]).
Proof.
  intros HW Hd. unfold deque_append. destruct W as [|W]; [lia|].
  rewrite length_app. simpl.
  destruct (Nat.ltb_spec (length d) (S W)) as [Hlt|Hge].
  - replace (length d + 1 - S W)%nat with 0%nat by lia. reflexivity.
  - replace (length d + 1 - S W)%nat with 1%nat by lia.
    destruct d as [|y d]; [simpl in Hge; lia|]. reflexivity.
Qed.

Lemma drop_window {A} (W : nat) (l : list A) (x : A) :
  drop (length (drop (length l - W) l ++ [x]) - W) (drop (length l - W) l ++ [x])
  = drop (length (l ++ [x]) - W) (l ++ [x]).
Proof.
  rewrite !length_app, length_drop. simpl.
  destruct (Nat.le_gt_cases (length l) W) as [Hle|Hgt].
  - replace (length l - W)%nat with 0%nat by lia. simpl.
    rewrite Nat.sub_0_r. reflexivity.
  - replace (length l - (length l - W) + 1 - W)%nat with 1%nat by lia.
    replace (length l + 1 - W)%nat with ((length l - W) + 1)%nat by lia.
    rewrite <- drop_drop, (drop_app_le l [x] (length l - W)) by lia.
    reflexivity.
Qed.

Lemma record_plays_snoc r plays p :
  record_plays r (plays ++ [p])
  = record_play (record_plays r plays) p.1.1.1 p.1.1.2 p.1.2 p.2.
Proof. unfold record_plays. rewrite fold_left_app. reflexivity. Qed.

Lemma record_plays_window_size r plays :
  window_size (record_plays r plays) = window_size r.
Proof.
  induction plays as [|p plays IH] using rev_ind; [reflexivity|].
  rewrite record_plays_snoc. simpl. exact IH.
Qed.

(** X15.  With a window size of at least 1, after any run of
    [record_play] calls the play window holds the last [window_size]
    plays, oldest first, while [played_set] holds every song that was
    ever played: it only grows. *)
Theorem record_plays_window (r : SmartRecommender) (plays : list play) :
  (1 <= window_size r)%nat ->
  (length (play_window r) <= window_size r)%nat ->
  play_window (record_plays r plays)
  = drop (length (play_window r ++ map window_entry plays) - window_size r)
         (play_window r ++ map window_entry plays) /\
  played_set (record_plays r plays)
  = played_set r ∪ list_to_set (map (fun p : play => p.1.1.1) plays).
Proof.
  intros HW Hlen. induction plays as [|p plays IH] using rev_ind.
  - simpl. rewrite app_nil_r. split.
    + replace (length (play_window r) - window_size r)%nat with 0%nat by lia.
      reflexivity.
    + apply set_eq. intros y. rewrite elem_of_union, elem_of_empty. tauto.
  - destruct IH as [IHw IHs]. rewrite record_plays_snoc. simpl.
    rewrite record_plays_window_size, IHw, IHs. split.
    + rewrite deque_append_window; [|exact HW|rewrite length_drop; lia].
      rewrite map_app, app_assoc. simpl. apply drop_window.
    + rewrite map_app, list_to_set_app_L. simpl. apply set_eq. intros y.
      rewrite !elem_of_union, elem_of_empty. tauto.
Qed.

(** X16.  A song that was played at any point of a run of
    [record_play] calls is never recommended afterwards, whether or not
    it is still in the play window. *)
Theorem played_song_not_recommended (r : SmartRecommender)
    (plays : list play) (sc tn : option Z) (ex : bool)
    (recs : list Recommendation) (p : play) :
  p ∈ plays ->
  recommend (record_plays r plays) sc tn ex = inr recs ->
  p.1.1.1 ∉ map song_id recs.
Proof.
  intros Hp Hrec Hin. unfold recommend in Hrec.
  apply recommend_with_eligible in Hrec.
  apply list_elem_of_fmap in Hin. destruct Hin as (rec & Hid & Hrecs).
  rewrite Forall_forall in Hrec. specialize (Hrec _ Hrecs).
  unfold eligible, filtered_out in Hrec.
  apply orb_false_iff in Hrec. destruct Hrec as [Hrec _].
  apply orb_false_iff in Hrec. destruct Hrec as [Hrec _].
  apply bool_decide_eq_false in Hrec. apply Hrec. rewrite <- Hid.
  clear - Hp. induction plays as [|q plays IH] using rev_ind.
  - inversion Hp.
  - rewrite record_plays_snoc. simpl. apply elem_of_app in Hp.
    destruct Hp as [Hp|Hp].
    + apply elem_of_union. right. apply IH. exact Hp.
    + apply list_elem_of_singleton in Hp. subst q.
      apply elem_of_union. left. apply elem_of_singleton. reflexivity.
Qed.

(** *** The similarity score *)

Lemma Qmax_unit (x : Q) : (x <= 1)%Q -> (0 <= Qmax 0 x)%Q /\ (Qmax 0 x <= 1)%Q.
Proof.
  intros Hx. unfold Qmax. destruct (Qle_bool 0 x) eqn:E.
  - apply Qle_bool_iff in E. split; [exact E|exact Hx].
  - split; lra.
Qed.

(** With a threshold other than 0 the duration and BPM terms never
    raise, and their score lies between 0 and 1. *)
Lemma proximity_unit (a b : Q) (threshold : Z) :
  threshold <> 0 ->
  exists d, proximity a b threshold = inr d /\
    match d with
    | Some (sc, _) => (0 <= sc)%Q /\ (sc <= 1)%Q
    | None => True
    end.
Proof.
  intros Hth. unfold proximity.
  destruct (Qlt_bool 0 a && Qlt_bool 0 b); [|exists None; split; [reflexivity|exact I]].
  destruct (Qle_bool (Qabs (b - a)) (inject_Z threshold)) eqn:E;
    [|exists None; split; [reflexivity|exact I]].
  replace (threshold =? 0) with false by (symmetry; apply Z.eqb_neq; exact Hth).
  eexists. split; [reflexivity|]. apply Qmax_unit.
  apply Qle_bool_iff in E. pose proof (Qabs_nonneg (b - a)) as Hn.
  assert (Hpos : (0 < inject_Z threshold)%Q).
  { assert (H0 : (0 <= inject_Z threshold)%Q) by lra.
    change 0%Q with (inject_Z 0) in H0 |- *.
    rewrite <- Zle_Qle in H0. rewrite <- Zlt_Qlt. lia. }
  assert (Hdiv : (0 <= Qabs (b - a) / inject_Z threshold)%Q).
  { apply Qle_shift_div_l; [exact Hpos|]. lra. }
  lra.
Qed.

(** X17.  With both thresholds other than 0,
    [_calculate_similarity_score] never raises and its score lies
    between 0 and 3.3, the sum of the five weights. *)
Theorem similarity_score_bounds (r : SmartRecommender)
    (seed_id candidate_id : string) :
  duration_threshold r <> 0 -> bpm_threshold r <> 0 ->
  exists sc why,
    _calculate_similarity_score r seed_id candidate_id = inr (sc, why) /\
    (0 <= sc)%Q /\ (sc <= 33 # 10)%Q.
Proof.
  intros Hd Hb. unfold _calculate_similarity_score.
  destruct (song_metadata r !! seed_id) as [sm|];
    [|eexists _, _; split; [reflexivity|split; lra]].
  destruct (song_metadata r !! candidate_id) as [cm|];
    [|eexists _, _; split; [reflexivity|split; lra]].
  destruct (proximity_unit (default 0%Q (duration sm))
              (default 0%Q (duration cm)) _ Hd) as (d & -> & Hdb).
  destruct (proximity_unit (default 0%Q (bpm sm))
              (default 0%Q (bpm cm)) _ Hb) as (b & Hbq & Hbb).
  unfold W_GENRE, W_SUBGENRE, W_MOOD, W_DURATION, W_BPM.
  destruct (same_field (genre sm) (genre cm));
    destruct (same_field (subgenre sm) (subgenre cm));
    destruct (same_field (mood sm) (mood cm));
    destruct d as [[ds dd]|]; simpl; rewrite Hbq; simpl;
    destruct b as [[bs bd]|]; simpl;
    (eexists _, _; split; [reflexivity|split; lra]).
Qed.

(** X18.  With a duration threshold of 0, scoring two songs that have
    metadata and the same positive duration raises
    [ZeroDivisionError]. *)
Theorem zero_threshold_raises (r : SmartRecommender)
    (seed_id candidate_id : string) (sm cm : Metadata) (x y : Q) :
  song_metadata r !! seed_id = Some sm ->
  song_metadata r !! candidate_id = Some cm ->
  duration sm = Some x -> duration cm = Some y ->
  (0 < x)%Q -> (x == y)%Q ->
  duration_threshold r = 0 ->
  _calculate_similarity_score r seed_id candidate_id = inl ZeroDivisionError.
Proof.
  intros Hs Hc Hx Hy Hpos Heq Hth. unfold _calculate_similarity_score.
  rewrite Hs, Hc, Hx, Hy, Hth. simpl.
  assert (E1 : Qlt_bool 0 x = true).
  { unfold Qlt_bool. apply negb_true_iff.
    destruct (Qle_bool x 0) eqn:E; [|reflexivity].
    apply Qle_bool_iff in E. lra. }
  assert (E2 : Qlt_bool 0 y = true).
  { unfold Qlt_bool. apply negb_true_iff.
    destruct (Qle_bool y 0) eqn:E; [|reflexivity].
    apply Qle_bool_iff in E. lra. }
  assert (E3 : Qle_bool (Qabs (y - x)) (inject_Z 0) = true).
  { apply Qle_bool_iff. apply Qabs_Qle_condition.
    change (inject_Z 0) with 0%Q. split; lra. }
  destruct (same_field (genre sm) (genre cm));
    destruct (same_field (subgenre sm) (subgenre cm));
    destruct (same_field (mood sm) (mood cm));
    unfold proximity; rewrite E1, E2, E3; reflexivity.
Qed.

Lemma Qabs_swap (a b : Q) : Qabs (b - a) = Qabs (a - b).
Proof.
  destruct a as [an ad], b as [bn bd]. unfold Qminus, Qplus, Qopp, Qabs.
  simpl. f_equal; [|apply Pos.mul_comm]. lia.
Qed.

Lemma same_field_swap (a b : option string) : same_field a b = same_field b a.
Proof.
  unfold same_field. rewrite (String.eqb_sym (lower (default "" a))).
  destruct (str_truthy (lower (default "" a)));
    destruct (str_truthy (lower (default "" b))); reflexivity.
Qed.

Lemma proximity_swap (a b : Q) (threshold : Z) :
  proximity a b threshold = proximity b a threshold.
Proof.
  unfold proximity. rewrite (andb_comm (Qlt_bool 0 a)), (Qabs_swap a b).
  reflexivity.
Qed.

(** X19.  The similarity score is symmetric: scoring the candidate
    against the seed gives the same score and reason, or the same
    error, as scoring the seed against the candidate. *)
Theorem similarity_score_symmetric (r : SmartRecommender)
    (seed_id candidate_id : string) :
  _calculate_similarity_score r seed_id candidate_id
  = _calculate_similarity_score r candidate_id seed_id.
Proof.
  unfold _calculate_similarity_score.
  destruct (song_metadata r !! seed_id) as [sm|],
           (song_metadata r !! candidate_id) as [cm|]; try reflexivity.
  rewrite (same_field_swap (genre sm)), (same_field_swap (subgenre sm)),
    (same_field_swap (mood sm)).
  rewrite (proximity_swap (default 0%Q (duration sm))),
    (proximity_swap (default 0%Q (bpm sm))).
  reflexivity.
Qed.

(** *** The result of [recommend] *)

Lemma similarity_score_total r seed_id candidate_id :
  duration_threshold r <> 0 -> bpm_threshold r <> 0 ->
  exists sr, _calculate_similarity_score r seed_id candidate_id = inr sr.
Proof.
  intros Hd Hb. unfold _calculate_similarity_score.
  destruct (song_metadata r !! seed_id) as [sm|]; [|eexists; reflexivity].
  destruct (song_metadata r !! candidate_id) as [cm|]; [|eexists; reflexivity].
  destruct (proximity_unit (default 0%Q (duration sm))
              (default 0%Q (duration cm)) _ Hd) as (d & -> & _).
  destruct (proximity_unit (default 0%Q (bpm sm))
              (default 0%Q (bpm cm)) _ Hb) as (b & Hbq & _).
  destruct (same_field (genre sm) (genre cm));
    destruct (same_field (subgenre sm) (subgenre cm));
    destruct (same_field (mood sm) (mood cm));
    destruct d as [[ds dd]|]; simpl; rewrite Hbq; simpl;
    destruct b as [[bs bd]|]; simpl; eexists; reflexivity.
Qed.

Lemma add_score_NoDup scores c s :
  NoDup scores.*1 -> NoDup (add_score scores c s).*1.
Proof.
  induction scores as [|[k v] rest IH]; simpl; intros Hnd.
  - apply NoDup_singleton.
  - apply NoDup_cons in Hnd. destruct Hnd as [Hk Hnd].
    destruct (String.eqb k c) eqn:E; simpl.
    + apply NoDup_cons. split; assumption.
    + apply NoDup_cons. split; [|apply IH; exact Hnd].
      intros Hin. apply add_score_keys in Hin. destruct Hin as [->|Hin].
      * rewrite String.eqb_refl in E. discriminate.
      * contradiction.
Qed.

(** A loop whose body keeps an invariant and never raises under it. *)
Lemma for_each_total {A S} (P : S -> Prop) (body : S -> A -> result S) :
  (forall s x, P s -> exists s', body s x = inr s' /\ P s') ->
  forall xs s, P s -> exists s', for_each body xs s = inr s' /\ P s'.
Proof.
  intros Hbody. induction xs as [|x xs IH]; intros s Hs; simpl.
  - exists s. split; [reflexivity|exact Hs].
  - destruct (Hbody s x Hs) as (s1 & -> & Hs1). simpl. apply IH. exact Hs1.
Qed.

Lemma score_candidate_total r ex active seed acc c :
  duration_threshold r <> 0 -> bpm_threshold r <> 0 ->
  NoDup acc.1.*1 ->
  exists acc', score_candidate r ex active seed acc c = inr acc' /\
               NoDup acc'.1.*1.
Proof.
  intros Hd Hb Hnd. unfold score_candidate.
  destruct (filtered_out r ex active c);
    [exists acc; split; [reflexivity|exact Hnd]|].
  destruct (similarity_score_total r seed c Hd Hb) as [sr ->]. simpl.
  destruct (Qlt_bool 0 sr.1).
  - eexists. split; [reflexivity|]. simpl. apply add_score_NoDup. exact Hnd.
  - exists acc. split; [reflexivity|exact Hnd].
Qed.

Lemma score_seeds_total r ex active seeds :
  duration_threshold r <> 0 -> bpm_threshold r <> 0 ->
  exists acc,
    for_each (score_seed r ex active) seeds ([], ∅) = inr acc /\
    NoDup acc.1.*1.
Proof.
  intros Hd Hb.
  apply (for_each_total (fun a : tally => NoDup a.1.*1)); [|constructor].
  intros acc seed Hacc. unfold score_seed.
  apply (for_each_total (fun a : tally => NoDup a.1.*1)); [|exact Hacc].
  intros acc1 c Hacc1. apply score_candidate_total; assumption.
Qed.

Lemma insert_desc_perm x l : insert_desc x l ≡ₚ x :: l.
Proof.
  induction l as [|y l IH]; [reflexivity|]. simpl.
  destruct (Qlt_bool x.2 y.2); [|reflexivity].
  rewrite IH. apply perm_swap.
Qed.

Lemma sorted_desc_perm l : sorted_desc l ≡ₚ l.
Proof.
  induction l as [|x l IH]; [reflexivity|]. simpl.
  rewrite insert_desc_perm, IH. reflexivity.
Qed.

Lemma insert_desc_sorted x l :
  StronglySorted by_score_desc l -> StronglySorted by_score_desc (insert_desc x l).
Proof.
  induction 1 as [|y l Hss IH Hy]; simpl.
  - constructor; constructor.
  - unfold Qlt_bool. destruct (Qle_bool y.2 x.2) eqn:E; simpl.
    + apply Qle_bool_iff in E. constructor; [constructor; assumption|].
      constructor; [exact E|].
      eapply Forall_impl; [exact Hy|]. intros z Hz. unfold by_score_desc in *.
      simpl in Hz. lra.
    + assert (Hlt : (x.2 <= y.2)%Q).
      { destruct (Qlt_le_dec x.2 y.2) as [H|H]; [lra|].
        apply Qle_bool_iff in H. congruence. }
      constructor; [exact IH|].
      rewrite insert_desc_perm. constructor; [exact Hlt|exact Hy].
Qed.

Lemma sorted_desc_sorted l : StronglySorted by_score_desc (sorted_desc l).
Proof.
  induction l as [|x l IH]; simpl; [constructor|].
  apply insert_desc_sorted. exact IH.
Qed.

Lemma StronglySorted_take {A} (R : A -> A -> Prop) (l : list A) k :
  StronglySorted R l -> StronglySorted R (take k l).
Proof.
  intros H. revert k. induction H as [|x l Hss IH Hx]; intros k.
  - rewrite take_nil. constructor.
  - destruct k as [|k]; simpl; [constructor|].
    constructor; [apply IH|].
    rewrite Forall_forall in Hx |- *. intros y Hy. apply Hx.
    eapply subseteq_take. exact Hy.
Qed.

(** *** [round(score, 2)] *)

Lemma round2_nearest (q : Q) :
  exists k, round2 q = (k # 100)%Q /\ nearest (Qnum q * 100) (Z.pos (Qden q)) k.
Proof.
  unfold round2.
  set (N := Qnum q * 100). set (d := Z.pos (Qden q)).
  assert (Hd : 0 < d) by (unfold d; lia).
  pose proof (Z.div_mod N d ltac:(lia)) as Hdm.
  pose proof (Z.mod_pos_bound N d Hd) as Hr.
  set (fl := N / d) in *. set (rem := N mod d) in *.
  destruct (2 * rem =? d) eqn:Etie.
  - apply Z.eqb_eq in Etie. destruct (Z.odd fl) eqn:Eodd.
    + exists (fl + 1). split; [reflexivity|].
      assert (Hev : Z.even (fl + 1) = true).
      { rewrite Z.even_add, <- Z.negb_odd, Eodd. reflexivity. }
      unfold nearest. repeat split; try nia; intros _; exact Hev.
    + exists fl. split; [reflexivity|].
      assert (Hev : Z.even fl = true).
      { rewrite <- Z.negb_odd, Eodd. reflexivity. }
      unfold nearest. repeat split; try nia; intros _; exact Hev.
  - apply Z.eqb_neq in Etie. destruct (d <? 2 * rem) eqn:Eup.
    + apply Z.ltb_lt in Eup. exists (fl + 1). split; [reflexivity|].
      unfold nearest. repeat split; try nia; intros E; exfalso; nia.
    + apply Z.ltb_ge in Eup. exists fl. split; [reflexivity|].
      unfold nearest. repeat split; try nia; intros E; exfalso; nia.
Qed.

Lemma nearest_mono N1 d1 k1 N2 d2 k2 :
  0 < d1 -> 0 < d2 -> N1 * d2 <= N2 * d1 ->
  nearest N1 d1 k1 -> nearest N2 d2 k2 -> k1 <= k2.
Proof.
  intros Hd1 Hd2 Hle (Hlo1 & Hhi1 & Htop1 & Hbot1) (Hlo2 & Hhi2 & Htop2 & Hbot2).
  destruct (Z_le_gt_dec k1 k2) as [H|H]; [exact H|]. exfalso.
  assert (Ha : (2 * k2 + 1) * (d1 * d2) <= 2 * N1 * d2).
  { assert (2 * d1 * k2 + d1 <= 2 * N1) by nia. nia. }
  assert (Hb : 2 * N2 * d1 <= (2 * k2 + 1) * (d1 * d2)) by nia.
  assert (E2 : 2 * N2 = 2 * d2 * k2 + d2) by nia.
  assert (E1 : 2 * N1 = 2 * d1 * k2 + d1) by nia.
  assert (Ek : k1 = k2 + 1) by nia.
  assert (E1' : 2 * N1 = 2 * d1 * k1 - d1) by nia.
  pose proof (Htop2 E2) as Hev2. pose proof (Hbot1 E1') as Hev1.
  rewrite Ek, Z.even_add, Hev2 in Hev1. discriminate.
Qed.

Lemma round2_mono (a b : Q) : (a <= b)%Q -> (round2 a <= round2 b)%Q.
Proof.
  intros Hab.
  destruct (round2_nearest a) as (ka & -> & Ha).
  destruct (round2_nearest b) as (kb & -> & Hb).
  unfold Qle in *. simpl.
  assert (ka <= kb); [|lia].
  apply (nearest_mono (Qnum a * 100) (QDen a) ka (Qnum b * 100) (QDen b) kb);
    [lia|lia|nia|exact Ha|exact Hb].
Qed.

(** X20.  With both thresholds other than 0, [recommend] never raises.
    What it returns names no song twice, holds at most [top_n] songs
    when the [top_n] used is not negative, and lists them in descending
    order of score. *)
Theorem recommend_sorted_bounded (r : SmartRecommender) (sc tn : option Z)
    (ex : bool) :
  duration_threshold r <> 0 -> bpm_threshold r <> 0 ->
  exists recs,
    recommend r sc tn ex = inr recs /\
    NoDup (map song_id recs) /\
    (0 <= py_or tn (top_n r) ->
     Z.of_nat (length recs) <= py_or tn (top_n r)) /\
    StronglySorted (fun a b => (score b <= score a)%Q) recs.
Proof.
  intros Hd Hb. unfold recommend, recommend_with.
  destruct (select_seeds (py_or sc (seed_count r)) (rev (play_window r)) [])
    as [|s0 seeds].
  { exists []. split; [reflexivity|]. split; [constructor|].
    split; [simpl; lia|constructor]. }
  set (active := if ex then active_ids (playlist_songs_getter r) else ∅).
  destruct (score_seeds_total r ex active (s0 :: seeds) Hd Hb)
    as (acc & -> & Hnd).
  simpl. eexists. split; [reflexivity|].
  set (top := py_slice_to (sorted_desc acc.1) (py_or tn (top_n r))).
  assert (Htop : exists k, top = take k (sorted_desc acc.1)).
  { unfold top, py_slice_to. destruct (0 <=? py_or tn (top_n r));
      eexists; reflexivity. }
  destruct Htop as [k Hk].
  split; [|split].
  - rewrite map_map. simpl. change (map (fun x : string * Q => x.1) top)
      with (top.*1).
    rewrite Hk, fmap_take.
    eapply sublist_NoDup; [|apply sublist_take].
    rewrite sorted_desc_perm. exact Hnd.
  - intros Hn. rewrite length_map. unfold top, py_slice_to.
    replace (0 <=? py_or tn (top_n r)) with true
      by (symmetry; apply Z.leb_le; exact Hn).
    rewrite length_take. lia.
  - assert (Hss : StronglySorted by_score_desc top).
    { rewrite Hk. apply StronglySorted_take, sorted_desc_sorted. }
    clear Hk. induction Hss as [|x l Hss IH Hx]; simpl; constructor.
    + exact IH.
    + apply Forall_forall. intros rec Hrec.
      apply list_elem_of_fmap in Hrec. destruct Hrec as (y & -> & Hy).
      simpl. apply round2_mono. rewrite Forall_forall in Hx.
      apply (Hx _ Hy).
Qed.

End WithLibrary.

Lemma record_plays_window_witness :
  map fst (play_window (record_plays demo
             [("s2", 2, 10, None); ("s3", 3, 10, None)]))
  = ["s1"; "s2"; "s3"] /\
  "s2" ∈ played_set (record_plays demo
                       [("s2", 2, 10, None); ("s3", 3, 10, None)]).
Proof.
  destruct (record_plays_window demo
              [("s2", 2, 10, None); ("s3", 3, 10, None)]) as [Hw Hs].
  - vm_compute. lia.
  - vm_compute. lia.
  - rewrite Hw, Hs. split; [reflexivity|].
    apply elem_of_union. right. simpl. apply elem_of_union. left.
    apply elem_of_singleton. reflexivity.
Defined.

Lemma played_song_not_recommended_witness :
  recommend (record_plays demo [("s2", 2, 10, None)]) None None true = inr [] /\
  "s2" ∉ map song_id ([] : list Recommendation).
Proof.
  assert (H : recommend (record_plays demo [("s2", 2, 10, None)])
                None None true = inr []) by (vm_compute; reflexivity).
  split; [exact H|].
  apply (played_song_not_recommended demo [("s2", 2, 10, None)] None None
           true [] ("s2", 2, 10, None)); [left|exact H].
Defined.

Lemma similarity_score_bounds_witness :
  exists sc why,
    _calculate_similarity_score demo "s1" "s2" = inr (sc, why) /\
    (0 <= sc)%Q /\ (sc <= 33 # 10)%Q.
Proof.
  apply (similarity_score_bounds demo "s1" "s2"); vm_compute; discriminate.
Defined.

Lemma zero_threshold_raises_witness :
  _calculate_similarity_score
    (mkRecommender (playlist_explorer demo) (skipped_tracker demo) [] 50 5 10
       0 10 200 (play_window demo) (played_set demo) (song_metadata demo)
       (total_listen_time demo)) "s1" "s3"
  = inl ZeroDivisionError.
Proof.
  apply (zero_threshold_raises _ "s1" "s3" (rock "Melancholic" 200 100)
           (rock "Happy" 200 100) (inject_Z 200) (inject_Z 200)).
  - vm_compute. reflexivity.
  - vm_compute. reflexivity.
  - reflexivity.
  - reflexivity.
  - reflexivity.
  - reflexivity.
  - reflexivity.
Defined.

Lemma recommend_sorted_bounded_witness :
  exists recs,
    recommend demo None (Some 1) true = inr recs /\
    NoDup (map song_id recs) /\ Z.of_nat (length recs) <= 1.
Proof.
  destruct (recommend_sorted_bounded demo None (Some 1) true)
    as (recs & Hrec & Hnd & Hlen & _).
  - vm_compute. discriminate.
  - vm_compute. discriminate.
  - exists recs. split; [exact Hrec|]. split; [exact Hnd|].
    apply Hlen. vm_compute. discriminate.
Defined.

End RecommendMore.

(** ** Properties of the constrained shuffle *)
Module ShuffleProofs.
Import Songs Shuffle.

Section WithLibrary.
Context {str_methods : StrMethods}.

(** *** [random.shuffle] permutes its argument *)

Lemma delete_insert_same {A} (l : list A) i x :
  delete i (<[i := x]> l) = delete i l.
Proof.
  revert i. induction l as [|y l IH]; intros [|i]; simpl; try reflexivity.
  f_equal. apply IH.
Qed.

Lemma insert_perm {A} (l : list A) i a x :
  l !! i = Some a -> <[i := x]> l ≡ₚ x :: delete i l.
Proof.
  intros Hi.
  assert (Hlt : (i < length l)%nat) by (eapply lookup_lt_Some; exact Hi).
  rewrite (delete_Permutation (<[i := x]> l) i x)
    by (apply list_lookup_insert_eq; exact Hlt).
  rewrite delete_insert_same. reflexivity.
Qed.

Lemma swap_perm {A} (x : list A) i j : swap x i j ≡ₚ x.
Proof.
  unfold swap.
  destruct (x !! i) as [a|] eqn:Hi; [|reflexivity].
  destruct (x !! j) as [b|] eqn:Hj; [|reflexivity].
  assert (Hlt : (i < length x)%nat) by (eapply lookup_lt_Some; exact Hi).
  assert (Hj' : <[i := b]> x !! j = Some b).
  { destruct (decide (i = j)) as [->|Hne].
    - apply list_lookup_insert_eq. exact Hlt.
    - rewrite list_lookup_insert_ne by exact Hne. exact Hj. }
  rewrite (insert_perm _ _ _ a Hj').
  pose proof (delete_Permutation _ _ _ Hj') as H1.
  pose proof (insert_perm x i a b Hi) as H2.
  assert (H3 : delete j (<[i := b]> x) ≡ₚ delete i x).
  { apply (Permutation_cons_inv (a := b)).
    etransitivity; [symmetry; exact H1|exact H2]. }
  rewrite H3. symmetry. apply delete_Permutation. exact Hi.
Qed.

Lemma shuffle_from_perm {A} i : forall g (x : list A),
  (shuffle_from i g x).1 ≡ₚ x.
Proof.
  induction i as [|i IH]; intros g x; simpl; [reflexivity|].
  rewrite IH. apply swap_perm.
Qed.

Lemma shuffle_perm {A} g (x : list A) : (shuffle g x).1 ≡ₚ x.
Proof. apply shuffle_from_perm. Qed.

Lemma attempts_perm n : forall g songs, (attempts n g songs).1 ≡ₚ songs.
Proof.
  induction n as [|n IH]; intros g songs; simpl; [reflexivity|].
  destruct (shuffle g songs) as [shuffled g'] eqn:Hs.
  destruct (_has_consecutive_artists shuffled); [apply IH|].
  simpl. change shuffled with (shuffled, g').1. rewrite <- Hs.
  apply shuffle_perm.
Qed.

Lemma attempts_all_fail n : forall g songs,
  (forall k, (k < n)%nat ->
     _has_consecutive_artists (shuffle (rng_before k g songs) songs).1 = true) ->
  (attempts n g songs).1 = songs.
Proof.
  induction n as [|n IH]; intros g songs Hall; simpl; [reflexivity|].
  pose proof (Hall O (Nat.lt_0_succ n)) as H0. simpl in H0.
  destruct (shuffle g songs) as [shuffled g'] eqn:Hs. simpl in H0.
  rewrite H0. apply IH. intros k Hk.
  specialize (Hall (S k) ltac:(lia)). simpl in Hall.
  rewrite Hs in Hall. exact Hall.
Qed.

(** *** The feasibility test counts songs per artist *)

Lemma artist_count_cons a s songs :
  artist_count a (s :: songs)
  = (if decide (lower (artist s) = a) then 1 else 0) + artist_count a songs.
Proof.
  unfold artist_count. rewrite filter_cons.
  destruct (decide (lower (artist s) = a)); simpl length; lia.
Qed.

Lemma artist_count_range a songs :
  0 <= artist_count a songs <= Z.of_nat (length songs).
Proof.
  unfold artist_count. pose proof (length_filter (fun s => lower (artist s) = a) songs).
  lia.
Qed.

Lemma count_loop_lookup songs : forall (counts : gmap string Z) a,
  default 0 (fold_left
    (fun (counts : gmap string Z) song =>
       let artist_key := lower (artist song) in
       <[artist_key := default 0 (counts !! artist_key) + 1]> counts)
    songs counts !! a)
  = default 0 (counts !! a) + artist_count a songs.
Proof.
  induction songs as [|s songs IH]; intros counts a; simpl.
  - unfold artist_count. simpl. lia.
  - rewrite IH, artist_count_cons.
    destruct (decide (lower (artist s) = a)) as [<-|Hne].
    + rewrite lookup_insert_eq. simpl. lia.
    + rewrite lookup_insert_ne by exact Hne. lia.
Qed.

Lemma artist_counts_lookup songs a :
  default 0 (artist_counts songs !! a) = artist_count a songs.
Proof.
  unfold artist_counts. rewrite count_loop_lookup, lookup_empty. simpl. lia.
Qed.

Lemma foldr_max_ge (l : list Z) x : x ∈ l -> x <= foldr Z.max 0 l.
Proof.
  induction l as [|y l IH]; intros H; [inversion H|]. simpl.
  apply elem_of_cons in H as [->|H]; [lia|]. specialize (IH H). lia.
Qed.

Lemma foldr_max_elem (l : list Z) : 0 < foldr Z.max 0 l -> foldr Z.max 0 l ∈ l.
Proof.
  induction l as [|y l IH]; simpl; [lia|]. intros H.
  destruct (Z.max_spec y (foldr Z.max 0 l)) as [[Hlt ->]|[Hle ->]].
  - right. apply IH. lia.
  - left.
Qed.

Lemma max_value_exceeds songs b :
  0 <= b ->
  (b < max_value (artist_counts songs) <-> exists a, b < artist_count a songs).
Proof.
  intros Hb. unfold max_value. split.
  - intros H.
    assert (Hin : foldr Z.max 0 (map_to_list (artist_counts songs)).*2
                  ∈ (map_to_list (artist_counts songs)).*2)
      by (apply foldr_max_elem; lia).
    apply list_elem_of_fmap in Hin as ([a v] & Hv & Hin). simpl in Hv.
    apply elem_of_map_to_list in Hin.
    exists a. rewrite <- artist_counts_lookup, Hin. simpl. lia.
  - intros [a Ha]. rewrite <- artist_counts_lookup in Ha.
    destruct (artist_counts songs !! a) as [v|] eqn:Hv; simpl in Ha; [|lia].
    eapply Z.lt_le_trans; [exact Ha|]. apply foldr_max_ge.
    apply list_elem_of_fmap. exists (a, v). split; [reflexivity|].
    apply elem_of_map_to_list. exact Hv.
Qed.

Lemma half_up_nonneg (n : nat) : 0 <= (Z.of_nat n + 1) / 2.
Proof. apply Z.div_pos; lia. Qed.

Lemma arrangement_impossible songs :
  _is_arrangement_possible songs = false <->
  exists a, (Z.of_nat (length songs) + 1) / 2 < artist_count a songs.
Proof.
  unfold _is_arrangement_possible.
  destruct (length songs <=? 1)%nat eqn:Hlen.
  - split; [discriminate|]. intros [a Ha]. exfalso.
    apply Nat.leb_le in Hlen.
    pose proof (artist_count_range a songs) as Hr.
    destruct (length songs) as [|[|n]] eqn:Hl; [| |lia].
    + change ((Z.of_nat 0 + 1) / 2) with 0 in Ha. lia.
    + change ((Z.of_nat 1 + 1) / 2) with 1 in Ha. lia.
  - rewrite Z.leb_gt. apply max_value_exceeds, half_up_nonneg.
Qed.

(** C4.  For every list of songs, every attempt cap and every sequence
    of random draws, the result is a permutation of the input.  When some
    artist (compared in lower case) has more than ceil(n/2) of the [n]
    songs, the call is exactly one [random.shuffle] of the input: same
    list, same draws consumed.  When no artist has, and every attempt up
    to the cap leaves two neighbours by one artist, the result is the
    input in its original order. *)
Theorem shuffle_with_constraints_spec (cap : Z) (g : Rng)
    (songs : list Song) :
  songs ≡ₚ (shuffle_with_constraints cap g songs).1 /\
  ((exists a, (Z.of_nat (length songs) + 1) / 2 < artist_count a songs) ->
   shuffle_with_constraints cap g songs = shuffle g songs) /\
  ((forall a, artist_count a songs <= (Z.of_nat (length songs) + 1) / 2) ->
   (forall k, (k < Z.to_nat cap)%nat ->
      _has_consecutive_artists
        (shuffle (rng_before k g songs) songs).1 = true) ->
   (shuffle_with_constraints cap g songs).1 = songs).
Proof.
  unfold shuffle_with_constraints. split; [|split].
  - destruct (length songs <=? 1)%nat; [reflexivity|].
    destruct (negb (_is_arrangement_possible songs)); symmetry;
      [apply shuffle_perm|apply attempts_perm].
  - intros Hex. pose proof (proj2 (arrangement_impossible songs) Hex) as Himp.
    destruct (length songs <=? 1)%nat eqn:Hlen.
    + unfold _is_arrangement_possible in Himp. rewrite Hlen in Himp.
      discriminate.
    + rewrite Himp. reflexivity.
  - intros Hno Hall.
    destruct (length songs <=? 1)%nat; [reflexivity|].
    destruct (_is_arrangement_possible songs) eqn:Hp; simpl.
    + apply attempts_all_fail, Hall.
    + apply arrangement_impossible in Hp as [a Ha].
      specialize (Hno a). lia.
Qed.

End WithLibrary.

(** Both branches on examples.  In [one_artist] one artist has all
    three songs, so the call is a single shuffle.  In [two_artists] an
    arrangement is possible, and the first three shuffles drawn from
    [later] each leave two neighbours by one artist, so a cap of 3 gives
    the songs back in their order. *)
Lemma shuffle_with_constraints_witness :
  ((Z.of_nat (length one_artist) + 1) / 2 < artist_count "queen" one_artist /\
   shuffle_with_constraints 1000 counting one_artist = shuffle counting one_artist /\
   map title (shuffle counting one_artist).1 = ["t3"; "t2"; "t1"]) /\
  ((forall a, artist_count a two_artists
              <= (Z.of_nat (length two_artists) + 1) / 2) /\
   (forall k, (k < Z.to_nat 3)%nat ->
      _has_consecutive_artists
        (shuffle (rng_before k later two_artists) two_artists).1 = true) /\
   (shuffle_with_constraints 3 later two_artists).1 = two_artists) /\
  two_artists ≡ₚ (shuffle_with_constraints 1000 counting two_artists).1 /\
  map title (shuffle_with_constraints 1000 counting two_artists).1
  = ["t1"; "t3"; "t2"; "t4"].
Proof.
  assert (H1 : (Z.of_nat (length one_artist) + 1) / 2
               < artist_count "queen" one_artist) by (vm_compute; reflexivity).
  assert (H2 : forall a, artist_count a two_artists
                         <= (Z.of_nat (length two_artists) + 1) / 2).
  { intros a.
    destruct (Z_le_gt_dec (artist_count a two_artists)
                ((Z.of_nat (length two_artists) + 1) / 2)) as [Hle|Hgt];
      [exact Hle|exfalso].
    assert (Himp : _is_arrangement_possible two_artists = false)
      by (apply arrangement_impossible; exists a; lia).
    vm_compute in Himp. discriminate. }
  assert (H3 : forall k, (k < Z.to_nat 3)%nat ->
            _has_consecutive_artists
              (shuffle (rng_before k later two_artists) two_artists).1 = true).
  { intros k Hk. change (Z.to_nat 3) with 3%nat in Hk.
    destruct k as [|[|[|k]]]; [vm_compute; reflexivity ..|lia]. }
  pose proof (shuffle_with_constraints_spec 1000 counting one_artist)
    as (_ & Hone & _).
  pose proof (shuffle_with_constraints_spec 3 later two_artists)
    as (_ & _ & Htwo).
  pose proof (shuffle_with_constraints_spec 1000 counting two_artists)
    as (Hperm & _ & _).
  split; [|split; [|split]].
  - split; [exact H1|]. split; [|vm_compute; reflexivity].
    apply Hone. exists "queen". exact H1.
  - split; [exact H2|]. split; [exact H3|]. apply Htwo; assumption.
  - exact Hperm.
  - vm_compute. reflexivity.
Defined.

End ShuffleProofs.
(** ** Proofs: more of the constrained shuffle *)
Module ShuffleMore.
Import Songs Shuffle ShuffleProofs.

Section WithLibrary.
Context {str_methods : StrMethods}.

Lemma attempts_result n : forall g songs,
  _has_consecutive_artists (attempts n g songs).1 = false \/
  attempts n g songs = (songs, rng_before n g songs).
Proof.
  induction n as [|n IH]; intros g songs; simpl; [right; reflexivity|].
  destruct (shuffle g songs) as [shuffled g'] eqn:Hs. simpl.
  destruct (_has_consecutive_artists shuffled) eqn:Hc.
  - apply IH.
  - left. exact Hc.
Qed.

(** X21.  When no artist (compared in lower case) has more than
    ceil(n/2) of the [n] songs, the list [shuffle_with_constraints]
    returns either has no two neighbours by one artist, or is the input
    in its original order, returned after every attempt up to the cap
    was made; with a cap of 0 or less no attempt is made and no random
    draw is used. *)
Theorem shuffle_with_constraints_valid_or_original (cap : Z) (g : Rng)
    (songs : list Song) :
  (forall a, artist_count a songs <= (Z.of_nat (length songs) + 1) / 2) ->
  (_has_consecutive_artists (shuffle_with_constraints cap g songs).1 = false \/
   ((2 <= length songs)%nat /\
    shuffle_with_constraints cap g songs
    = (songs, rng_before (Z.to_nat cap) g songs))) /\
  (cap <= 0 -> shuffle_with_constraints cap g songs = (songs, g)).
Proof.
  intros Hno. unfold shuffle_with_constraints.
  destruct (length songs <=? 1)%nat eqn:Hlen.
  - split; [|reflexivity]. left. simpl.
    apply Nat.leb_le in Hlen.
    destruct songs as [|a [|b rest]]; [reflexivity|reflexivity|simpl in Hlen; lia].
  - apply Nat.leb_gt in Hlen.
    destruct (_is_arrangement_possible songs) eqn:Hp; simpl.
    + split.
      * destruct (attempts_result (Z.to_nat cap) g songs) as [H|H];
          [left; exact H|right; split; [lia|exact H]].
      * intros Hcap. replace (Z.to_nat cap) with 0%nat by lia. reflexivity.
    + apply arrangement_impossible in Hp. destruct Hp as [a Ha].
      specialize (Hno a). lia.
Qed.

(** *** The feasibility test is sound *)

(** In a list without neighbours by one artist, an artist has at most
    every other song, and one fewer when the list starts with someone
    else. *)
Lemma alternating_count a songs :
  _has_consecutive_artists songs = false ->
  2 * artist_count a songs <= Z.of_nat (length songs) + 1 /\
  (match songs with
   | s :: _ => lower (artist s) <> a
   | [] => True
   end -> 2 * artist_count a songs <= Z.of_nat (length songs)).
Proof.
  induction songs as [|x rest IH]; intros Hc.
  - unfold artist_count. simpl. lia.
  - rewrite artist_count_cons.
    assert (Hrest : _has_consecutive_artists rest = false).
    { destruct rest as [|y rest']; [reflexivity|]. simpl in Hc.
      destruct (String.eqb (lower (artist x)) (lower (artist y)));
        [discriminate|exact Hc]. }
    destruct (IH Hrest) as [IH1 IH2].
    change (length (x :: rest)) with (S (length rest)).
    destruct (decide (lower (artist x) = a)) as [Hx|Hx].
    + assert (Hhead : match rest with
                      | s :: _ => lower (artist s) <> a
                      | [] => True
                      end).
      { destruct rest as [|y rest']; [exact I|]. simpl in Hc.
        destruct (String.eqb (lower (artist x)) (lower (artist y))) eqn:E;
          [discriminate|].
        apply String.eqb_neq in E. congruence. }
      specialize (IH2 Hhead). split; [lia|]. intros Hne. contradiction.
    + split; [lia|]. intros _. lia.
Qed.

Lemma artist_count_perm a l songs :
  l ≡ₚ songs -> artist_count a l = artist_count a songs.
Proof. intros H. unfold artist_count. rewrite H. reflexivity. Qed.

(** X22.  The feasibility test is sound: when [_is_arrangement_possible]
    answers [False], every ordering of the songs has two neighbours by
    one artist, and so has the list [shuffle_with_constraints]
    returns. *)
Theorem arrangement_test_sound (songs : list Song) :
  _is_arrangement_possible songs = false ->
  (forall l, l ≡ₚ songs -> _has_consecutive_artists l = true) /\
  (forall cap g,
     _has_consecutive_artists (shuffle_with_constraints cap g songs).1 = true).
Proof.
  intros Himp.
  assert (Hall : forall l, l ≡ₚ songs -> _has_consecutive_artists l = true).
  { intros l Hl. apply arrangement_impossible in Himp. destruct Himp as [a Ha].
    destruct (_has_consecutive_artists l) eqn:Hc; [reflexivity|]. exfalso.
    destruct (alternating_count a l Hc) as [H _].
    rewrite (artist_count_perm a l songs Hl) in H.
    rewrite (Permutation_length Hl) in H.
    pose proof (Z.mul_succ_div_gt (Z.of_nat (length songs) + 1) 2 ltac:(lia)).
    lia. }
  split; [exact Hall|]. intros cap g. apply Hall.
  unfold shuffle_with_constraints.
  destruct (length songs <=? 1)%nat; [reflexivity|].
  destruct (negb (_is_arrangement_possible songs));
    [apply shuffle_perm|apply attempts_perm].
Qed.

(** *** The artist distribution *)

Lemma distribution_loop songs : forall (counts : gmap string Z) a,
  fold_left
    (fun (distribution : gmap string Z) song =>
       let artist_key := lower (artist song) in
       <[artist_key := default 0 (distribution !! artist_key) + 1]> distribution)
    songs counts !! a
  = match counts !! a with
    | Some v => Some (v + artist_count a songs)
    | None => if artist_count a songs =? 0 then None
              else Some (artist_count a songs)
    end.
Proof.
  induction songs as [|s songs IH]; intros counts a; simpl.
  - unfold artist_count. simpl. destruct (counts !! a); [f_equal; lia|reflexivity].
  - rewrite IH, artist_count_cons.
    pose proof (artist_count_range a songs) as Hr.
    destruct (decide (lower (artist s) = a)) as [<-|Hne].
    + rewrite lookup_insert_eq.
      destruct (counts !! lower (artist s)); simpl.
      * f_equal. lia.
      * replace (1 + artist_count (lower (artist s)) songs =? 0) with false
          by (symmetry; apply Z.eqb_neq; lia).
        reflexivity.
    + rewrite lookup_insert_ne by exact Hne. reflexivity.
Qed.

(** X23.  [get_artist_distribution] has exactly the lower-cased names
    of the artists that occur as keys, each with the number of songs by
    that artist; names that differ only in case are counted together. *)
Theorem get_artist_distribution_counts (songs : list Song) (a : string) :
  get_artist_distribution songs !! a
  = (if artist_count a songs =? 0 then None else Some (artist_count a songs)) /\
  (is_Some (get_artist_distribution songs !! a) <->
   exists s, s ∈ songs /\ lower (artist s) = a).
Proof.
  assert (E : get_artist_distribution songs !! a
              = if artist_count a songs =? 0 then None
                else Some (artist_count a songs)).
  { unfold get_artist_distribution. rewrite distribution_loop, lookup_empty.
    reflexivity. }
  split; [exact E|]. rewrite E. unfold artist_count.
  destruct (filter (fun s => lower (artist s) = a) songs) as [|s l] eqn:Hf.
  - simpl. split; [intros [x Hx]; discriminate|].
    intros (s & Hs & Ha). exfalso.
    assert (Hin : s ∈ filter (fun s => lower (artist s) = a) songs).
    { apply list_elem_of_filter. split; assumption. }
    rewrite Hf in Hin. inversion Hin.
  - replace (Z.of_nat (length (s :: l)) =? 0) with false
      by (symmetry; apply Z.eqb_neq; simpl; lia).
    split; [|intros _; eexists; reflexivity].
    intros _. exists s.
    assert (Hin : s ∈ filter (fun s => lower (artist s) = a) songs).
    { rewrite Hf. left. }
    apply list_elem_of_filter in Hin. destruct Hin as [Ha Hs].
    split; assumption.
Qed.

End WithLibrary.

Lemma shuffle_with_constraints_valid_or_original_witness :
  _has_consecutive_artists two_artists = true /\
  _has_consecutive_artists
    (shuffle_with_constraints 1000 counting two_artists).1 = false /\
  shuffle_with_constraints 0 counting two_artists = (two_artists, counting).
Proof.
  assert (Hno : forall a, artist_count a two_artists
                          <= (Z.of_nat (length two_artists) + 1) / 2).
  { intros a.
    destruct (Z_le_gt_dec (artist_count a two_artists)
                ((Z.of_nat (length two_artists) + 1) / 2)) as [H|H];
      [exact H|].
    assert (E : _is_arrangement_possible two_artists = false).
    { apply arrangement_impossible. exists a. lia. }
    vm_compute in E. discriminate. }
  destruct (shuffle_with_constraints_valid_or_original 1000 counting
              two_artists Hno) as [_ H1000].
  destruct (shuffle_with_constraints_valid_or_original 0 counting
              two_artists Hno) as [_ H0].
  split; [vm_compute; reflexivity|]. split; [vm_compute; reflexivity|].
  apply H0. lia.
Defined.

Lemma arrangement_test_sound_witness :
  _is_arrangement_possible one_artist = false /\
  _has_consecutive_artists
    (shuffle_with_constraints 1000 counting one_artist).1 = true.
Proof.
  assert (H : _is_arrangement_possible one_artist = false)
    by (vm_compute; reflexivity).
  split; [exact H|].
  apply (proj2 (arrangement_test_sound one_artist H)).
Defined.

Lemma get_artist_distribution_counts_witness :
  get_artist_distribution two_artists !! "queen" = Some 2 /\
  get_artist_distribution two_artists !! "muse" = Some 2 /\
  get_artist_distribution two_artists !! "Queen" = None.
Proof.
  destruct (get_artist_distribution_counts two_artists "queen") as [E1 _].
  destruct (get_artist_distribution_counts two_artists "muse") as [E2 _].
  destruct (get_artist_distribution_counts two_artists "Queen") as [E3 _].
  rewrite E1, E2, E3. vm_compute. repeat split; reflexivity.
Defined.

End ShuffleMore.
(** ** Proofs: playlist *)
Module PlaylistProofs.
Import Songs Playlists.

(** *** The node store *)

Lemma lookup_set_next a v ns b :
  set_next a v ns !! b =
  if decide (a = b) then (fun n => mkNode (song n) (prev n) v) <$> ns !! a
  else ns !! b.
Proof.
  unfold set_next. destruct (decide (a = b)) as [->|Hne].
  - apply lookup_alter_eq.
  - apply lookup_alter_ne; exact Hne.
Qed.

Lemma lookup_set_prev a v ns b :
  set_prev a v ns !! b =
  if decide (a = b) then (fun n => mkNode (song n) v (next n)) <$> ns !! a
  else ns !! b.
Proof.
  unfold set_prev. destruct (decide (a = b)) as [->|Hne].
  - apply lookup_alter_eq.
  - apply lookup_alter_ne; exact Hne.
Qed.

Lemma lookup_store_insert (a b : addr) (n : Node) (ns : gmap addr Node) :
  <[a := n]> ns !! b = if decide (a = b) then Some n else ns !! b.
Proof.
  destruct (decide (a = b)) as [->|Hne].
  - apply lookup_insert_eq.
  - apply lookup_insert_ne; exact Hne.
Qed.

(** Simplifies lookups through the three store updates. *)
Ltac store :=
  repeat (rewrite ?lookup_set_next, ?lookup_set_prev, ?lookup_store_insert;
          repeat match goal with
                 | |- context [decide (?a = ?b)] =>
                     destruct (decide (a = b)); subst;
                     try congruence; try lia; try contradiction
                 end);
  simpl.

Section WithLibrary.
Context {str_methods : StrMethods}.

(** *** Segments *)

Lemma first_addr_app l1 l2 n :
  first_addr (l1 ++ l2) n = first_addr l1 (first_addr l2 n).
Proof. destruct l1 as [|[a s] l1]; reflexivity. Qed.

Lemma last_addr_cons p a s l : last_addr p ((a, s) :: l) = last_addr (Some a) l.
Proof.
  unfold last_addr. destruct l as [|x l]; [reflexivity|].
  rewrite last_cons. destruct (last (x :: l)) eqn:E; [reflexivity|].
  apply last_None in E. discriminate.
Qed.

Lemma last_addr_app p l1 l2 :
  last_addr p (l1 ++ l2) = last_addr (last_addr p l1) l2.
Proof.
  revert p. induction l1 as [|[a s] l1 IH]; intros p; [reflexivity|].
  rewrite <- app_comm_cons, !last_addr_cons. apply IH.
Qed.

Lemma last_addr_snoc p l a s : last_addr p (l ++ [(a, s)]) = Some a.
Proof. rewrite last_addr_app. reflexivity. Qed.

Lemma last_addr_Some h l : exists t, last_addr (Some h) l = Some t.
Proof.
  unfold last_addr. destruct (last l) as [[t st]|]; eexists; reflexivity.
Qed.

Lemma last_addr_elem p l a :
  last_addr p l = Some a -> p = Some a \/ a ∈ l.*1.
Proof.
  revert p. induction l as [|[b s] l IH]; intros p H; [left; exact H|].
  rewrite last_addr_cons in H. destruct (IH _ H) as [E|E].
  - inversion E; subst. right. simpl. apply elem_of_cons. left. reflexivity.
  - right. simpl. apply elem_of_cons. right. exact E.
Qed.

Lemma dseg_frame ns ns' p l n :
  (forall a, a ∈ l.*1 -> ns' !! a = ns !! a) ->
  dseg ns p l n -> dseg ns' p l n.
Proof.
  revert p. induction l as [|[a s] l IH]; intros p Hf H; [exact I|].
  destruct H as [Ha Hl]. split.
  - rewrite Hf; [exact Ha|]. simpl. apply elem_of_cons. left. reflexivity.
  - apply IH; [|exact Hl]. intros b Hb. apply Hf. simpl.
    apply elem_of_cons. right. exact Hb.
Qed.

Lemma dseg_app ns p l1 l2 n :
  dseg ns p (l1 ++ l2) n <->
  dseg ns p l1 (first_addr l2 n) /\ dseg ns (last_addr p l1) l2 n.
Proof.
  revert p. induction l1 as [|[a s] l1 IH]; intros p.
  - simpl. unfold last_addr. simpl. tauto.
  - rewrite <- app_comm_cons. simpl. rewrite last_addr_cons, first_addr_app.
    rewrite IH. tauto.
Qed.

Lemma dseg_dom ns p l n a :
  dseg ns p l n -> a ∈ l.*1 -> is_Some (ns !! a).
Proof.
  revert p. induction l as [|[b s] l IH]; intros p H Ha.
  - simpl in Ha. apply elem_of_nil in Ha. destruct Ha.
  - destruct H as [Hb Hl]. simpl in Ha. apply elem_of_cons in Ha.
    destruct Ha as [->|Ha]; [eexists; exact Hb|]. eapply IH; eassumption.
Qed.

(** Overwriting the [next] of the last node of a segment. *)
Lemma dseg_set_next_last ns p l n v :
  NoDup l.*1 -> dseg ns p l n ->
  dseg (match last l with Some (a, _) => set_next a v ns | None => ns end) p l v.
Proof.
  revert p. induction l as [|[a s] l IH]; intros p Hnd H; [exact I|].
  simpl in Hnd. apply NoDup_cons in Hnd. destruct Hnd as [Hnotin Hnd].
  destruct H as [Ha Hl]. destruct l as [|[b t] l].
  - simpl. split; [|exact I]. store. rewrite Ha. reflexivity.
  - rewrite last_cons. specialize (IH (Some a) Hnd Hl).
    destruct (last ((b, t) :: l)) as [[c u]|] eqn:E.
    + assert (Hc : c <> a).
      { intros ->. apply Hnotin. change (a ∈ ((b, t) :: l).*1).
        apply last_Some in E. destruct E as [l' E]. rewrite E.
        rewrite fmap_app. apply elem_of_app. right. simpl.
        apply elem_of_cons. left. reflexivity. }
      split; [|exact IH]. store. exact Ha.
    + apply last_None in E. discriminate.
Qed.

(** Overwriting the [prev] of the first node of a segment. *)
Lemma dseg_set_prev_first ns p l n v :
  NoDup l.*1 -> dseg ns p l n ->
  dseg (match l with (a, _) :: _ => set_prev a v ns | [] => ns end) v l n.
Proof.
  destruct l as [|[a s] l]; intros Hnd H; [exact I|].
  simpl in Hnd. apply NoDup_cons in Hnd. destruct Hnd as [Hnotin Hnd].
  destruct H as [Ha Hl]. split.
  - store. rewrite Ha. reflexivity.
  - eapply dseg_frame; [|exact Hl]. intros b Hb. store.
Qed.

Lemma dseg_set_next_frame ns p l n a v :
  a ∉ l.*1 -> dseg ns p l n -> dseg (set_next a v ns) p l n.
Proof.
  intros Ha. apply dseg_frame. intros b Hb. store.
Qed.

Lemma dseg_set_prev_frame ns p l n a v :
  a ∉ l.*1 -> dseg ns p l n -> dseg (set_prev a v ns) p l n.
Proof.
  intros Ha. apply dseg_frame. intros b Hb. store.
Qed.

Lemma dseg_insert_frame ns p l n a x :
  a ∉ l.*1 -> dseg ns p l n -> dseg (<[a := x]> ns) p l n.
Proof.
  intros Ha. apply dseg_frame. intros b Hb. store.
Qed.

(** *** Traversals *)

Lemma walk_dseg ns p l1 l2 n :
  dseg ns p (l1 ++ l2) n ->
  walk ns (first_addr (l1 ++ l2) n) (length l1) = inr (first_addr l2 n).
Proof.
  revert p. induction l1 as [|[a s] l1 IH]; intros p H; [reflexivity|].
  destruct H as [Ha Hl]. simpl. rewrite Ha. simpl. eapply IH. exact Hl.
Qed.

Lemma collect_dseg fuel ns p l :
  dseg ns p l None -> (length l <= fuel)%nat ->
  collect fuel ns (first_addr l None) = inr l.*2.
Proof.
  revert p fuel. induction l as [|[a s] l IH]; intros p fuel H Hf.
  - destruct fuel; reflexivity.
  - destruct H as [Ha Hl]. destruct fuel as [|fuel]; [simpl in Hf; lia|].
    simpl. rewrite Ha. simpl. rewrite (IH (Some a)); [reflexivity|exact Hl|].
    simpl in Hf. lia.
Qed.

Lemma dseg_size ns p l n :
  dseg ns p l n -> NoDup l.*1 -> (length l <= base.size ns)%nat.
Proof.
  intros H Hnd.
  rewrite <- (length_fmap fst l).
  rewrite <- (size_list_to_set (C := gset addr) l.*1 Hnd).
  assert (E : base.size (dom (D := gset addr) ns) = base.size ns)
    by apply size_dom.
  rewrite <- E.
  apply subseteq_size. intros a Ha. apply elem_of_list_to_set in Ha.
  apply elem_of_dom. eapply dseg_dom; eassumption.
Qed.

(** *** Well-formed lists *)

Lemma well_formed_get_all p l :
  well_formed (playlist p) l -> get_all_songs p = inr l.*2.
Proof.
  intros (Hd & Hh & _ & _ & Hnd & _). unfold get_all_songs. rewrite Hh.
  eapply collect_dseg; [exact Hd|]. eapply dseg_size; eassumption.
Qed.

Lemma well_formed_empty : well_formed empty_list [].
Proof.
  unfold well_formed. simpl. split; [exact I|].
  split; [reflexivity|]. split; [reflexivity|]. split; [reflexivity|].
  split; constructor.
Qed.

Lemma fresh_notin (k : addr) (l : list addr) :
  Forall (fun a => (a < k)%nat) l -> k ∉ l.
Proof.
  intros H Hin. rewrite Forall_forall in H. specialize (H _ Hin). lia.
Qed.

Lemma Forall_below_S (k : addr) (l : list addr) :
  Forall (fun a => (a < k)%nat) l -> Forall (fun a => (a < S k)%nat) l.
Proof.
  intros H. eapply Forall_impl; [exact H|]. intros a Ha. simpl in Ha. lia.
Qed.

(** Splits the facts about the addresses of [l1 ++ (c, s) :: l2]. *)
Lemma NoDup_middle (l1 l2 : list (addr * Song)) c s :
  NoDup (l1 ++ (c, s) :: l2).*1 ->
  NoDup l1.*1 /\ NoDup l2.*1 /\ (c ∉ l1.*1) /\ (c ∉ l2.*1) /\
  (forall a, a ∈ l1.*1 -> a ∉ l2.*1).
Proof.
  rewrite fmap_app, fmap_cons. simpl. intros H.
  apply NoDup_app in H. destruct H as (H1 & H12 & H2).
  apply NoDup_cons in H2. destruct H2 as [Hc H2].
  split; [exact H1|]. split; [exact H2|]. split.
  - intros Hin. apply (H12 _ Hin). apply elem_of_cons. left. reflexivity.
  - split; [exact Hc|]. intros a Ha Hin. apply (H12 _ Ha).
    apply elem_of_cons. right. exact Hin.
Qed.

Lemma last_elem (l : list (addr * Song)) a s :
  last l = Some (a, s) -> a ∈ l.*1.
Proof.
  intros E. apply last_Some in E. destruct E as [l' ->].
  rewrite fmap_app. apply elem_of_app. right. apply elem_of_cons. left.
  reflexivity.
Qed.

Lemma dll_add_song_spec d l s :
  well_formed d l ->
  exists d', dll_add_song d s = inr d' /\
             well_formed d' (l ++ [(fresh d, s)]) /\ fresh d' = S (fresh d).
Proof.
  intros (Hd & Hh & Ht & Hs & Hnd & Hf).
  pose proof (fresh_notin _ _ Hf) as Hfresh.
  unfold dll_add_song.
  destruct l as [|[t st] l0 _] using rev_ind.
  - simpl in Hh. rewrite Hh. eexists. split; [reflexivity|].
    split; [|reflexivity]. unfold well_formed. simpl.
    split; [split; [store; reflexivity|exact I]|].
    split; [reflexivity|]. split; [reflexivity|].
    split; [rewrite Hs; reflexivity|].
    split; [apply NoDup_singleton|]. repeat constructor.
  - rewrite first_addr_app in Hh. rewrite last_addr_snoc in Ht.
    assert (Hhead : exists h, head d = Some h).
    { rewrite Hh. destruct l0 as [|[h hs] l0]; eexists; reflexivity. }
    destruct Hhead as [h Hhead]. rewrite Hhead, Ht.
    eexists. split; [reflexivity|]. split; [|reflexivity].
    apply dseg_app in Hd. destruct Hd as [Hd0 [Hnt _]]. simpl in Hd0.
    rewrite fmap_app in Hnd, Hf, Hfresh. simpl in Hnd, Hf, Hfresh.
    apply NoDup_app in Hnd. destruct Hnd as (Hnd0 & Hnd01 & _).
    apply Forall_app in Hf. destruct Hf as [Hf0 Hft].
    assert (Hta : t <> fresh d).
    { inversion Hft; subst. lia. }
    assert (Ht0 : t ∉ l0.*1).
    { intros Hin. apply (Hnd01 _ Hin). apply elem_of_cons. left. reflexivity. }
    assert (Ha0 : fresh d ∉ l0.*1).
    { intros Hin. apply Hfresh. apply elem_of_app. left. exact Hin. }
    unfold well_formed. simpl.
    split.
    { rewrite <- app_assoc. apply dseg_app. split.
      - simpl. apply dseg_set_prev_frame; [exact Ha0|].
        apply dseg_set_next_frame; [exact Ht0|].
        apply dseg_insert_frame; [exact Ha0|]. exact Hd0.
      - simpl. split; [|split; [|exact I]].
        + store. rewrite Hnt. reflexivity.
        + store. reflexivity. }
    split; [rewrite !first_addr_app; simpl; simpl in Hh; rewrite <- Hhead; exact Hh|].
    split; [rewrite last_addr_snoc; reflexivity|].
    split; [rewrite Hs, !length_app; simpl; lia|].
    split.
    { rewrite !fmap_app. simpl. apply NoDup_app. split.
      - apply NoDup_app. split; [exact Hnd0|]. split; [exact Hnd01|].
        apply NoDup_singleton.
      - split; [|apply NoDup_singleton].
        intros a Ha Hin. apply list_elem_of_singleton in Hin. subst a.
        apply Hfresh. exact Ha. }
    rewrite !fmap_app. simpl. apply Forall_app. split.
    + apply Forall_app. split; apply Forall_below_S; assumption.
    + repeat constructor.
Qed.

(** The store after a node is unlinked from its two neighbours. *)
Lemma dseg_unlink ns l1 c s l2 :
  NoDup (l1 ++ (c, s) :: l2).*1 ->
  dseg ns None (l1 ++ (c, s) :: l2) None ->
  dseg (match l2 with
        | (q, _) :: _ =>
            set_prev q (last_addr None l1)
              (match last l1 with
               | Some (a, _) => set_next a (first_addr l2 None) ns
               | None => ns
               end)
        | [] =>
            match last l1 with
            | Some (a, _) => set_next a (first_addr l2 None) ns
            | None => ns
            end
        end) None (l1 ++ l2) None.
Proof.
  intros Hnd H. apply NoDup_middle in Hnd.
  destruct Hnd as (Hnd1 & Hnd2 & Hc1 & Hc2 & H12).
  apply dseg_app in H. destruct H as [H1 [Hc H2]].
  pose proof (dseg_set_next_last _ _ _ _ (first_addr l2 None) Hnd1 H1) as H1'.
  assert (H2' : dseg (match last l1 with
                      | Some (a, _) => set_next a (first_addr l2 None) ns
                      | None => ns
                      end) (Some c) l2 None).
  { destruct (last l1) as [[a sa]|] eqn:E; [|exact H2].
    apply dseg_set_next_frame; [|exact H2]. apply H12.
    eapply last_elem. exact E. }
  apply dseg_app. split.
  - destruct l2 as [|[q sq] l2]; [exact H1'|].
    apply dseg_set_prev_frame; [|exact H1'].
    intros Hin. apply (H12 _ Hin). simpl. apply elem_of_cons. left. reflexivity.
  - pose proof (dseg_set_prev_first _ _ _ _ (last_addr None l1) Hnd2 H2') as H3.
    destruct l2 as [|[q sq] l2]; exact H3.
Qed.

Lemma unlink_spec d l1 c s l2 :
  well_formed d (l1 ++ (c, s) :: l2) ->
  exists ns,
    unlink d (Some c)
    = inr (ns, first_addr (l1 ++ l2) None, last_addr None (l1 ++ l2)) /\
    dseg ns None (l1 ++ l2) None.
Proof.
  intros (Hd & Hh & Ht & Hs & Hnd & Hf).
  pose proof (dseg_unlink _ _ _ _ _ Hnd Hd) as Hu.
  pose proof Hd as Hd'. apply dseg_app in Hd'. destruct Hd' as [H1 [Hc H2]].
  apply NoDup_middle in Hnd. destruct Hnd as (Hnd1 & Hnd2 & Hc1 & Hc2 & H12).
  rewrite first_addr_app in Hh. rewrite last_addr_app, last_addr_cons in Ht.
  simpl in Hh. unfold unlink, ret. simpl. rewrite Hc. simpl.
  unfold last_addr at 1. unfold last_addr in Hc at 1. unfold last_addr in Hu.
  destruct (last l1) as [[a sa]|] eqn:E.
  - assert (Hac : a <> c).
    { intros ->. apply Hc1. eapply last_elem. exact E. }
    simpl. rewrite lookup_set_next. destruct (decide (a = c)); [contradiction|].
    rewrite Hc. simpl.
    assert (Hl1 : first_addr l1 (Some c) = first_addr (l1 ++ l2) None).
    { rewrite first_addr_app. destruct l1 as [|[x sx] l1]; [discriminate|].
      reflexivity. }
    destruct l2 as [|[q sq] l2]; simpl.
    + eexists. split; [|exact Hu]. rewrite Hh, Hl1, last_addr_app.
      unfold last_addr. rewrite E. reflexivity.
    + eexists. split; [|exact Hu]. rewrite Hh, Hl1, Ht, last_addr_app.
      rewrite !last_addr_cons. reflexivity.
  - apply last_None in E. subst l1. simpl. rewrite Hc. simpl.
    destruct l2 as [|[q sq] l2]; simpl.
    + eexists. split; [|exact Hu]. reflexivity.
    + eexists. split; [|exact Hu]. rewrite Ht. simpl.
      rewrite !last_addr_cons. reflexivity.
Qed.

Lemma length_in_range (l1 l2 : list (addr * Song)) x sz :
  sz = Z.of_nat (length (l1 ++ x :: l2)) ->
  (Z.of_nat (length l1) <? 0) || (sz <=? Z.of_nat (length l1)) = false.
Proof.
  intros ->. rewrite length_app. simpl. apply orb_false_iff. split.
  - apply Z.ltb_ge. lia.
  - apply Z.leb_gt. lia.
Qed.

Lemma dll_delete_song_spec d l1 c s l2 :
  well_formed d (l1 ++ (c, s) :: l2) ->
  exists d', dll_delete_song d (Z.of_nat (length l1)) = inr d' /\
             well_formed d' (l1 ++ l2) /\ fresh d' = fresh d.
Proof.
  intros Hwf. destruct (unlink_spec _ _ _ _ _ Hwf) as (ns & Hu & Hseg).
  destruct Hwf as (Hd & Hh & Ht & Hs & Hnd & Hf).
  unfold dll_delete_song. rewrite (length_in_range _ _ _ _ Hs).
  rewrite Nat2Z.id, Hh, (walk_dseg _ _ _ _ _ Hd). simpl.
  rewrite Hu. simpl. eexists. split; [reflexivity|]. split; [|reflexivity].
  unfold well_formed. simpl. split; [exact Hseg|].
  split; [reflexivity|]. split; [reflexivity|].
  split; [rewrite Hs, !length_app; simpl; lia|].
  apply NoDup_middle in Hnd. destruct Hnd as (Hnd1 & Hnd2 & Hc1 & Hc2 & H12).
  rewrite fmap_app in Hf. rewrite fmap_app. split.
  - apply NoDup_app. split; [exact Hnd1|]. split; [exact H12|exact Hnd2].
  - apply Forall_app in Hf. destruct Hf as [Hf1 Hf2].
    apply Forall_app. split; [exact Hf1|]. inversion Hf2; assumption.
Qed.

Lemma NoDup_fresh_middle (l1 l2 : list (addr * Song)) (a : addr) s :
  NoDup (l1 ++ l2).*1 -> a ∉ (l1 ++ l2).*1 ->
  NoDup (l1 ++ (a, s) :: l2).*1.
Proof.
  rewrite !fmap_app, fmap_cons. simpl. intros Hnd Ha.
  apply NoDup_app in Hnd. destruct Hnd as (H1 & H12 & H2).
  apply not_elem_of_app in Ha. destruct Ha as [Ha1 Ha2].
  apply NoDup_app. split; [exact H1|]. split.
  - intros b Hb Hin. apply elem_of_cons in Hin. destruct Hin as [->|Hin].
    + contradiction.
    + apply (H12 _ Hb Hin).
  - apply NoDup_cons. split; assumption.
Qed.

Lemma Forall_fresh_middle (l1 l2 : list (addr * Song)) (a : addr) s :
  Forall (fun b => (b < a)%nat) (l1 ++ l2).*1 ->
  Forall (fun b => (b < S a)%nat) (l1 ++ (a, s) :: l2).*1.
Proof.
  rewrite !fmap_app, fmap_cons. simpl. intros H.
  apply Forall_app in H. destruct H as [H1 H2].
  apply Forall_app. split; [apply Forall_below_S; exact H1|].
  constructor; [lia|apply Forall_below_S; exact H2].
Qed.

Lemma insert_song_at_index_spec p s l1 l2 :
  well_formed (playlist p) (l1 ++ l2) ->
  exists p',
    _insert_song_at_index p s (Z.of_nat (length l1)) = inr p' /\
    well_formed (playlist p') (l1 ++ (fresh (playlist p), s) :: l2) /\
    action_logger p' = action_logger p.
Proof.
  intros Hwf. unfold _insert_song_at_index. simpl.
  set (d := playlist p) in *. set (a := fresh d).
  destruct l1 as [|[x sx] l1' _] using rev_ind.
  - (* insert at the head *)
    destruct Hwf as (Hd & Hh & Ht & Hs & Hnd & Hf). simpl in *.
    pose proof (fresh_notin _ _ Hf) as Ha. fold a in Ha.
    eexists. split; [reflexivity|]. split; [|reflexivity].
    unfold well_formed. simpl.
    assert (Hseg : dseg (set_next a (head d)
                           (<[a := mkNode s None None]> (nodes d)))
                     None l2 None).
    { apply dseg_set_next_frame; [exact Ha|].
      apply dseg_insert_frame; [exact Ha|]. exact Hd. }
    split.
    { rewrite Hh. destruct l2 as [|[h sh] l2]; simpl.
      - split; [store; reflexivity|exact I].
      - assert (Hha : h <> a).
        { intros ->. apply Ha. simpl. apply elem_of_cons. left. reflexivity. }
        split; [store; reflexivity|].
        rewrite Hh in Hseg.
        exact (dseg_set_prev_first _ _ _ _ (Some a) Hnd Hseg). }
    split; [reflexivity|].
    split.
    { rewrite Ht, last_addr_cons. destruct l2 as [|[h sh] l2]; [reflexivity|].
      rewrite !last_addr_cons. destruct (last_addr_Some h l2) as [t ->].
      reflexivity. }
    split; [rewrite Hs; lia|].
    split; [apply NoDup_cons; split; assumption|].
    constructor; [lia|apply Forall_below_S; exact Hf].
  - assert (Hnz : (Z.of_nat (length (l1' ++ [(x, sx)])) =? 0) = false).
    { apply Z.eqb_neq. rewrite length_app. simpl. lia. }
    rewrite Hnz. destruct l2 as [|[c sc] l2].
    + (* append at the tail *)
      rewrite app_nil_r in Hwf.
      destruct (dll_add_song_spec _ _ s Hwf) as (d' & Hadd & Hwf' & _).
      destruct Hwf as (_ & _ & _ & Hs & _).
      assert (Hle : (size d <=? Z.of_nat (length (l1' ++ [(x, sx)]))) = true).
      { apply Z.leb_le. rewrite Hs. lia. }
      rewrite Hle, Hadd. simpl. eexists. split; [reflexivity|].
      split; [exact Hwf'|reflexivity].
    + (* insert in the middle *)
      destruct Hwf as (Hd & Hh & Ht & Hs & Hnd & Hf).
      pose proof (fresh_notin _ _ Hf) as Ha. fold a in Ha.
      assert (Hgt : (size d <=? Z.of_nat (length (l1' ++ [(x, sx)]))) = false).
      { apply Z.leb_gt. rewrite Hs, !length_app. simpl. lia. }
      rewrite Hgt, Nat2Z.id, Hh, (walk_dseg _ _ _ _ _ Hd). simpl.
      pose proof Hd as Hd'. apply dseg_app in Hd'.
      destruct Hd' as [H1 [Hc H2]]. rewrite last_addr_snoc in Hc.
      rewrite Hc. simpl.
      eexists. split; [reflexivity|]. split; [|reflexivity].
      pose proof (NoDup_middle _ _ _ _ Hnd) as (Hnd1 & Hnd2 & Hc1 & Hc2 & H12).
      assert (Ha1 : a ∉ (l1' ++ [(x, sx)]).*1).
      { intros Hin. apply Ha. rewrite fmap_app. apply elem_of_app. left.
        exact Hin. }
      assert (Hac : a <> c).
      { intros E. apply Ha. rewrite fmap_app. apply elem_of_app. right.
        simpl. apply elem_of_cons. left. exact E. }
      assert (Ha2 : a ∉ l2.*1).
      { intros Hin. apply Ha. rewrite fmap_app. apply elem_of_app. right.
        simpl. apply elem_of_cons. right. exact Hin. }
      assert (Hxa : x <> a).
      { intros ->. apply Ha1. rewrite fmap_app. apply elem_of_app. right.
        apply elem_of_cons. left. reflexivity. }
      assert (Hxc : x <> c).
      { intros ->. apply Hc1. rewrite fmap_app. apply elem_of_app. right.
        apply elem_of_cons. left. reflexivity. }
      unfold well_formed. simpl. split.
      { apply dseg_app. split.
        - simpl. apply dseg_set_prev_frame; [exact Hc1|].
          pose proof (dseg_set_next_last _ _ _ _ (Some a) Hnd1
                        (dseg_set_next_frame _ _ _ _ a (Some c) Ha1
                           (dseg_set_prev_frame _ _ _ _ a (Some x) Ha1
                              (dseg_insert_frame _ _ _ _ a
                                 (mkNode s None None) Ha1 H1)))) as H1'.
          rewrite last_snoc in H1'. exact H1'.
        - rewrite last_addr_snoc. simpl. split; [store; reflexivity|].
          split; [store; rewrite Hc; reflexivity|].
          apply dseg_set_prev_frame; [exact Hc2|].
          apply dseg_set_next_frame.
          { intros Hin. apply (H12 x); [|exact Hin]. rewrite fmap_app.
            apply elem_of_app. right. apply elem_of_cons. left. reflexivity. }
          apply dseg_set_next_frame; [exact Ha2|].
          apply dseg_set_prev_frame; [exact Ha2|].
          apply dseg_insert_frame; [exact Ha2|]. exact H2. }
      split; [rewrite !first_addr_app; reflexivity|].
      split; [rewrite Ht, !last_addr_app, !last_addr_cons; reflexivity|].
      split; [rewrite Hs, !length_app; simpl; lia|].
      split; [apply NoDup_fresh_middle; assumption|].
      apply Forall_fresh_middle. exact Hf.
Qed.

(** *** Deleting and undoing *)

Lemma deque_append_snoc {A} (m : nat) (d : list A) (x : A) :
  (1 <= m)%nat -> exists h, deque_append m d x = h ++ [x].
Proof.
  destruct m as [|m]; [lia|]. intros _. unfold deque_append.
  destruct (length d <? S m)%nat; eexists; reflexivity.
Qed.

Lemma pop_logged lg kind u :
  (1 <= _max_history lg)%nat ->
  exists h,
    pop_action (log_action lg kind u)
    = Some (mkAction kind u, mkLogger h (_max_history lg)).
Proof.
  intros Hm. unfold pop_action, log_action. simpl.
  destruct (deque_append_snoc _ (_action_history lg) (mkAction kind u) Hm)
    as [h ->].
  rewrite reverse_snoc. eexists. reflexivity.
Qed.

Lemma delete_song_spec p l1 c s l2 :
  well_formed (playlist p) (l1 ++ (c, s) :: l2) ->
  exists p1,
    delete_song p (Z.of_nat (length l1)) = inr p1 /\
    well_formed (playlist p1) (l1 ++ l2) /\
    fresh (playlist p1) = fresh (playlist p) /\
    action_logger p1
    = log_action (action_logger p) "delete"
        (UndoDelete s (song_id s) (Z.of_nat (length l1))).
Proof.
  intros Hwf.
  destruct (dll_delete_song_spec _ _ _ _ _ Hwf) as (d' & Hdel & Hwf' & Hfr).
  destruct Hwf as (Hd & Hh & Ht & Hs & Hnd & Hf).
  unfold delete_song. rewrite (length_in_range _ _ _ _ Hs).
  rewrite Nat2Z.id, Hh, (walk_dseg _ _ _ _ _ Hd). simpl.
  apply dseg_app in Hd. destruct Hd as [_ [Hc _]]. rewrite Hc. simpl.
  destruct (song_id s) as [i|]; simpl; rewrite Hdel; simpl;
    (eexists; split; [reflexivity|]; split; [exact Hwf'|];
     split; [exact Hfr|reflexivity]).
Qed.

Lemma split_at (l : list (addr * Song)) (index : Z) :
  0 <= index < Z.of_nat (length l) ->
  exists l1 c s l2,
    l = l1 ++ (c, s) :: l2 /\ index = Z.of_nat (length l1).
Proof.
  intros Hi.
  destruct (lookup_lt_is_Some_2 l (Z.to_nat index)) as [[c s] Hl]; [lia|].
  exists (take (Z.to_nat index) l), c, s, (drop (S (Z.to_nat index)) l).
  split; [symmetry; apply take_drop_middle; exact Hl|].
  rewrite length_take. lia.
Qed.

(** What [delete_song] and then [undo_last_n_actions(1)] compute on a
    well-formed playlist that logs: the song at [index] is replaced by
    the one [undo_delete] builds. *)
Lemma delete_then_undo_run (p : Playlist) (l : list (addr * Song))
    (index : Z) :
  well_formed (playlist p) l ->
  0 <= index < Z.of_nat (length l) ->
  (1 <= _max_history (action_logger p))%nat ->
  exists p1 p2 l',
    delete_song p index = inr p1 /\
    get_all_songs p1 = inr (delete (Z.to_nat index) l.*2) /\
    undo_last_n_actions p1 1 = inr (p2, ["delete"]) /\
    well_formed (playlist p2) l' /\
    l'.*2 = alter restored (Z.to_nat index) l.*2.
Proof.
  intros Hwf Hi Hm.
  destruct (split_at l index Hi) as (l1 & c & s & l2 & -> & ->).
  destruct (delete_song_spec _ _ _ _ _ Hwf) as (p1 & Hdel & Hwf1 & Hfr & Hlog).
  destruct (pop_logged (action_logger p) "delete"
              (UndoDelete s (song_id s) (Z.of_nat (length l1))) Hm)
    as [h Hpop].
  rewrite <- Hlog in Hpop.
  destruct (insert_song_at_index_spec
              (with_logger p1 (mkLogger h (_max_history (action_logger p))))
              (restored s) l1 l2 Hwf1) as (p2 & Hins & Hwf2 & _).
  exists p1, p2, (l1 ++ (fresh (playlist p1), restored s) :: l2).
  split; [exact Hdel|].
  rewrite Nat2Z.id, !fmap_app, !fmap_cons. simpl.
  split.
  { rewrite (well_formed_get_all _ _ Hwf1), fmap_app.
    rewrite <- (length_fmap snd l1), delete_middle. reflexivity. }
  split.
  { unfold undo_last_n_actions. simpl.
    assert (Hlen : Z.min 1 (Z.of_nat (length (_action_history (action_logger p1))))
                   = 1).
    { unfold pop_action in Hpop.
      destruct (_action_history (action_logger p1)) as [|a0 h0];
        [discriminate|]. simpl. lia. }
    rewrite Hlen. simpl. rewrite Hpop. simpl.
    unfold restored in Hins. rewrite Hins. reflexivity. }
  split; [exact Hwf2|].
  rewrite <- (length_fmap snd l1).
  replace (length l1.*2) with (length l1.*2 + 0)%nat by lia.
  rewrite alter_app_r. reflexivity.
Qed.

Lemma same_song_restored (songs : list Song) : forall i,
  Forall2 same_song songs (alter restored i songs).
Proof.
  induction songs as [|s rest IH]; intros i; [constructor|].
  destruct i as [|i]; simpl.
  - constructor; [repeat split|]. clear IH.
    induction rest as [|t rest IH]; constructor; [repeat split|exact IH].
  - constructor; [repeat split|apply IH].
Qed.

(** What delete and undo do bring back.  On a well-formed playlist
    (head, tail and size agree with the nodes) whose action log keeps at
    least one action, [delete_song] at a valid index followed by
    [undo_last_n_actions(1)] raises nothing, reports ["delete"], and
    leaves the size as before: every other position holds the very same
    song, and the position [index] holds a song with the title, artist,
    duration, song_id and genre of the deleted one. *)
Lemma delete_then_undo_restores (p : Playlist) (l : list (addr * Song))
    (index : Z) :
  well_formed (playlist p) l ->
  0 <= index < Z.of_nat (length l) ->
  (1 <= _max_history (action_logger p))%nat ->
  exists p1 p2 after,
    get_all_songs p = inr l.*2 /\
    delete_song p index = inr p1 /\
    get_all_songs p1 = inr (delete (Z.to_nat index) l.*2) /\
    undo_last_n_actions p1 1 = inr (p2, ["delete"]) /\
    get_all_songs p2 = inr after /\
    size (playlist p2) = size (playlist p) /\
    Forall2 same_song l.*2 after /\
    (forall i, i <> Z.to_nat index -> after !! i = l.*2 !! i).
Proof.
  intros Hwf Hi Hm.
  destruct (delete_then_undo_run p l index Hwf Hi Hm)
    as (p1 & p2 & l' & Hdel & Hget1 & Hundo & Hwf2 & Hl').
  exists p1, p2, l'.*2.
  split; [apply well_formed_get_all; exact Hwf|].
  split; [exact Hdel|]. split; [exact Hget1|]. split; [exact Hundo|].
  split; [apply well_formed_get_all; exact Hwf2|].
  split.
  { destruct Hwf as (_ & _ & _ & Hs & _). destruct Hwf2 as (_ & _ & _ & Hs2 & _).
    rewrite Hs, Hs2. rewrite <- (length_fmap snd l'), Hl', length_alter.
    rewrite length_fmap. reflexivity. }
  rewrite Hl'. split; [apply same_song_restored|].
  intros i Hne. apply list_lookup_alter_ne. intros E. apply Hne. symmetry.
  exact E.
Qed.

(** *** Rejected additions *)

(** [lookup_add_song] answers with an id only under policy 'first', for
    a key registered to an id, and then changes nothing. *)
Lemma lookup_add_song_rejects m s existing m' :
  lookup_add_song m s = (Some existing, m') -> m' = m.
Proof.
  unfold lookup_add_song, active_cleaner, cleanup_on_add.
  destruct m as [ids titles enable cleaner]. simpl.
  destruct enable; [|intros H; inversion H].
  destruct cleaner as [dc|]; [|intros H; inversion H].
  destruct (key_to_song_id dc !! _make_key (title s) (artist s)) as [[e|]|];
    destruct (String.eqb (keep dc) "first"); simpl; intros H;
    inversion H; reflexivity.
Qed.

Lemma with_lookup_same p : with_lookup p (lookup_map p) = p.
Proof. destruct p; reflexivity. Qed.


(** *** Merging *)

Lemma is_blocked_empty art : is_blocked ∅ art = false.
Proof.
  unfold is_blocked. apply bool_decide_eq_false_2. apply not_elem_of_empty.
Qed.

(** One [add_existing_song] on a playlist that blocks no artist and
    dedupes under policy 'first' with registry [reg]. *)
Lemma add_existing_song_spec m l reg s :
  well_formed (playlist m) l ->
  artist_blocklist m = ∅ ->
  enable_dedupe (lookup_map m) = true ->
  duplicate_cleaner (lookup_map m) = Some (mkCleaner "first" reg) ->
  exists m' r l' reg',
    add_existing_song m s = inr (m', r) /\
    well_formed (playlist m') (l ++ l') /\
    artist_blocklist m' = ∅ /\
    enable_dedupe (lookup_map m') = true /\
    duplicate_cleaner (lookup_map m') = Some (mkCleaner "first" reg') /\
    forall rest, l'.*2 ++ accepted reg' rest = accepted reg (s :: rest).
Proof.
  intros Hwf Hb He Hc. unfold add_existing_song. rewrite Hb, is_blocked_empty.
  unfold lookup_add_song, active_cleaner, cleanup_on_add. rewrite He, Hc.
  simpl.
  destruct (reg !! _make_key (title s) (artist s)) as [[e|]|] eqn:Hk; simpl.
  - eexists _, (Some e), [], reg.
    split; [reflexivity|]. rewrite app_nil_r. simpl.
    split; [exact Hwf|]. split; [exact Hb|]. split; [reflexivity|].
    split; [reflexivity|]. intros rest. simpl. rewrite ?Hk. reflexivity.
  - destruct (dll_add_song_spec _ _ s Hwf) as (d' & Hadd & Hwf' & _).
    rewrite Hadd. simpl. eexists _, None, [(_, s)], _.
    split; [reflexivity|]. simpl.
    split; [exact Hwf'|]. split; [exact Hb|]. split; [reflexivity|].
    split; [reflexivity|]. intros rest. simpl. rewrite ?Hk. reflexivity.
  - destruct (dll_add_song_spec _ _ s Hwf) as (d' & Hadd & Hwf' & _).
    rewrite Hadd. simpl. eexists _, None, [(_, s)], _.
    split; [reflexivity|]. simpl.
    split; [exact Hwf'|]. split; [exact Hb|]. split; [reflexivity|].
    split; [unfold register; simpl; rewrite insert_insert_eq; reflexivity|].
    intros rest. simpl. rewrite ?Hk. reflexivity.
Qed.

Lemma for_each_accepted songs : forall m l reg,
  well_formed (playlist m) l ->
  artist_blocklist m = ∅ ->
  enable_dedupe (lookup_map m) = true ->
  duplicate_cleaner (lookup_map m) = Some (mkCleaner "first" reg) ->
  exists m' l',
    for_each (fun m s => do r <- add_existing_song m s; ret r.1) songs m
    = inr m' /\
    well_formed (playlist m') (l ++ l') /\
    l'.*2 = accepted reg songs.
Proof.
  induction songs as [|s rest IH]; intros m l reg Hwf Hb He Hc.
  - exists m, []. rewrite app_nil_r. split; [reflexivity|].
    split; [exact Hwf|reflexivity].
  - destruct (add_existing_song_spec m l reg s Hwf Hb He Hc)
      as (m1 & r & l1 & reg1 & Hadd & Hwf1 & Hb1 & He1 & Hc1 & Hacc).
    destruct (IH m1 (l ++ l1) reg1 Hwf1 Hb1 He1 Hc1)
      as (m' & l' & Hrun & Hwf' & Hl').
    exists m', (l1 ++ l'). simpl for_each. rewrite Hadd. simpl.
    split; [exact Hrun|]. rewrite app_assoc. split; [exact Hwf'|].
    rewrite fmap_app, Hl'. apply Hacc.
Qed.

Lemma merge_loop_for_each songs1 : forall merged songs2,
  merge_loop merged songs1 songs2
  = for_each (fun m s => do r <- add_existing_song m s; ret r.1)
      (interleave songs1 songs2) merged.
Proof.
  induction songs1 as [|x rest1 IH]; intros merged songs2.
  - destruct songs2; reflexivity.
  - destruct songs2 as [|y rest2]; [reflexivity|].
    simpl. destruct (add_existing_song merged x) as [e|[m1 r1]]; simpl;
      [reflexivity|].
    destruct (add_existing_song m1 y) as [e|[m2 r2]]; simpl; [reflexivity|].
    apply IH.
Qed.

Lemma interleave_perm a : forall b, interleave a b ≡ₚ a ++ b.
Proof.
  induction a as [|x a IH]; intros b.
  - destruct b; reflexivity.
  - destruct b as [|y b]; [rewrite app_nil_r; reflexivity|].
    simpl. constructor. rewrite (IH b).
    apply Permutation_middle.
Qed.

(** Nothing is dropped when no key is registered and the keys
    differ. *)
Lemma accepted_all songs : forall reg,
  NoDup (song_key <$> songs) ->
  (forall s, s ∈ songs -> reg !! song_key s = None) ->
  accepted reg songs = songs.
Proof.
  induction songs as [|s rest IH]; intros reg Hnd Hreg; [reflexivity|].
  simpl in Hnd. apply NoDup_cons in Hnd. destruct Hnd as [Hs Hnd].
  simpl. fold (song_key s). rewrite (Hreg s); [|apply elem_of_cons; left; reflexivity].
  f_equal. apply IH; [exact Hnd|]. intros t Ht.
  rewrite lookup_insert_ne.
  - apply Hreg. apply elem_of_cons. right. exact Ht.
  - intros E. apply Hs. rewrite E. apply list_elem_of_fmap_2. exact Ht.
Qed.

(** [add_existing_song] leaves the blocklist, the action log and the
    dedupe settings of the playlist alone. *)
Lemma add_existing_song_settings m s m' r :
  add_existing_song m s = inr (m', r) -> same_settings m m'.
Proof.
  unfold add_existing_song, same_settings.
  destruct (is_blocked (artist_blocklist m) (artist s)).
  { intros [= <- <-]. repeat split. }
  unfold lookup_add_song, active_cleaner, cleanup_on_add.
  destruct m as [d [ids ttls enable cleaner] blocked lg cs]. simpl.
  destruct enable; simpl.
  - destruct cleaner as [dc|]; simpl.
    + destruct (key_to_song_id dc !! _make_key (title s) (artist s))
        as [[e|]|]; destruct (String.eqb (keep dc) "first"); simpl;
        try (intros [= <- <-]; repeat split);
        destruct (dll_add_song d s); simpl; intros [= <- <-]; repeat split.
    + destruct (dll_add_song d s); simpl; intros [= <- <-]; repeat split.
  - destruct (dll_add_song d s); simpl; intros [= <- <-]; repeat split.
Qed.

Lemma for_each_settings songs : forall m m',
  for_each (fun m s => do r <- add_existing_song m s; ret r.1) songs m
  = inr m' ->
  same_settings m m'.
Proof.
  induction songs as [|s rest IH]; intros m m'; simpl.
  - intros [= <-]. repeat split.
  - destruct (add_existing_song m s) as [e|[m1 r]] eqn:Hadd; simpl;
      [discriminate|].
    intros Hrun. apply add_existing_song_settings in Hadd.
    apply IH in Hrun.
    destruct Hadd as (Hb & Hl & He & Hk), Hrun as (Hb' & Hl' & He' & Hk').
    unfold same_settings.
    rewrite Hb', Hb, Hl', Hl, He', He, Hk', Hk. repeat split.
Qed.

(** C5, amended.  [merge_alternately] raises nothing, leaves both inputs
    as they are and returns a new playlist with the settings of
    [Playlist()]: no blocked artist, dedupe enabled under policy 'first',
    an empty action log.  Its sequence is the alternating interleave
    A1, B1, A2, B2, ... followed by the rest of the longer input, except
    that the new playlist dedupes: a song is left out when its normalized
    (title, artist) key is already registered under an id.  When the keys
    of all songs of both inputs differ, the sequence is exactly the
    interleave. *)
Theorem merge_alternately_interleaves (self other : Playlist)
    (songs1 songs2 : list Song) :
  get_all_songs self = inr songs1 ->
  get_all_songs other = inr songs2 ->
  exists merged,
    merge_alternately self other = inr (self, other, merged) /\
    artist_blocklist merged = ∅ /\
    enable_dedupe (lookup_map merged) = true /\
    keep <$> duplicate_cleaner (lookup_map merged) = Some "first" /\
    _action_history (action_logger merged) = [] /\
    get_all_songs merged = inr (accepted ∅ (interleave songs1 songs2)) /\
    (NoDup (song_key <$> (songs1 ++ songs2)) ->
     get_all_songs merged = inr (interleave songs1 songs2)).
Proof.
  intros H1 H2. unfold merge_alternately. rewrite H1, H2. simpl.
  rewrite merge_loop_for_each.
  destruct (for_each_accepted (interleave songs1 songs2) default_playlist
              [] ∅ well_formed_empty eq_refl eq_refl eq_refl)
    as (merged & l' & Hrun & Hwf & Hl').
  exists merged. rewrite Hrun. simpl. split; [reflexivity|].
  destruct (for_each_settings _ _ _ Hrun) as (Hb & Hl & He & Hk).
  rewrite Hb, He, Hk, Hl.
  split; [reflexivity|]. split; [reflexivity|]. split; [reflexivity|].
  split; [reflexivity|].
  simpl in Hwf. rewrite (well_formed_get_all _ _ Hwf), Hl'.
  split; [reflexivity|]. intros Hnd. f_equal. apply accepted_all.
  - rewrite interleave_perm. exact Hnd.
  - intros s _. apply lookup_empty.
Qed.

End WithLibrary.

(** *** Examples *)

(** C2.  The code where it breaks the claim: [undo_delete] builds the
    song anew from five of its fields.  A song that was played three
    times is deleted and the delete undone: the song that comes back at
    its index has play_count 0, not 3, so the sequence is not the one
    before the delete. *)
Theorem undo_delete_resets_play_count :
  exists p1 p2,
    get_all_songs played = inr [mkSong "A" "artist" 180 (Some "1") None 3] /\
    delete_song played 0 = inr p1 /\
    undo_last_n_actions p1 1 = inr (p2, ["delete"]) /\
    get_all_songs p2 = inr [mkSong "A" "artist" 180 (Some "1") None 0].
Proof.
  destruct (delete_song played 0) as [e|p1] eqn:E1;
    [vm_compute in E1; discriminate|].
  destruct (undo_last_n_actions p1 1) as [e|[p2 kinds]] eqn:E2;
    [vm_compute in E1; injection E1 as <-; vm_compute in E2; discriminate|].
  exists p1, p2. split; [vm_compute; reflexivity|]. split; [reflexivity|].
  vm_compute in E1. injection E1 as <-.
  vm_compute in E2. injection E2 as <- <-.
  split; [reflexivity|]. vm_compute. reflexivity.
Qed.

Lemma delete_then_undo_restores_witness :
  exists p1 p2 after,
    delete_song abc 1 = inr p1 /\
    undo_last_n_actions p1 1 = inr (p2, ["delete"]) /\
    get_all_songs p2 = inr after /\
    Forall2 same_song [track "A" "1"; track "B" "2"; track "C" "3"] after /\
    after !! 0%nat = Some (track "A" "1") /\
    after !! 2%nat = Some (track "C" "3").
Proof.
  destruct (delete_then_undo_restores abc
              [(0%nat, track "A" "1"); (1%nat, track "B" "2");
               (2%nat, track "C" "3")] 1)
    as (p1 & p2 & after & _ & Hdel & _ & Hundo & Hget & _ & Hsame & Hrest).
  - unfold well_formed.
    split; [vm_compute; repeat split|].
    split; [vm_compute; reflexivity|]. split; [vm_compute; reflexivity|].
    split; [vm_compute; reflexivity|].
    split; apply (bool_decide_unpack _); vm_compute; exact I.
  - simpl. lia.
  - vm_compute. lia.
  - exists p1, p2, after. split; [exact Hdel|]. split; [exact Hundo|].
    split; [exact Hget|]. split; [exact Hsame|].
    split; [apply (Hrest 0%nat)|apply (Hrest 2%nat)]; simpl; lia.
Defined.

(** [move_song] to the last index leaves [tail] at the old last node:
    the next [add_song] then cuts the moved song off, [size] no longer
    counts the nodes, and deleting the last index and undoing raises
    [AttributeError]. *)
Lemma move_to_end_leaves_tail :
  move_song abc 0 2 = inr moved /\
  titles moved = inr ["B"; "C"; "A"] /\
  add_song moved "D" "artist" 180 None (Some "4") = inr (moved_added, None) /\
  titles moved_added = inr ["B"; "C"; "D"] /\
  size (playlist moved_added) = 4 /\
  delete_song moved_added 2 = inr moved_deleted /\
  undo_last_n_actions moved_deleted 1 = inl AttributeError.
Proof. repeat split; vm_compute; reflexivity. Qed.

(** A song that was added without a song_id does not stand in the way
    of a later one with its title and artist: its key is registered under
    [None], [cleanup_on_add] answers [None], and [add_song] appends. *)
Lemma add_song_accepts_duplicate_without_id :
  exists dc p2,
    active_cleaner (lookup_map nameless) = Some dc /\
    keep dc = "first" /\
    is_duplicate dc "A" "artist" = true /\
    is_blocked (artist_blocklist nameless) "artist" = false /\
    titles nameless = inr ["A"] /\
    add_song nameless "A" "artist" 180 None None = inr (p2, None) /\
    titles p2 = inr ["A"; "A"] /\
    size (playlist p2) = 2.
Proof.
  destruct (add_song nameless "A" "artist" 180 None None)
    as [e|[p2 r]] eqn:E; [vm_compute in E; discriminate|].
  vm_compute in E. injection E as <- <-.
  eexists _, _. split; [vm_compute; reflexivity|].
  repeat split; vm_compute; reflexivity.
Qed.


(** C5 as stated fails: the same title and artist under two ids, one
    in each input: the merged playlist holds one song, not two. *)
Lemma merge_alternately_drops_duplicate :
  exists merged,
    get_all_songs (single "1") = inr [track "A" "1"] /\
    get_all_songs (single "2") = inr [track "A" "2"] /\
    merge_alternately (single "1") (single "2")
    = inr (single "1", single "2", merged) /\
    get_all_songs merged = inr [track "A" "1"].
Proof.
  destruct (merge_alternately (single "1") (single "2"))
    as [e|[[s1 s2] merged]] eqn:E; [vm_compute in E; discriminate|].
  vm_compute in E. injection E as <- <- <-.
  eexists. repeat split; vm_compute; reflexivity.
Qed.

Lemma merge_alternately_interleaves_witness :
  exists merged,
    merge_alternately four three = inr (four, three, merged) /\
    artist_blocklist merged = ∅ /\
    titles merged = inr ["A1"; "B1"; "A2"; "B2"; "A3"; "B3"; "A4"].
Proof.
  destruct (merge_alternately_interleaves four three
              [track "A1" "a1"; track "A2" "a2"; track "A3" "a3";
               track "A4" "a4"]
              [track "B1" "b1"; track "B2" "b2"; track "B3" "b3"])
    as (merged & Hmerge & Hb & _ & _ & _ & _ & Hget).
  - vm_compute. reflexivity.
  - vm_compute. reflexivity.
  - exists merged. split; [exact Hmerge|]. split; [exact Hb|].
    unfold titles. rewrite Hget.
    + reflexivity.
    + apply (bool_decide_unpack _). vm_compute. exact I.
Defined.

End PlaylistProofs.
(** ** Proofs: more of the playlist *)
Module PlaylistMore.
Import Songs Playlists PlaylistProofs.

Section WithLibrary.
Context {str_methods : StrMethods}.

Lemma abc_well_formed : well_formed (playlist abc) abc_nodes.
Proof.
  unfold well_formed.
  split; [vm_compute; repeat split|].
  split; [vm_compute; reflexivity|]. split; [vm_compute; reflexivity|].
  split; [vm_compute; reflexivity|].
  split; apply (bool_decide_unpack _); vm_compute; exact I.
Defined.

(** *** Adding *)

(** An accepted [add_song]: the list, the log and the filters after
    it. *)
Lemma add_song_accepted p l ttl art dur gnr sid p' :
  well_formed (playlist p) l ->
  add_song p ttl art dur gnr sid = inr (p', None) ->
  well_formed (playlist p')
    (l ++ [(fresh (playlist p), new_song ttl art dur sid gnr)]) /\
  fresh (playlist p') = S (fresh (playlist p)) /\
  action_logger p'
  = log_action (action_logger p) "add" (UndoAdd (Z.of_nat (length l))) /\
  artist_blocklist p' = artist_blocklist p.
Proof.
  intros Hwf. unfold add_song.
  destruct (is_blocked (artist_blocklist p) art); [intros H; inversion H|].
  destruct (lookup_add_song (lookup_map p) (new_song ttl art dur sid gnr))
    as [[e|] m]; [intros H; inversion H|].
  simpl.
  destruct (dll_add_song_spec _ _ (new_song ttl art dur sid gnr) Hwf)
    as (d' & Hadd & Hwf' & Hfr).
  rewrite Hadd. simpl. intros H. inversion H; subst p'; clear H. simpl.
  destruct Hwf as (_ & _ & _ & Hs & _). rewrite Hs.
  split; [exact Hwf'|]. split; [exact Hfr|]. split; reflexivity.
Qed.

Lemma add_song_total p l ttl art dur gnr sid :
  well_formed (playlist p) l ->
  exists p' r, add_song p ttl art dur gnr sid = inr (p', r).
Proof.
  intros Hwf. unfold add_song.
  destruct (is_blocked (artist_blocklist p) art); [eexists _, _; reflexivity|].
  destruct (lookup_add_song (lookup_map p) (new_song ttl art dur sid gnr))
    as [[e|] m]; [eexists _, _; reflexivity|].
  simpl.
  destruct (dll_add_song_spec _ _ (new_song ttl art dur sid gnr) Hwf)
    as (d' & Hadd & _).
  rewrite Hadd. simpl. eexists _, _. reflexivity.
Qed.

(** X1.  On a well-formed playlist [add_song] never raises: it either
    rejects the song, returning a value other than [None] and leaving the
    playlist as it was, or returns [None] and appends the new song at the
    tail, so that the list is well formed again, one longer, and reads
    the old sequence followed by the new song. *)
Theorem add_song_appends (p : Playlist) (l : list (addr * Song))
    (ttl art : string) (dur : Z) (gnr sid : option string) :
  well_formed (playlist p) l ->
  exists p' r,
    add_song p ttl art dur gnr sid = inr (p', r) /\
    match r with
    | Some _ => p' = p
    | None =>
        well_formed (playlist p')
          (l ++ [(fresh (playlist p), new_song ttl art dur sid gnr)]) /\
        get_all_songs p' = inr (l.*2 ++ [new_song ttl art dur sid gnr]) /\
        size (playlist p') = size (playlist p) + 1
    end.
Proof.
  intros Hwf.
  destruct (add_song_total p l ttl art dur gnr sid Hwf) as (p' & r & Hadd).
  exists p', r. split; [exact Hadd|]. destruct r as [e|].
  - unfold add_song in Hadd.
    destruct (is_blocked (artist_blocklist p) art).
    + inversion Hadd. reflexivity.
    + destruct (lookup_add_song (lookup_map p) (new_song ttl art dur sid gnr))
        as [[e'|] m] eqn:E.
      * apply lookup_add_song_rejects in E. subst m.
        rewrite with_lookup_same in Hadd. inversion Hadd. reflexivity.
      * simpl in Hadd.
        destruct (dll_add_song (playlist p) (new_song ttl art dur sid gnr));
          simpl in Hadd; inversion Hadd.
  - destruct (add_song_accepted _ _ _ _ _ _ _ _ Hwf Hadd) as (Hwf' & _).
    split; [exact Hwf'|].
    split; [rewrite (well_formed_get_all _ _ Hwf'), fmap_app; reflexivity|].
    destruct Hwf as (_ & _ & _ & Hs & _).
    destruct Hwf' as (_ & _ & _ & Hs' & _).
    rewrite Hs, Hs', length_app. simpl. lia.
Qed.

(** *** Deleting *)

Lemma fmap_delete_snd (l : list (addr * Song)) i :
  (delete i l).*2 = delete i l.*2.
Proof.
  revert i. induction l as [|x l IH]; intros i; [reflexivity|].
  destruct i as [|i]; simpl; [reflexivity|]. f_equal. apply IH.
Qed.

(** X2.  On a well-formed playlist [delete_song] at a valid index
    removes exactly the song at that index: the list stays well formed,
    is one shorter, and the other songs keep their order.  At any other
    index it raises [IndexError]. *)
Theorem delete_song_removes (p : Playlist) (l : list (addr * Song))
    (index : Z) :
  well_formed (playlist p) l ->
  if (0 <=? index) && (index <? Z.of_nat (length l)) then
    exists p',
      delete_song p index = inr p' /\
      well_formed (playlist p') (delete (Z.to_nat index) l) /\
      get_all_songs p' = inr (delete (Z.to_nat index) l.*2) /\
      size (playlist p') = size (playlist p) - 1
  else delete_song p index = inl IndexError.
Proof.
  intros Hwf.
  destruct ((0 <=? index) && (index <? Z.of_nat (length l))) eqn:Hi.
  - apply andb_true_iff in Hi. destruct Hi as [H0 H1].
    apply Z.leb_le in H0. apply Z.ltb_lt in H1.
    destruct (split_at l index (conj H0 H1)) as (l1 & c & s & l2 & -> & ->).
    destruct (delete_song_spec _ _ _ _ _ Hwf) as (p' & Hdel & Hwf' & _).
    exists p'. rewrite Nat2Z.id, delete_middle.
    split; [exact Hdel|]. split; [exact Hwf'|].
    split.
    { rewrite (well_formed_get_all _ _ Hwf'), <- fmap_delete_snd.
      rewrite delete_middle. reflexivity. }
    destruct Hwf as (_ & _ & _ & Hs & _).
    destruct Hwf' as (_ & _ & _ & Hs' & _).
    rewrite Hs, Hs', !length_app. simpl. lia.
  - destruct Hwf as (_ & _ & _ & Hs & _). unfold delete_song. rewrite Hs.
    apply andb_false_iff in Hi.
    assert (E : (index <? 0) || (Z.of_nat (length l) <=? index) = true).
    { apply orb_true_iff. destruct Hi as [Hi|Hi].
      - left. apply Z.ltb_lt. apply Z.leb_gt in Hi. exact Hi.
      - right. apply Z.leb_le. apply Z.ltb_ge in Hi. exact Hi. }
    rewrite E. reflexivity.
Qed.

(** X3.  [pop_next] on an empty playlist returns [None] and changes
    nothing; on a well-formed playlist that is not empty it returns the
    first song and removes it, leaving the rest in order and the action
    log as it was. *)
Theorem pop_next_takes_head (p : Playlist) (l : list (addr * Song)) :
  well_formed (playlist p) l ->
  match l with
  | [] => (pop_next p = inr (p, None))
  | (_, s) :: rest =>
      exists p',
        pop_next p = inr (p', Some s) /\
        well_formed (playlist p') rest /\
        get_all_songs p' = inr rest.*2 /\
        action_logger p' = action_logger p
  end.
Proof.
  intros Hwf. destruct l as [|[c s] rest].
  - destruct Hwf as (_ & Hh & _). unfold pop_next. rewrite Hh. reflexivity.
  - destruct (dll_delete_song_spec _ [] c s rest Hwf) as (d' & Hdel & Hwf' & _).
    destruct Hwf as ([Hc _] & Hh & _). simpl in Hh, Hdel.
    change (Z.of_nat 0) with 0 in Hdel. unfold pop_next. rewrite Hh. simpl. rewrite Hc. simpl.
    destruct (song_id s) as [i|]; simpl; rewrite Hdel; simpl;
      (eexists; split; [reflexivity|]; simpl; split; [exact Hwf'|];
       split; [|reflexivity]).
    + apply (well_formed_get_all
               (with_list (with_lookup p (lookup_remove_song (lookup_map p) i).2) d')).
      exact Hwf'.
    + apply (well_formed_get_all (with_list p d')). exact Hwf'.
Qed.

(** *** Undoing *)

Lemma undo_one p a lg p' :
  pop_action (action_logger p) = Some (a, lg) ->
  run_undo (with_logger p lg) (undo_func a) = inr p' ->
  undo_last_n_actions p 1 = inr (p', [action_type a]).
Proof.
  intros Hpop Hrun. unfold undo_last_n_actions. simpl.
  assert (Hlen : Z.min 1 (Z.of_nat (length (_action_history (action_logger p))))
                 = 1).
  { unfold pop_action in Hpop.
    destruct (_action_history (action_logger p)) as [|a0 h0];
      [discriminate|]. simpl. lia. }
  rewrite Hlen. simpl. rewrite Hpop. simpl. rewrite Hrun. reflexivity.
Qed.

(** X4.  After an accepted [add_song] on a well-formed playlist whose
    log keeps at least one action, [undo_last_n_actions(1)] reports
    ["add"] and brings the old sequence back.  The undo deletes through
    [delete_song], which logs a "delete" of its own: one more
    [undo_last_n_actions(1)] reports ["delete"] and puts the song back
    at the tail. *)
Theorem add_then_undo (p p1 : Playlist) (l : list (addr * Song))
    (ttl art : string) (dur : Z) (gnr sid : option string) :
  well_formed (playlist p) l ->
  (1 <= _max_history (action_logger p))%nat ->
  add_song p ttl art dur gnr sid = inr (p1, None) ->
  exists p2 p3,
    undo_last_n_actions p1 1 = inr (p2, ["add"]) /\
    get_all_songs p2 = inr l.*2 /\
    last (get_action_history p2) = Some "delete" /\
    undo_last_n_actions p2 1 = inr (p3, ["delete"]) /\
    get_all_songs p3 = inr (l.*2 ++ [new_song ttl art dur sid gnr]).
Proof.
  intros Hwf Hm Hadd.
  destruct (add_song_accepted _ _ _ _ _ _ _ _ Hwf Hadd)
    as (Hwf1 & _ & Hlog1 & _).
  destruct (pop_logged (action_logger p) "add"
              (UndoAdd (Z.of_nat (length l))) Hm) as [h1 Hpop1].
  rewrite <- Hlog1 in Hpop1.
  set (lg1 := mkLogger h1 (_max_history (action_logger p))) in *.
  destruct (delete_song_spec (with_logger p1 lg1) l (fresh (playlist p))
              (new_song ttl art dur sid gnr) [] Hwf1)
    as (p2 & Hdel & Hwf2 & _ & Hlog2).
  rewrite app_nil_r in Hwf2. simpl in Hlog2.
  destruct (pop_logged lg1 "delete"
              (UndoDelete (new_song ttl art dur sid gnr) sid
                 (Z.of_nat (length l))) Hm) as [h2 Hpop2].
  rewrite <- Hlog2 in Hpop2.
  set (lg2 := mkLogger h2 (_max_history lg1)) in *.
  assert (Hwf2' : well_formed (playlist (with_logger p2 lg2)) (l ++ []))
    by (rewrite app_nil_r; exact Hwf2).
  destruct (insert_song_at_index_spec (with_logger p2 lg2)
              (new_song ttl art dur sid gnr) l [] Hwf2')
    as (p3 & Hins & Hwf3 & _).
  exists p2, p3.
  split; [exact (undo_one p1 _ _ _ Hpop1 Hdel)|].
  split; [exact (well_formed_get_all _ _ Hwf2)|].
  split.
  { unfold get_action_history. rewrite Hlog2. unfold log_action, lg1. simpl.
    destruct (deque_append_snoc _ h1
                (mkAction "delete"
                   (UndoDelete (new_song ttl art dur sid gnr) sid
                      (Z.of_nat (length l)))) Hm) as [h ->].
    rewrite fmap_app. simpl. rewrite last_snoc. reflexivity. }
  split; [exact (undo_one p2 _ _ _ Hpop2 Hins)|].
  rewrite (well_formed_get_all _ _ Hwf3), fmap_app. reflexivity.
Qed.

Lemma undo_loop_bound k : forall p acc p' kinds,
  undo_loop k p acc = inr (p', kinds) ->
  exists new, kinds = acc ++ new /\ (length new <= k)%nat.
Proof.
  induction k as [|k IH]; intros p acc p' kinds H; simpl in H.
  - inversion H. exists []. rewrite app_nil_r. split; [reflexivity|simpl; lia].
  - destruct (pop_action (action_logger p)) as [[a lg]|].
    + destruct (run_undo (with_logger p lg) (undo_func a)) as [e|p0];
        simpl in H; [discriminate|].
      destruct (IH _ _ _ _ H) as (new & -> & Hlen).
      exists (action_type a :: new). rewrite <- app_assoc.
      split; [reflexivity|simpl; lia].
    + destruct (IH _ _ _ _ H) as (new & -> & Hlen).
      exists new. split; [reflexivity|lia].
Qed.

(** X5.  [undo_last_n_actions(n)] with [n <= 0] returns [[]] and changes
    nothing; otherwise, when it returns, it has undone at most [n]
    actions and at most as many as the log held at the call. *)
Theorem undo_last_n_actions_bounded (p : Playlist) (n : Z) :
  (n <= 0 -> undo_last_n_actions p n = inr (p, [])) /\
  (forall p' kinds,
     undo_last_n_actions p n = inr (p', kinds) ->
     Z.of_nat (length kinds) <= Z.max 0 n /\
     (length kinds <= length (_action_history (action_logger p)))%nat).
Proof.
  split.
  - intros Hn. unfold undo_last_n_actions.
    replace (n <=? 0) with true by (symmetry; apply Z.leb_le; exact Hn).
    reflexivity.
  - intros p' kinds. unfold undo_last_n_actions.
    destruct (n <=? 0) eqn:Hn.
    + intros H. inversion H. simpl. lia.
    + apply Z.leb_gt in Hn. intros H.
      destruct (undo_loop_bound _ _ _ _ _ H) as (new & -> & Hlen).
      simpl. lia.
Qed.

End WithLibrary.

Lemma add_song_appends_witness :
  exists p',
    add_song abc "D" "artist" 180 None (Some "4") = inr (p', None) /\
    titles p' = inr ["A"; "B"; "C"; "D"] /\
    size (playlist p') = 4.
Proof.
  destruct (add_song_appends abc abc_nodes "D" "artist" 180 None (Some "4")
              abc_well_formed) as (p' & r & Hadd & Hr).
  assert (E : r = None).
  { destruct (add_song abc "D" "artist" 180 None (Some "4"))
      as [e|[p0 r0]] eqn:E0; [discriminate|].
    injection Hadd as _ <-. vm_compute in E0.
    injection E0 as _ <-. reflexivity. }
  subst r. destruct Hr as (_ & Hget & Hsize).
  exists p'. split; [exact Hadd|]. unfold titles. rewrite Hget.
  split; [reflexivity|]. rewrite Hsize. reflexivity.
Defined.

Lemma delete_song_removes_witness :
  (exists p',
     delete_song abc 1 = inr p' /\ titles p' = inr ["A"; "C"] /\
     size (playlist p') = 2) /\
  delete_song abc 3 = inl IndexError /\
  delete_song abc (-1) = inl IndexError.
Proof.
  split; [|split].
  - destruct (delete_song_removes abc abc_nodes 1 abc_well_formed)
      as (p' & Hdel & _ & Hget & Hsize).
    exists p'. split; [exact Hdel|]. unfold titles. rewrite Hget.
    split; [reflexivity|]. rewrite Hsize. reflexivity.
  - exact (delete_song_removes abc abc_nodes 3 abc_well_formed).
  - exact (delete_song_removes abc abc_nodes (-1) abc_well_formed).
Defined.

Lemma pop_next_takes_head_witness :
  pop_next default_playlist = inr (default_playlist, None) /\
  exists p',
    pop_next abc = inr (p', Some (track "A" "1")) /\
    titles p' = inr ["B"; "C"].
Proof.
  split.
  - exact (pop_next_takes_head default_playlist [] well_formed_empty).
  - destruct (pop_next_takes_head abc abc_nodes abc_well_formed)
      as (p' & Hpop & _ & Hget & _).
    exists p'. split; [exact Hpop|]. unfold titles. rewrite Hget. reflexivity.
Defined.

Lemma add_then_undo_witness :
  exists p1 p2 p3,
    add_song abc "D" "artist" 180 None (Some "4") = inr (p1, None) /\
    undo_last_n_actions p1 1 = inr (p2, ["add"]) /\
    titles p2 = inr ["A"; "B"; "C"] /\
    undo_last_n_actions p2 1 = inr (p3, ["delete"]) /\
    titles p3 = inr ["A"; "B"; "C"; "D"].
Proof.
  destruct (add_song abc "D" "artist" 180 None (Some "4"))
    as [e|[p1 r]] eqn:Hadd; [vm_compute in Hadd; discriminate|].
  assert (E : r = None) by (vm_compute in Hadd; injection Hadd as _ <-; reflexivity).
  subst r.
  destruct (add_then_undo abc p1 abc_nodes "D" "artist" 180 None (Some "4")
              abc_well_formed) as (p2 & p3 & Hu1 & Hg2 & _ & Hu2 & Hg3).
  - vm_compute. lia.
  - exact Hadd.
  - exists p1, p2, p3. split; [reflexivity|]. split; [exact Hu1|].
    unfold titles. rewrite Hg2, Hg3. repeat split; assumption.
Defined.

Lemma undo_last_n_actions_bounded_witness :
  undo_last_n_actions abc 0 = inr (abc, []) /\
  exists p' kinds,
    undo_last_n_actions played 5 = inr (p', kinds) /\
    (length kinds <= length (_action_history (action_logger played)))%nat.
Proof.
  split.
  - apply (proj1 (undo_last_n_actions_bounded abc 0)). lia.
  - destruct (undo_last_n_actions played 5) as [e|[p' kinds]] eqn:E;
      [vm_compute in E; discriminate|].
    exists p', kinds. split; [reflexivity|].
    exact (proj2 (proj2 (undo_last_n_actions_bounded played 5) p' kinds E)).
Defined.

End PlaylistMore.
(** ** Proofs: reversing and moving *)
Module PlaylistOrder.
Import Songs Playlists PlaylistProofs PlaylistMore.

Section WithLibrary.
Context {str_methods : StrMethods}.

(** *** Reversing *)

Lemma first_addr_reverse (l : list (addr * Song)) :
  first_addr (reverse l) None = last_addr None l.
Proof.
  destruct l as [|x l _] using rev_ind; [reflexivity|].
  rewrite reverse_snoc. destruct x as [a s]. rewrite last_addr_snoc.
  reflexivity.
Qed.

Lemma last_addr_reverse (l : list (addr * Song)) :
  last_addr None (reverse l) = first_addr l None.
Proof.
  rewrite <- (reverse_involutive l) at 2. rewrite first_addr_reverse.
  reflexivity.
Qed.

(** The loop of [reverse_playlist]: [l1] is the part already turned
    round, [l2] the part still to visit. *)
Lemma reverse_loop_spec l2 : forall fuel ns l1,
  NoDup (l1 ++ l2).*1 ->
  dseg ns (first_addr l2 None) (reverse l1) None ->
  dseg ns (last_addr None l1) l2 None ->
  (length l2 <= fuel)%nat ->
  exists ns',
    reverse_loop fuel ns (first_addr l2 None) (last_addr None l1)
    = inr (ns', last_addr None (l1 ++ l2)) /\
    dseg ns' None (reverse (l1 ++ l2)) None.
Proof.
  induction l2 as [|[c s] l2 IH]; intros fuel ns l1 Hnd H1 H2 Hf.
  - rewrite app_nil_r. exists ns. split; [destruct fuel; reflexivity|exact H1].
  - destruct fuel as [|fuel]; [simpl in Hf; lia|].
    pose proof Hnd as Hnd'. apply NoDup_middle in Hnd'.
    destruct Hnd' as (Hnd1 & Hnd2 & Hc1 & Hc2 & H12).
    destruct H2 as [Hc H2]. simpl in H1.
    assert (Hrev : c ∉ (reverse l1).*1).
    { rewrite fmap_reverse, elem_of_reverse. exact Hc1. }
    specialize (IH fuel
                  (set_prev c (first_addr l2 None)
                     (set_next c (last_addr None l1) ns))
                  (l1 ++ [(c, s)])).
    rewrite <- app_assoc in IH. simpl in IH.
    destruct IH as (ns' & Hloop & Hseg).
    + exact Hnd.
    + rewrite reverse_snoc. split.
      * store. rewrite Hc. simpl. rewrite first_addr_reverse. reflexivity.
      * apply dseg_set_prev_frame; [exact Hrev|].
        apply dseg_set_next_frame; [exact Hrev|]. exact H1.
    + rewrite last_addr_snoc.
      apply dseg_set_prev_frame; [exact Hc2|].
      apply dseg_set_next_frame; [exact Hc2|]. exact H2.
    + simpl in Hf. lia.
    + rewrite last_addr_snoc in Hloop. exists ns'. split; [|exact Hseg].
      simpl. rewrite Hc. simpl. exact Hloop.
Qed.

Lemma dll_reverse_playlist_spec d l :
  well_formed d l ->
  exists d', dll_reverse_playlist d = inr d' /\
             well_formed d' (reverse l) /\ fresh d' = fresh d.
Proof.
  intros (Hd & Hh & Ht & Hs & Hnd & Hf).
  destruct (reverse_loop_spec l (base.size (nodes d)) (nodes d) [])
    as (ns' & Hloop & Hseg).
  - exact Hnd.
  - exact I.
  - exact Hd.
  - eapply dseg_size; eassumption.
  - simpl in Hloop. change (last_addr None []) with (@None addr) in Hloop.
    unfold dll_reverse_playlist. rewrite Hh, Hloop. simpl.
    eexists. split; [reflexivity|]. split; [|reflexivity].
    unfold well_formed. simpl. split; [exact Hseg|].
    split; [rewrite first_addr_reverse; reflexivity|].
    split; [rewrite last_addr_reverse; reflexivity|].
    split; [rewrite length_reverse; exact Hs|].
    rewrite fmap_reverse. split.
    + rewrite reverse_Permutation. exact Hnd.
    + apply Forall_reverse. exact Hf.
Qed.

(** X6.  On a well-formed playlist [reverse_playlist] never raises: the
    list is well formed again and reads the old sequence backwards, with
    the same size, and one "reverse" entry is logged. *)
Theorem reverse_playlist_reverses (p : Playlist) (l : list (addr * Song)) :
  well_formed (playlist p) l ->
  exists p',
    reverse_playlist p = inr p' /\
    well_formed (playlist p') (reverse l) /\
    get_all_songs p' = inr (reverse l.*2) /\
    size (playlist p') = size (playlist p) /\
    action_logger p' = log_action (action_logger p) "reverse" UndoReverse.
Proof.
  intros Hwf.
  destruct (dll_reverse_playlist_spec _ _ Hwf) as (d' & Hrev & Hwf' & _).
  unfold reverse_playlist. rewrite Hrev. simpl.
  eexists. split; [reflexivity|]. simpl. split; [exact Hwf'|].
  split.
  - rewrite <- fmap_reverse.
    apply (well_formed_get_all (with_list p d')). exact Hwf'.
  - split; [|reflexivity].
    destruct Hwf as (_ & _ & _ & Hs & _).
    destruct Hwf' as (_ & _ & _ & Hs' & _).
    rewrite Hs, Hs', length_reverse. reflexivity.
Qed.

(** X7.  Reversing a well-formed playlist whose log keeps at least one
    action and then undoing one action reports ["reverse"] and brings the
    old sequence back; the undo logs nothing, so the log is as it was
    before the reversal when it was not full. *)
Theorem reverse_then_undo (p : Playlist) (l : list (addr * Song)) :
  well_formed (playlist p) l ->
  (1 <= _max_history (action_logger p))%nat ->
  exists p1 p2,
    reverse_playlist p = inr p1 /\
    undo_last_n_actions p1 1 = inr (p2, ["reverse"]) /\
    well_formed (playlist p2) l /\
    get_all_songs p2 = inr l.*2 /\
    ((length (_action_history (action_logger p))
      < _max_history (action_logger p))%nat ->
     action_logger p2 = action_logger p).
Proof.
  intros Hwf Hm.
  destruct (dll_reverse_playlist_spec _ _ Hwf) as (d1 & Hrev & Hwf1 & _).
  destruct (dll_reverse_playlist_spec _ _ Hwf1) as (d2 & Hrev2 & Hwf2 & _).
  rewrite reverse_involutive in Hwf2.
  destruct (pop_logged (action_logger p) "reverse" UndoReverse Hm)
    as [h1 Hpop].
  unfold reverse_playlist. rewrite Hrev. simpl.
  eexists _, _. split; [reflexivity|].
  split.
  { apply (undo_one _ (mkAction "reverse" UndoReverse)
             (mkLogger h1 (_max_history (action_logger p))));
      [exact Hpop|]. simpl. rewrite Hrev2. reflexivity. }
  simpl. split; [exact Hwf2|].
  split.
  { apply (well_formed_get_all
             (with_list (with_logger (with_logger (with_list p d1)
                (log_action (action_logger p) "reverse" UndoReverse))
                (mkLogger h1 (_max_history (action_logger p)))) d2)).
    exact Hwf2. }
  intros Hlt. unfold pop_action, log_action, deque_append in Hpop.
  simpl in Hpop.
  destruct (action_logger p) as [h m]. simpl in *.
  destruct m as [|m]; [lia|].
  replace (length h <? S m)%nat with true in Hpop
    by (symmetry; apply Nat.ltb_lt; exact Hlt).
  rewrite reverse_snoc in Hpop. inversion Hpop as [E].
  rewrite reverse_involutive. reflexivity.
Qed.

(** *** Moving *)

Lemma first_addr_elem (l : list (addr * Song)) n a :
  first_addr l n = Some a -> n = Some a \/ a ∈ l.*1.
Proof.
  destruct l as [|[b s] l]; simpl; intros H; [left; exact H|].
  inversion H; subst. right. apply elem_of_cons. left. reflexivity.
Qed.

(** [unlink] leaves the unlinked node itself as it was. *)
Lemma unlink_keeps d c n ns hd tl :
  nodes d !! c = Some n -> prev n <> Some c -> next n <> Some c ->
  unlink d (Some c) = inr (ns, hd, tl) -> ns !! c = Some n.
Proof.
  intros Hc Hp Hn. unfold unlink. simpl. rewrite Hc. simpl.
  destruct (prev n) as [a|] eqn:Ea.
  - assert (Hac : a <> c) by congruence.
    rewrite lookup_set_next. destruct (decide (a = c)); [contradiction|].
    rewrite Hc. simpl. rewrite Ea.
    destruct (next n) as [q|] eqn:Eq; simpl; intros H; inversion H; subst ns.
    + assert (Hqc : q <> c) by congruence. store; try exact Hc.
    + store; try exact Hc.
  - rewrite Hc. simpl. rewrite Ea.
    destruct (next n) as [q|] eqn:Eq; simpl; intros H; inversion H; subst ns.
    + assert (Hqc : q <> c) by congruence. store; try exact Hc.
    + exact Hc.
Qed.

Lemma unlink_node d l1 c s l2 :
  well_formed d (l1 ++ (c, s) :: l2) ->
  exists ns,
    unlink d (Some c)
    = inr (ns, first_addr (l1 ++ l2) None, last_addr None (l1 ++ l2)) /\
    dseg ns None (l1 ++ l2) None /\
    exists pc nc, ns !! c = Some (mkNode s pc nc).
Proof.
  intros Hwf. destruct (unlink_spec _ _ _ _ _ Hwf) as (ns & Hu & Hseg).
  exists ns. split; [exact Hu|]. split; [exact Hseg|].
  destruct Hwf as (Hd & _ & _ & _ & Hnd & _).
  apply NoDup_middle in Hnd. destruct Hnd as (_ & _ & Hc1 & Hc2 & _).
  apply dseg_app in Hd. destruct Hd as [_ [Hc _]].
  eexists _, _. eapply unlink_keeps; [exact Hc| | |exact Hu]; simpl.
  - intros E. apply last_addr_elem in E. destruct E as [E|E];
      [discriminate|contradiction].
  - intros E. apply first_addr_elem in E. destruct E as [E|E];
      [discriminate|contradiction].
Qed.

Lemma move_in_range (l1 l2 m1 m2 : list (addr * Song)) x sz :
  sz = Z.of_nat (length (l1 ++ x :: l2)) ->
  l1 ++ l2 = m1 ++ m2 ->
  (Z.of_nat (length l1) <? 0) || (sz <=? Z.of_nat (length l1))
  || (Z.of_nat (length m1) <? 0) || (sz <=? Z.of_nat (length m1)) = false.
Proof.
  intros -> E. apply (f_equal length) in E. rewrite !length_app in E.
  rewrite length_app. simpl.
  repeat (apply orb_false_iff; split);
    first [apply Z.ltb_ge; lia | apply Z.leb_gt; lia].
Qed.

(** [move_song] between two different valid indices, read as unlinking
    [(c, s)] from [l1 ++ (c, s) :: l2] and linking it in again between
    [m1] and [m2]: the forward chain and [head] are right; [tail] is
    the one left by the unlinking. *)
Lemma dll_move_song_spec d l1 c s l2 m1 m2 :
  well_formed d (l1 ++ (c, s) :: l2) ->
  l1 ++ l2 = m1 ++ m2 ->
  length m1 <> length l1 ->
  exists d',
    dll_move_song d (Z.of_nat (length l1)) (Z.of_nat (length m1)) = inr d' /\
    dseg (nodes d') None (m1 ++ (c, s) :: m2) None /\
    head d' = first_addr (m1 ++ (c, s) :: m2) None /\
    tail d' = match m1 with
              | [] => last_addr None ((c, s) :: m2)
              | _ :: _ => last_addr None (m1 ++ m2)
              end /\
    size d' = size d /\ fresh d' = fresh d.
Proof.
  intros Hwf Hm Hne.
  destruct (unlink_node _ _ _ _ _ Hwf) as (ns & Hu & Hseg & pc & nc & Hkeep).
  destruct Hwf as (Hd & Hh & Ht & Hs & Hnd & Hf).
  unfold dll_move_song. rewrite (move_in_range _ _ _ _ _ _ Hs Hm).
  replace (Z.of_nat (length l1) =? Z.of_nat (length m1)) with false
    by (symmetry; apply Z.eqb_neq; lia).
  rewrite Nat2Z.id, Hh, (walk_dseg _ _ _ _ _ Hd). simpl.
  rewrite Hu. simpl. rewrite Hm in *. clear Hu.
  apply NoDup_middle in Hnd. destruct Hnd as (Hnd1 & Hnd2 & Hc1 & Hc2 & H12).
  assert (Hcm : c ∉ (m1 ++ m2).*1).
  { rewrite <- Hm, fmap_app. apply not_elem_of_app. split; assumption. }
  assert (Hndm : NoDup (m1 ++ m2).*1).
  { rewrite <- Hm, fmap_app. apply NoDup_app.
    split; [exact Hnd1|]. split; [exact H12|exact Hnd2]. }
  clear Hm. rewrite fmap_app in Hcm, Hndm.
  apply not_elem_of_app in Hcm. destruct Hcm as [Hcm1 Hcm2].
  apply NoDup_app in Hndm. destruct Hndm as (Hndm1 & Hm12 & Hndm2).
  destruct m1 as [|[t ts] m1' _] using rev_ind.
  - (* to the head *)
    simpl. simpl in Hseg.
    pose proof (dseg_set_prev_first _ _ _ _ (Some c) Hndm2
                  (dseg_set_next_frame _ _ _ _ c (first_addr m2 None)
                     Hcm2 Hseg)) as H2.
    eexists. split; [reflexivity|]. simpl.
    split; [split|].
    + destruct m2 as [|[h sh] m2]; simpl.
      * store. rewrite Hkeep. reflexivity.
      * assert (Hhc : h <> c).
        { intros ->. apply Hcm2. simpl. apply elem_of_cons. left. reflexivity. }
        store. rewrite Hkeep. reflexivity.
    + destruct m2 as [|[h sh] m2]; [exact I|].
      apply dseg_set_prev_frame; [exact Hcm2|]. exact H2.
    + split; [reflexivity|]. split; [|split; reflexivity].
      rewrite last_addr_cons. unfold last_addr.
      destruct (last m2) as [[z sz]|]; reflexivity.
  - (* after the node at [to_index - 1] *)
    rewrite length_app. simpl.
    replace (Z.of_nat (length m1' + 1) =? 0) with false
      by (symmetry; apply Z.eqb_neq; lia).
    replace (Z.to_nat (Z.of_nat (length m1' + 1) - 1)) with (length m1')
      by lia.
    rewrite <- app_assoc in Hseg. simpl in Hseg.
    rewrite <- app_assoc. simpl.
    rewrite (walk_dseg _ _ _ _ _ Hseg). simpl.
    pose proof Hseg as Hseg'. apply dseg_app in Hseg'.
    destruct Hseg' as [Hm1 [Htn Hm2]]. rewrite Htn. simpl.
    rewrite fmap_app in Hcm1, Hndm1. simpl in Hcm1, Hndm1.
    apply not_elem_of_app in Hcm1. destruct Hcm1 as [Hcm1 Hct].
    assert (Htc : t <> c).
    { intros ->. apply Hct. apply elem_of_cons. left. reflexivity. }
    assert (Htm2 : t ∉ m2.*1).
    { apply Hm12. rewrite fmap_app. apply elem_of_app. right.
      apply elem_of_cons. left. reflexivity. }
    assert (Htm1 : t ∉ m1'.*1).
    { apply NoDup_app in Hndm1. destruct Hndm1 as (_ & Hx & _).
      intros Hin. apply (Hx _ Hin). apply elem_of_cons. left. reflexivity. }
    eexists. split; [reflexivity|]. simpl.
    split.
    { rewrite <- app_assoc. simpl. apply dseg_app.
      split; [|simpl; split; [|split]].
      - (* the nodes before the target *)
        simpl. apply dseg_set_next_frame; [exact Htm1|].
        apply dseg_set_prev_frame; [exact Hcm1|].
        assert (Hq : dseg (set_next c (first_addr m2 None) ns) None m1' (Some t)).
        { apply dseg_set_next_frame; [exact Hcm1|]. exact Hm1. }
        destruct m2 as [|[q sq] m2]; [exact Hq|].
        apply dseg_set_prev_frame; [|exact Hq].
        intros Hin. apply (Hm12 q).
        + rewrite fmap_app. apply elem_of_app. left. exact Hin.
        + simpl. apply elem_of_cons. left. reflexivity.
      - (* the target *)
        destruct m2 as [|[q sq] m2]; simpl.
        + store. rewrite Htn. reflexivity.
        + assert (Hqt : q <> t).
          { intros ->. apply Htm2. simpl. apply elem_of_cons. left.
            reflexivity. }
          store. rewrite Htn. reflexivity.
      - (* the moved node *)
        destruct m2 as [|[q sq] m2]; simpl.
        + store. rewrite Hkeep. reflexivity.
        + assert (Hqc : q <> c).
          { intros ->. apply Hcm2. simpl. apply elem_of_cons. left.
            reflexivity. }
          store. rewrite Hkeep. reflexivity.
      - (* the nodes after it *)
        apply dseg_set_next_frame; [exact Htm2|].
        apply dseg_set_prev_frame; [exact Hcm2|].
        pose proof (dseg_set_prev_first _ _ _ _ (Some c) Hndm2
                      (dseg_set_next_frame _ _ _ _ c (first_addr m2 None)
                         Hcm2 Hm2)) as H2.
        destruct m2 as [|[q sq] m2]; exact H2. }
    split.
    { rewrite !first_addr_app. destruct m1' as [|[h sh] m1']; reflexivity. }
    split; [|split; reflexivity].
    destruct (m1' ++ [(t, ts)]) as [|y m] eqn:E; [|reflexivity].
    apply (f_equal length) in E. rewrite length_app in E. simpl in E. lia.
Qed.

Lemma relocate_split {A} (l1 l2 m1 m2 : list A) (x : A) :
  l1 ++ l2 = m1 ++ m2 ->
  relocate (l1 ++ x :: l2) (length l1) (length m1) = m1 ++ x :: m2.
Proof.
  intros E. unfold relocate.
  rewrite list_lookup_middle by reflexivity.
  rewrite delete_middle, E, take_app_length, drop_app_length. reflexivity.
Qed.

Lemma relocate_songs (l1 l2 m1 m2 : list (addr * Song)) c s :
  l1 ++ l2 = m1 ++ m2 ->
  relocate (l1 ++ (c, s) :: l2).*2 (length l1) (length m1)
  = (m1 ++ (c, s) :: m2).*2.
Proof.
  intros E. rewrite !fmap_app, !fmap_cons. simpl.
  rewrite <- (length_fmap snd l1), <- (length_fmap snd m1).
  apply relocate_split. rewrite <- !fmap_app, E. reflexivity.
Qed.

(** The traversal follows the forward chain from [head] only. *)
Lemma forward_get_all p l :
  dseg (nodes (playlist p)) None l None ->
  head (playlist p) = first_addr l None ->
  NoDup l.*1 ->
  get_all_songs p = inr l.*2.
Proof.
  intros Hd Hh Hnd. unfold get_all_songs. rewrite Hh.
  eapply collect_dseg; [exact Hd|]. eapply dseg_size; eassumption.
Qed.

Lemma moved_addresses (l1 l2 m1 m2 : list (addr * Song)) c s k :
  l1 ++ l2 = m1 ++ m2 ->
  NoDup (l1 ++ (c, s) :: l2).*1 ->
  Forall (fun a => (a < k)%nat) (l1 ++ (c, s) :: l2).*1 ->
  NoDup (m1 ++ (c, s) :: m2).*1 /\
  Forall (fun a => (a < k)%nat) (m1 ++ (c, s) :: m2).*1.
Proof.
  intros E Hnd Hf.
  apply NoDup_middle in Hnd. destruct Hnd as (Hnd1 & Hnd2 & Hc1 & Hc2 & H12).
  rewrite fmap_app, fmap_cons in Hf. apply Forall_app in Hf.
  destruct Hf as [Hf1 Hf2]. inversion Hf2 as [|? ? Hc Hf2']; subst.
  split.
  - apply NoDup_fresh_middle; rewrite <- E, fmap_app.
    + apply NoDup_app. split; [exact Hnd1|]. split; [exact H12|exact Hnd2].
    + apply not_elem_of_app. split; assumption.
  - assert (Hfm : Forall (fun a => (a < k)%nat) (m1 ++ m2).*1).
    { rewrite <- E, fmap_app. apply Forall_app. split; assumption. }
    rewrite fmap_app in Hfm. apply Forall_app in Hfm.
    destruct Hfm as [Hm1 Hm2].
    rewrite fmap_app, fmap_cons. apply Forall_app. split; [exact Hm1|].
    constructor; [exact Hc|exact Hm2].
Qed.

(** The indices of a move: the song at [from_index] and the two parts
    of the rest around [to_index]. *)
Lemma split_move (l : list (addr * Song)) (from_index to_index : Z) :
  0 <= from_index < Z.of_nat (length l) ->
  0 <= to_index < Z.of_nat (length l) ->
  exists l1 c s l2 m1 m2,
    l = l1 ++ (c, s) :: l2 /\ from_index = Z.of_nat (length l1) /\
    l1 ++ l2 = m1 ++ m2 /\ to_index = Z.of_nat (length m1).
Proof.
  intros Hi Hj.
  destruct (split_at l from_index Hi) as (l1 & c & s & l2 & -> & ->).
  exists l1, c, s, l2, (take (Z.to_nat to_index) (l1 ++ l2)),
    (drop (Z.to_nat to_index) (l1 ++ l2)).
  split; [reflexivity|]. split; [reflexivity|].
  split; [symmetry; apply take_drop|].
  rewrite length_take. rewrite length_app in Hj |- *. simpl in Hj. lia.
Qed.

Lemma move_song_unfold p from_index to_index d :
  dll_move_song (playlist p) from_index to_index = inr d ->
  move_song p from_index to_index
  = inr (with_logger (with_list p d)
           (log_action (action_logger p) "move"
              (UndoMove from_index to_index))).
Proof. intros H. unfold move_song. rewrite H. reflexivity. Qed.

(** X8.  On a well-formed playlist [move_song] with both indices valid
    never raises: the sequence afterwards is the old one with the song
    at [from_index] taken out and put in again at [to_index], the size
    is unchanged and one "move" entry is logged.  The list is well
    formed again when the indices are equal or [to_index] is not the
    last index.  With an index out of range it raises [IndexError]. *)
Theorem move_song_relocates (p : Playlist) (l : list (addr * Song))
    (from_index to_index : Z) :
  well_formed (playlist p) l ->
  if (0 <=? from_index) && (from_index <? Z.of_nat (length l))
     && (0 <=? to_index) && (to_index <? Z.of_nat (length l))
  then
    exists p',
      move_song p from_index to_index = inr p' /\
      get_all_songs p'
      = inr (relocate l.*2 (Z.to_nat from_index) (Z.to_nat to_index)) /\
      size (playlist p') = size (playlist p) /\
      action_logger p'
      = log_action (action_logger p) "move" (UndoMove from_index to_index) /\
      (from_index = to_index \/ to_index < Z.of_nat (length l) - 1 ->
       exists l',
         well_formed (playlist p') l' /\
         l'.*2 = relocate l.*2 (Z.to_nat from_index) (Z.to_nat to_index))
  else move_song p from_index to_index = inl IndexError.
Proof.
  intros Hwf.
  destruct ((0 <=? from_index) && (from_index <? Z.of_nat (length l))
            && (0 <=? to_index) && (to_index <? Z.of_nat (length l))) eqn:Hi.
  - apply andb_true_iff in Hi. destruct Hi as [Hi H4].
    apply andb_true_iff in Hi. destruct Hi as [Hi H3].
    apply andb_true_iff in Hi. destruct Hi as [H1 H2].
    apply Z.leb_le in H1, H3. apply Z.ltb_lt in H2, H4.
    destruct (split_move l from_index to_index (conj H1 H2) (conj H3 H4))
      as (l1 & c & s & l2 & m1 & m2 & -> & -> & Hm & ->).
    rewrite !Nat2Z.id, (relocate_songs _ _ _ _ c s Hm).
    destruct (decide (length m1 = length l1)) as [E|Hne].
    + (* the same index: nothing moves *)
      destruct (app_inj_1 l1 m1 l2 m2 (eq_sym E) Hm) as [<- <-].
      assert (Hmove : dll_move_song (playlist p) (Z.of_nat (length l1))
                        (Z.of_nat (length l1)) = inr (playlist p)).
      { destruct Hwf as (_ & _ & _ & Hs & _). unfold dll_move_song.
        rewrite (move_in_range l1 l2 l1 l2 _ _ Hs eq_refl), Z.eqb_refl.
        reflexivity. }
      eexists. split; [apply move_song_unfold; exact Hmove|]. simpl.
      split; [apply (well_formed_get_all p); exact Hwf|].
      split; [reflexivity|]. split; [reflexivity|].
      intros _. eexists. split; [exact Hwf|reflexivity].
    + destruct (dll_move_song_spec _ _ _ _ _ _ _ Hwf Hm Hne)
        as (d' & Hmove & Hseg & Hh & Ht & Hs & Hfr).
      destruct Hwf as (_ & _ & _ & Hs0 & Hnd & Hf).
      destruct (moved_addresses _ _ _ _ c s _ Hm Hnd Hf) as [Hnd' Hf'].
      eexists. split; [apply move_song_unfold; exact Hmove|]. simpl.
      split.
      { apply (forward_get_all (with_list p d')); assumption. }
      split; [exact Hs|]. split; [reflexivity|].
      intros [Heq|Hlast]; [apply Nat2Z.inj in Heq; congruence|].
      eexists. split; [|reflexivity].
      unfold well_formed. split; [exact Hseg|]. split; [exact Hh|].
      split.
      { rewrite Ht. destruct m1 as [|y m1]; [reflexivity|].
        destruct m2 as [|[z sz] m2].
        - apply (f_equal length) in Hm.
          rewrite !length_app in Hm, Hlast. simpl in Hm, Hlast.
          rewrite ?length_app in Hm. simpl in Hm. lia.
        - rewrite !last_addr_app, !last_addr_cons. reflexivity. }
      split.
      { rewrite Hs, Hs0. apply (f_equal length) in Hm.
        rewrite !length_app in Hm |- *. simpl. lia. }
      split; [exact Hnd'|]. rewrite Hfr. exact Hf'.
  - destruct Hwf as (_ & _ & _ & Hs & _). unfold move_song, dll_move_song.
    rewrite Hs.
    assert (E : (from_index <? 0) || (Z.of_nat (length l) <=? from_index)
                || (to_index <? 0) || (Z.of_nat (length l) <=? to_index)
                = true).
    { destruct (Z.ltb_spec from_index 0); [reflexivity|].
      destruct (Z.leb_spec (Z.of_nat (length l)) from_index); [reflexivity|].
      destruct (Z.ltb_spec to_index 0); [reflexivity|].
      destruct (Z.leb_spec (Z.of_nat (length l)) to_index); [reflexivity|].
      exfalso.
      replace (0 <=? from_index) with true in Hi
        by (symmetry; apply Z.leb_le; lia).
      replace (from_index <? Z.of_nat (length l)) with true in Hi
        by (symmetry; apply Z.ltb_lt; lia).
      replace (0 <=? to_index) with true in Hi
        by (symmetry; apply Z.leb_le; lia).
      replace (to_index <? Z.of_nat (length l)) with true in Hi
        by (symmetry; apply Z.ltb_lt; lia).
      discriminate. }
    rewrite E. reflexivity.
Qed.

Lemma add_song_list p ttl art dur gnr sid p' :
  add_song p ttl art dur gnr sid = inr (p', None) ->
  dll_add_song (playlist p) (new_song ttl art dur sid gnr)
  = inr (playlist p').
Proof.
  unfold add_song.
  destruct (is_blocked (artist_blocklist p) art); [intros H; inversion H|].
  destruct (lookup_add_song (lookup_map p) (new_song ttl art dur sid gnr))
    as [[e|] m]; [intros H; inversion H|].
  simpl.
  destruct (dll_add_song (playlist p) (new_song ttl art dur sid gnr));
    simpl; intros H; inversion H. reflexivity.
Qed.

(** [add_song] on a list whose [tail] is the node before the last one:
    the new node takes the place of the last one. *)
Lemma dll_add_song_stale d m t ts c s new :
  dseg (nodes d) None (m ++ [(t, ts); (c, s)]) None ->
  head d = first_addr (m ++ [(t, ts); (c, s)]) None ->
  tail d = Some t ->
  NoDup (m ++ [(t, ts); (c, s)]).*1 ->
  Forall (fun a => (a < fresh d)%nat) (m ++ [(t, ts); (c, s)]).*1 ->
  exists d',
    dll_add_song d new = inr d' /\
    dseg (nodes d') None (m ++ [(t, ts); (fresh d, new)]) None /\
    head d' = first_addr (m ++ [(t, ts); (fresh d, new)]) None /\
    size d' = size d + 1 /\
    NoDup (m ++ [(t, ts); (fresh d, new)]).*1.
Proof.
  intros Hd Hh Ht Hnd Hf.
  pose proof (fresh_notin _ _ Hf) as Hfresh.
  rewrite fmap_app in Hnd, Hfresh. simpl in Hnd, Hfresh.
  apply not_elem_of_app in Hfresh. destruct Hfresh as [Ha1 Ha2].
  apply NoDup_app in Hnd. destruct Hnd as (Hnd1 & H12 & Hnd2).
  assert (Hta : t <> fresh d).
  { intros ->. apply Ha2. apply elem_of_cons. left. reflexivity. }
  assert (Htm : t ∉ m.*1).
  { intros Hin. apply (H12 _ Hin). apply elem_of_cons. left. reflexivity. }
  apply dseg_app in Hd. destruct Hd as [Hm [Htn _]]. simpl in Hm, Htn.
  assert (Hhead : exists h, head d = Some h).
  { rewrite Hh. destruct m as [|[h hs] m]; eexists; reflexivity. }
  destruct Hhead as [h Hhead].
  unfold dll_add_song. rewrite Hhead, Ht.
  eexists. split; [reflexivity|]. simpl.
  split; [|split; [|split; [reflexivity|]]].
  - apply dseg_app. split; [|split; [|split; [|exact I]]].
    + simpl. apply dseg_set_prev_frame; [exact Ha1|].
      apply dseg_set_next_frame; [exact Htm|].
      apply dseg_insert_frame; [exact Ha1|]. exact Hm.
    + store. rewrite Htn. reflexivity.
    + store. reflexivity.
  - rewrite <- Hhead, Hh, !first_addr_app. reflexivity.
  - rewrite fmap_app. simpl. apply NoDup_app. split; [exact Hnd1|].
    split.
    + intros a Ha Hin. apply elem_of_cons in Hin. destruct Hin as [->|Hin].
      * contradiction.
      * apply list_elem_of_singleton in Hin. subst a. contradiction.
    + apply NoDup_cons. split; [|apply NoDup_singleton].
      intros Hin. apply list_elem_of_singleton in Hin. contradiction.
Qed.

(** X9.  Moving a song of a well-formed playlist to the last index
    leaves [tail] on the node before it, and the next accepted
    [add_song] links the new song after that node: the moved song is
    no longer in the sequence, which reads the old one without it
    followed by the new song, while [size] counts one more than the
    sequence holds. *)
Theorem move_to_end_then_add (p p1 p2 : Playlist) (l : list (addr * Song))
    (from_index : Z) (ttl art : string) (dur : Z) (gnr sid : option string) :
  well_formed (playlist p) l ->
  0 <= from_index < Z.of_nat (length l) - 1 ->
  move_song p from_index (Z.of_nat (length l) - 1) = inr p1 ->
  add_song p1 ttl art dur gnr sid = inr (p2, None) ->
  get_all_songs p2
  = inr (delete (Z.to_nat from_index) l.*2 ++ [new_song ttl art dur sid gnr])
  /\ size (playlist p2) = Z.of_nat (length l) + 1.
Proof.
  intros Hwf Hi Hmove Hadd.
  destruct (split_at l from_index) as (l1 & c & s & l2 & -> & ->); [lia|].
  rewrite length_app in Hi. simpl in Hi.
  destruct (dll_move_song_spec _ _ _ _ _ (l1 ++ l2) [] Hwf)
    as (d1 & Hm & Hseg & Hh & Ht & Hs & Hfr).
  { rewrite app_nil_r. reflexivity. }
  { rewrite length_app. lia. }
  destruct Hwf as (_ & _ & _ & Hs0 & Hnd & Hf).
  destruct (moved_addresses l1 l2 (l1 ++ l2) [] c s _
              (eq_sym (app_nil_r _)) Hnd Hf) as [Hnd1 Hf1].
  replace (Z.of_nat (length (l1 ++ (c, s) :: l2)) - 1)
    with (Z.of_nat (length (l1 ++ l2))) in Hmove
    by (rewrite !length_app; simpl; lia).
  rewrite (move_song_unfold _ _ _ _ Hm) in Hmove. inversion Hmove; subst p1.
  apply add_song_list in Hadd. simpl in Hadd.
  rewrite Nat2Z.id, fmap_app, fmap_cons.
  rewrite <- (length_fmap snd l1), delete_middle, <- fmap_app.
  assert (Hrest : exists m t ts, l1 ++ l2 = m ++ [(t, ts)]).
  { destruct l2 as [|[t ts] l2' _] using rev_ind; [simpl in Hi; lia|].
    exists (l1 ++ l2'), t, ts. apply app_assoc. }
  destruct Hrest as (m & t & ts & Hrest).
  rewrite Hrest in *. clear Hrest.
  assert (Ht' : tail d1 = Some t).
  { rewrite Ht. destruct m as [|y m']; [reflexivity|].
    change (last_addr None (((y :: m') ++ [(t, ts)]) ++ []) = Some t).
    rewrite app_nil_r. apply last_addr_snoc. }
  rewrite <- app_assoc in Hseg, Hh, Hnd1, Hf1. simpl in Hseg, Hh, Hnd1, Hf1.
  rewrite <- Hfr in Hf1.
  destruct (dll_add_song_stale d1 m t ts c s (new_song ttl art dur sid gnr)
              Hseg Hh Ht' Hnd1 Hf1) as (d2 & Hadd2 & Hseg2 & Hh2 & Hs2 & Hnd2).
  rewrite Hadd2 in Hadd. inversion Hadd as [E].
  split.
  - rewrite (forward_get_all p2 (m ++ [(t, ts); (fresh d1, new_song ttl art dur sid gnr)]));
      rewrite <- ?E; try assumption.
    rewrite !fmap_app. simpl. rewrite <- app_assoc. reflexivity.
  - rewrite <- E, Hs2, Hs, Hs0. reflexivity.
Qed.

End WithLibrary.

Lemma reverse_playlist_reverses_witness :
  exists p', reverse_playlist abc = inr p' /\ titles p' = inr ["C"; "B"; "A"].
Proof.
  destruct (reverse_playlist_reverses abc abc_nodes abc_well_formed)
    as (p' & Hrev & _ & Hget & _).
  exists p'. split; [exact Hrev|]. unfold titles. rewrite Hget. reflexivity.
Defined.

Lemma reverse_then_undo_witness :
  exists p1 p2,
    reverse_playlist abc = inr p1 /\
    undo_last_n_actions p1 1 = inr (p2, ["reverse"]) /\
    titles p2 = inr ["A"; "B"; "C"].
Proof.
  destruct (reverse_then_undo abc abc_nodes abc_well_formed)
    as (p1 & p2 & Hrev & Hundo & _ & Hget & _).
  - vm_compute. lia.
  - exists p1, p2. split; [exact Hrev|]. split; [exact Hundo|].
    unfold titles. rewrite Hget. reflexivity.
Defined.

Lemma move_song_relocates_witness :
  (exists p',
     move_song abc 2 0 = inr p' /\ titles p' = inr ["C"; "A"; "B"] /\
     size (playlist p') = 3) /\
  (exists p', move_song abc 0 2 = inr p' /\ titles p' = inr ["B"; "C"; "A"]) /\
  move_song abc 0 3 = inl IndexError.
Proof.
  split; [|split].
  - destruct (move_song_relocates abc abc_nodes 2 0 abc_well_formed)
      as (p' & Hmove & Hget & Hsize & _).
    exists p'. split; [exact Hmove|]. unfold titles. rewrite Hget.
    split; [reflexivity|]. rewrite Hsize. reflexivity.
  - destruct (move_song_relocates abc abc_nodes 0 2 abc_well_formed)
      as (p' & Hmove & Hget & _).
    exists p'. split; [exact Hmove|]. unfold titles. rewrite Hget.
    reflexivity.
  - exact (move_song_relocates abc abc_nodes 0 3 abc_well_formed).
Defined.

Lemma move_to_end_then_add_witness :
  move_song abc 0 2 = inr moved /\
  titles moved = inr ["B"; "C"; "A"] /\
  add_song moved "D" "artist" 180 None (Some "4") = inr (moved_added, None) /\
  titles moved_added = inr ["B"; "C"; "D"] /\
  size (playlist moved_added) = 4.
Proof.
  assert (Hmove : move_song abc 0 2 = inr moved) by (vm_compute; reflexivity).
  assert (Hadd : add_song moved "D" "artist" 180 None (Some "4")
                 = inr (moved_added, None)) by (vm_compute; reflexivity).
  destruct (move_to_end_then_add abc moved moved_added abc_nodes 0
              "D" "artist" 180 None (Some "4") abc_well_formed)
    as [Hget Hsize].
  - simpl. lia.
  - exact Hmove.
  - exact Hadd.
  - split; [exact Hmove|]. split; [vm_compute; reflexivity|].
    split; [exact Hadd|]. unfold titles. rewrite Hget.
    split; [reflexivity|exact Hsize].
Defined.

End PlaylistOrder.
(** ** Proofs: the lookup map, the blocklist and the playlist shuffle *)
Module PlaylistIndex.
Import Songs Playlists PlaylistProofs PlaylistMore PlaylistOrder.

Section WithLibrary.
Context {str_methods : StrMethods}.

(** *** The lookup map *)

(** An accepted [add_song] of the lookup map: the maps after it. *)
Lemma lookup_add_song_accepted m s m' :
  lookup_add_song m s = (None, m') ->
  id_map m' = match song_id s with
              | Some sid => <[sid := s]> (id_map m)
              | None => id_map m
              end /\
  title_map m' = <[title s := s]> (title_map m) /\
  enable_dedupe m' = enable_dedupe m /\
  match active_cleaner m with
  | Some dc =>
      active_cleaner m'
      = Some (register dc (song_id s) (title s) (artist s))
  | None => active_cleaner m' = None
  end.
Proof.
  unfold lookup_add_song, active_cleaner, cleanup_on_add.
  destruct m as [ids titles enable cleaner]. simpl.
  destruct enable; [|intros H; inversion H; simpl; auto].
  destruct cleaner as [dc|]; [|intros H; inversion H; simpl; auto].
  destruct (key_to_song_id dc !! _make_key (title s) (artist s)) as [[e|]|];
    destruct (String.eqb (keep dc) "first"); simpl; intros H;
    inversion H; simpl; repeat split; auto;
    unfold register; simpl; rewrite ?insert_insert_eq; reflexivity.
Qed.

(** X24.  A song with an id that the lookup map accepts is found by
    its id and by its title; [remove_song] of that id then returns
    [True] and the song is found by neither; and the same song is
    accepted again afterwards, whatever the dedupe settings. *)
Theorem lookup_add_remove_add (m m1 : SongLookupMap) (s : Song)
    (sid : string) :
  song_id s = Some sid ->
  lookup_add_song m s = (None, m1) ->
  lookup_song_by_id m1 sid = Some s /\
  lookup_song_by_title m1 (title s) = Some s /\
  exists m2,
    lookup_remove_song m1 sid = (true, m2) /\
    lookup_song_by_id m2 sid = None /\
    lookup_song_by_title m2 (title s) = None /\
    (lookup_add_song m2 s).1 = None.
Proof.
  intros Hid Hadd.
  destruct (lookup_add_song_accepted _ _ _ Hadd) as (Hids & Htitles & Hen & Hcl).
  rewrite Hid in Hids.
  unfold lookup_song_by_id, lookup_song_by_title.
  split; [rewrite Hids; apply lookup_insert_eq|].
  split; [rewrite Htitles; apply lookup_insert_eq|].
  unfold lookup_remove_song.
  rewrite Hids, lookup_insert_eq, Htitles, lookup_insert_eq.
  eexists. split; [reflexivity|]. simpl.
  split; [apply lookup_delete_eq|]. split; [apply lookup_delete_eq|].
  unfold lookup_add_song, cleanup_on_add. simpl.
  destruct (active_cleaner m) as [dc|] eqn:Hdc.
  - rewrite Hcl. unfold active_cleaner at 1. simpl.
    rewrite Hen. unfold active_cleaner in Hdc.
    destruct (enable_dedupe m); [|discriminate]. simpl.
    rewrite lookup_delete_eq. reflexivity.
  - rewrite Hcl. unfold active_cleaner at 1. simpl.
    assert (E : (if enable_dedupe m1 then @None DuplicateCleaner else None)
                = None) by (destruct (enable_dedupe m1); reflexivity).
    unfold active_cleaner in Hcl.
    destruct (enable_dedupe m1) eqn:He1.
    + rewrite Hcl. reflexivity.
    + reflexivity.
Qed.

(** X25.  The title map keeps one song per title.  When two accepted
    songs with different ids share a title, the title finds the later
    one; removing the earlier one by its id then deletes the title
    entry, so that the later song, still found by its id, is no longer
    found by its title. *)
Theorem shared_title_is_forgotten (m m1 m2 : SongLookupMap) (s1 s2 : Song)
    (i1 i2 : string) :
  song_id s1 = Some i1 -> song_id s2 = Some i2 -> i1 <> i2 ->
  title s1 = title s2 ->
  lookup_add_song m s1 = (None, m1) ->
  lookup_add_song m1 s2 = (None, m2) ->
  lookup_song_by_title m2 (title s2) = Some s2 /\
  exists m3,
    lookup_remove_song m2 i1 = (true, m3) /\
    lookup_song_by_id m3 i2 = Some s2 /\
    lookup_song_by_title m3 (title s2) = None.
Proof.
  intros H1 H2 Hne Ht Ha1 Ha2.
  destruct (lookup_add_song_accepted _ _ _ Ha1) as (Hids1 & Htitles1 & _).
  destruct (lookup_add_song_accepted _ _ _ Ha2) as (Hids2 & Htitles2 & _).
  rewrite H1 in Hids1. rewrite H2 in Hids2.
  unfold lookup_song_by_id, lookup_song_by_title.
  split; [rewrite Htitles2; apply lookup_insert_eq|].
  unfold lookup_remove_song.
  assert (E1 : id_map m2 !! i1 = Some s1).
  { rewrite Hids2, lookup_insert_ne by congruence.
    rewrite Hids1. apply lookup_insert_eq. }
  rewrite E1, Ht, Htitles2, lookup_insert_eq.
  eexists. split; [reflexivity|]. simpl. split.
  - rewrite lookup_delete_ne by exact Hne. rewrite Hids2.
    apply lookup_insert_eq.
  - apply lookup_delete_eq.
Qed.

(** *** Policies other than 'first' *)

Lemma lookup_add_song_accepts m s :
  (forall dc, active_cleaner m = Some dc -> keep dc <> "first") ->
  (lookup_add_song m s).1 = None.
Proof.
  intros Hk. unfold lookup_add_song, cleanup_on_add.
  destruct (active_cleaner m) as [dc|] eqn:Hdc; [|reflexivity].
  specialize (Hk dc eq_refl).
  destruct (key_to_song_id dc !! _make_key (title s) (artist s)) as [e|];
    [|reflexivity].
  replace (String.eqb (keep dc) "first") with false; [reflexivity|].
  symmetry. apply String.eqb_neq. exact Hk.
Qed.

(** X26.  With duplicate detection off, or on under any policy other
    than 'first' (such as 'latest'), [add_song] for an artist that is
    not blocked never rejects: on a well-formed playlist the song is
    appended even when its title and artist are already there, and the
    earlier occurrences stay in the sequence. *)
Theorem add_song_without_first_policy (p : Playlist)
    (l : list (addr * Song)) (ttl art : string) (dur : Z)
    (gnr sid : option string) :
  well_formed (playlist p) l ->
  (forall dc, active_cleaner (lookup_map p) = Some dc -> keep dc <> "first") ->
  is_blocked (artist_blocklist p) art = false ->
  exists p',
    add_song p ttl art dur gnr sid = inr (p', None) /\
    get_all_songs p' = inr (l.*2 ++ [new_song ttl art dur sid gnr]).
Proof.
  intros Hwf Hk Hb.
  pose proof (lookup_add_song_accepts (lookup_map p)
                (new_song ttl art dur sid gnr) Hk) as Hacc.
  destruct (add_song_total p l ttl art dur gnr sid Hwf) as (p' & r & Hadd).
  assert (Hr : r = None).
  { unfold add_song in Hadd. rewrite Hb in Hadd.
    destruct (lookup_add_song (lookup_map p) (new_song ttl art dur sid gnr))
      as [[e|] m0]; [simpl in Hacc; discriminate|].
    simpl in Hadd.
    destruct (dll_add_song (playlist p) (new_song ttl art dur sid gnr));
      simpl in Hadd; inversion Hadd. reflexivity. }
  subst r. exists p'. split; [exact Hadd|].
  destruct (add_song_accepted _ _ _ _ _ _ _ _ Hwf Hadd) as (Hwf' & _).
  rewrite (well_formed_get_all _ _ Hwf'), fmap_app. reflexivity.
Qed.

(** *** The blocklist *)

(** X27.  The blocklist keeps and compares normalized names: once
    [a] is blocked, [b] is blocked exactly when its normalized name
    ([strip], then [lower]) is that of [a], or [b] was blocked before.
    So [add_song] with any spelling that normalizes to the blocked name
    returns "BLOCKED_ARTIST" and leaves the playlist as it was. *)
Theorem blocked_artist_variants (p : Playlist) (a b ttl : string)
    (dur : Z) (gnr sid : option string) :
  (is_blocked (artist_blocklist (block p a)) b = true <->
   _normalize_artist b = _normalize_artist a \/
   is_blocked (artist_blocklist p) b = true) /\
  (_normalize_artist b = _normalize_artist a ->
   add_song (block p a) ttl b dur gnr sid
   = inr (block p a, Some "BLOCKED_ARTIST")).
Proof.
  assert (E : is_blocked (artist_blocklist (block p a)) b = true <->
              _normalize_artist b = _normalize_artist a \/
              is_blocked (artist_blocklist p) b = true).
  { unfold is_blocked, block, blocklist_add_artist. simpl.
    rewrite !bool_decide_eq_true, elem_of_union, elem_of_singleton.
    reflexivity. }
  split; [exact E|].
  intros Hn. unfold add_song.
  rewrite (proj2 E (or_introl Hn)). reflexivity.
Qed.

(** *** Shuffling the playlist *)

Lemma lookup_remove_song_keeps m sid :
  active_cleaner m = None ->
  active_cleaner (lookup_remove_song m sid).2 = None.
Proof.
  intros H. unfold lookup_remove_song.
  destruct (id_map m !! sid) as [s|]; [|exact H].
  destruct (title_map m !! title s); simpl.
  - rewrite H. exact H.
  - exact H.
Qed.

Lemma delete_song_keeps p index p1 :
  delete_song p index = inr p1 ->
  artist_blocklist p1 = artist_blocklist p /\
  (active_cleaner (lookup_map p) = None ->
   active_cleaner (lookup_map p1) = None).
Proof.
  unfold delete_song.
  destruct ((index <? 0) || (size (playlist p) <=? index)); [discriminate|].
  destruct (walk (nodes (playlist p)) (head (playlist p)) (Z.to_nat index))
    as [e|current]; simpl; [discriminate|].
  destruct (node_at (nodes (playlist p)) current) as [e|n]; simpl;
    [discriminate|].
  destruct (song_id (song n)) as [i|]; simpl.
  - destruct (dll_delete_song (playlist p) index) as [e|d]; simpl;
      [discriminate|].
    intros H. inversion H. simpl. split; [reflexivity|].
    apply lookup_remove_song_keeps.
  - destruct (dll_delete_song (playlist p) index) as [e|d]; simpl;
      [discriminate|].
    intros H. inversion H. simpl. split; [reflexivity|]. auto.
Qed.

(** The clearing loop empties a well-formed playlist and logs one
    "delete" per song. *)
Lemma clear_loop_spec l : forall p fuel,
  well_formed (playlist p) l -> (length l <= fuel)%nat ->
  exists p',
    clear_loop fuel p = inr p' /\
    well_formed (playlist p') [] /\
    artist_blocklist p' = artist_blocklist p /\
    (active_cleaner (lookup_map p) = None ->
     active_cleaner (lookup_map p') = None) /\
    action_logger p' = log_deletes (action_logger p) l.*2.
Proof.
  induction l as [|[c s] rest IH]; intros p fuel Hwf Hfuel.
  - exists p. destruct Hwf as (Hd & Hh & Hrest).
    assert (E : is_empty p = true) by (unfold is_empty; rewrite Hh; reflexivity).
    split; [destruct fuel; simpl; rewrite E; reflexivity|].
    split; [split; [exact Hd|split; [exact Hh|exact Hrest]]|].
    split; [reflexivity|]. split; [auto|reflexivity].
  - destruct fuel as [|fuel]; [simpl in Hfuel; lia|].
    destruct (delete_song_spec p [] c s rest Hwf)
      as (p1 & Hdel & Hwf1 & _ & Hlog1).
    simpl in Hdel, Hwf1, Hlog1. change (Z.of_nat 0) with 0 in Hdel, Hlog1.
    destruct (delete_song_keeps _ _ _ Hdel) as [Hb1 Hc1].
    destruct (IH p1 fuel Hwf1) as (p' & Hloop & Hwf' & Hb' & Hc' & Hlog').
    { simpl in Hfuel. lia. }
    destruct Hwf as (_ & Hh & _).
    assert (E : is_empty p = false) by (unfold is_empty; rewrite Hh; reflexivity).
    exists p'. simpl. rewrite E, Hdel. simpl.
    split; [exact Hloop|]. split; [exact Hwf'|].
    split; [rewrite Hb'; exact Hb1|]. split; [auto|].
    rewrite Hlog', Hlog1. reflexivity.
Qed.

(** One [add_existing_song] on a well-formed playlist: it never raises,
    and appends the song or changes nothing in the list. *)
Lemma add_existing_song_any m l s :
  well_formed (playlist m) l ->
  exists m' r l',
    add_existing_song m s = inr (m', r) /\
    well_formed (playlist m') (l ++ l') /\
    l'.*2 `sublist_of` [s] /\
    artist_blocklist m' = artist_blocklist m /\
    action_logger m' = action_logger m /\
    (artist_blocklist m = ∅ -> active_cleaner (lookup_map m) = None ->
     l'.*2 = [s] /\ active_cleaner (lookup_map m') = None).
Proof.
  intros Hwf. unfold add_existing_song.
  destruct (is_blocked (artist_blocklist m) (artist s)) eqn:Hb.
  { exists m, (Some "BLOCKED_ARTIST"), []. rewrite app_nil_r.
    split; [reflexivity|]. split; [exact Hwf|].
    split; [apply sublist_nil_l|]. split; [reflexivity|].
    split; [reflexivity|]. intros He _. rewrite He, is_blocked_empty in Hb.
    discriminate. }
  destruct (lookup_add_song (lookup_map m) s) as [[e|] m0] eqn:Hadd.
  { pose proof Hadd as Hadd0.
    apply lookup_add_song_rejects in Hadd. subst m0.
    rewrite with_lookup_same.
    exists m, (Some e), []. rewrite app_nil_r.
    split; [reflexivity|]. split; [exact Hwf|].
    split; [apply sublist_nil_l|]. split; [reflexivity|].
    split; [reflexivity|]. intros _ Hc. exfalso.
    pose proof (lookup_add_song_accepts (lookup_map m) s) as Hacc.
    rewrite Hadd0 in Hacc. simpl in Hacc.
    assert (Hn : Some e = None)
      by (apply Hacc; intros dc Hdc; rewrite Hc in Hdc; discriminate).
    discriminate. }
  simpl.
  destruct (dll_add_song_spec _ _ s Hwf) as (d' & Hd & Hwf' & _).
  rewrite Hd. simpl.
  exists (with_list (with_lookup m m0) d'), None, [(fresh (playlist m), s)].
  split; [reflexivity|]. split; [exact Hwf'|]. split; [reflexivity|].
  split; [reflexivity|]. split; [reflexivity|].
  intros _ Hc. split; [reflexivity|]. simpl.
  pose proof (lookup_add_song_accepted _ _ _ Hadd) as (_ & _ & _ & Hcl).
  rewrite Hc in Hcl. exact Hcl.
Qed.

Lemma readd_loop songs : forall m l,
  well_formed (playlist m) l ->
  exists m' l',
    for_each (fun m s => do r <- add_existing_song m s; ret r.1) songs m
    = inr m' /\
    well_formed (playlist m') (l ++ l') /\
    l'.*2 `sublist_of` songs /\
    action_logger m' = action_logger m /\
    (artist_blocklist m = ∅ -> active_cleaner (lookup_map m) = None ->
     l'.*2 = songs).
Proof.
  induction songs as [|s rest IH]; intros m l Hwf.
  - exists m, []. rewrite app_nil_r. split; [reflexivity|].
    split; [exact Hwf|]. split; [reflexivity|]. split; [reflexivity|].
    intros _ _. reflexivity.
  - destruct (add_existing_song_any m l s Hwf)
      as (m1 & r & l1 & Hadd & Hwf1 & Hsub1 & Hb1 & Hlog1 & Hall1).
    destruct (IH m1 (l ++ l1) Hwf1) as (m' & l2 & Hloop & Hwf' & Hsub2 & Hlog2 & Hall2).
    exists m', (l1 ++ l2). simpl. rewrite Hadd. simpl.
    split; [exact Hloop|]. split; [rewrite app_assoc; exact Hwf'|].
    split.
    { rewrite fmap_app. change (s :: rest) with ([s] ++ rest).
      apply sublist_app; assumption. }
    split; [rewrite Hlog2; exact Hlog1|].
    intros He Hc. destruct (Hall1 He Hc) as [E1 Hc1].
    rewrite fmap_app, E1, Hall2; [reflexivity| |exact Hc1].
    rewrite Hb1. exact He.
Qed.

Lemma shuffle_with_constraints_perm cap g songs :
  (Shuffle.shuffle_with_constraints cap g songs).1 ≡ₚ songs.
Proof.
  unfold Shuffle.shuffle_with_constraints.
  destruct (length songs <=? 1)%nat; [reflexivity|].
  destruct (negb (Shuffle._is_arrangement_possible songs));
    [apply ShuffleProofs.shuffle_perm|apply ShuffleProofs.attempts_perm].
Qed.

(** X28.  On a well-formed playlist [shuffle_with_artist_constraints]
    never raises and returns what the shuffler makes of the playlist's
    songs, a permutation of them.  It empties the playlist through
    [delete_song(0)], which logs one "delete" per song, and offers the
    shuffled songs to [add_existing_song], which logs nothing: the
    playlist afterwards is well formed and holds, in the returned
    order, those of the songs that were accepted, all of them when no
    artist is blocked and duplicate detection is off. *)
Theorem shuffle_with_artist_constraints_spec (p : Playlist)
    (l : list (addr * Song)) (g : Shuffle.Rng) :
  well_formed (playlist p) l ->
  exists p' l',
    shuffle_with_artist_constraints p g
    = inr (p',
           (Shuffle.shuffle_with_constraints (constrained_shuffler p) g l.*2).1,
           (Shuffle.shuffle_with_constraints (constrained_shuffler p) g l.*2).2)
    /\
    (Shuffle.shuffle_with_constraints (constrained_shuffler p) g l.*2).1
    ≡ₚ l.*2 /\
    well_formed (playlist p') l' /\
    get_all_songs p' = inr l'.*2 /\
    l'.*2 `sublist_of`
      (Shuffle.shuffle_with_constraints (constrained_shuffler p) g l.*2).1 /\
    (artist_blocklist p = ∅ -> active_cleaner (lookup_map p) = None ->
     l'.*2
     = (Shuffle.shuffle_with_constraints (constrained_shuffler p) g l.*2).1) /\
    action_logger p' = log_deletes (action_logger p) l.*2.
Proof.
  intros Hwf. unfold shuffle_with_artist_constraints.
  rewrite (well_formed_get_all _ _ Hwf). simpl.
  destruct (Shuffle.shuffle_with_constraints (constrained_shuffler p) g l.*2)
    as [shuffled g'] eqn:Hsh.
  assert (Hperm : shuffled ≡ₚ l.*2).
  { change shuffled with (shuffled, g').1. rewrite <- Hsh.
    apply shuffle_with_constraints_perm. }
  destruct (clear_loop_spec l p (base.size (nodes (playlist p))) Hwf)
    as (p1 & Hclear & Hwf1 & Hb1 & Hc1 & Hlog1).
  { destruct Hwf as (Hd & _ & _ & _ & Hnd & _). eapply dseg_size; eassumption. }
  rewrite Hclear. simpl.
  destruct (readd_loop shuffled p1 [] Hwf1)
    as (p' & l' & Hloop & Hwf' & Hsub & Hlog' & Hall).
  rewrite Hloop. simpl. simpl in Hwf'.
  exists p', l'. split; [reflexivity|]. split; [exact Hperm|].
  split; [exact Hwf'|].
  split; [apply well_formed_get_all; exact Hwf'|].
  split; [exact Hsub|].
  split; [intros He Hc; apply Hall; [rewrite Hb1; exact He|auto]|].
  rewrite Hlog'. exact Hlog1.
Qed.

(** *** Undoing a move *)

Lemma dll_move_song_same d l (i : Z) :
  well_formed d l -> 0 <= i < Z.of_nat (length l) ->
  dll_move_song d i i = inr d.
Proof.
  intros (_ & _ & _ & Hs & _) Hi. unfold dll_move_song. rewrite Hs.
  replace ((i <? 0) || (Z.of_nat (length l) <=? i) || (i <? 0)
           || (Z.of_nat (length l) <=? i)) with false.
  - rewrite Z.eqb_refl. reflexivity.
  - symmetry. repeat (apply orb_false_iff; split);
      first [apply Z.ltb_ge; lia | apply Z.leb_gt; lia].
Qed.

(** Unlinking a node that has no successor does not read [tail]. *)
Lemma unlink_last ns fr hd t t' sz c n :
  ns !! c = Some n -> next n = None ->
  unlink (mkDLL ns fr hd t sz) (Some c) = unlink (mkDLL ns fr hd t' sz) (Some c).
Proof.
  intros Hc Hn. unfold unlink. simpl. rewrite Hc. simpl.
  destruct (prev n) as [a|] eqn:Ea.
  - rewrite lookup_set_next. destruct (decide (a = c)) as [->|Hac].
    + rewrite Hc. simpl. rewrite Hn. reflexivity.
    + rewrite Hc. simpl. rewrite Hn. reflexivity.
  - rewrite Hc. simpl. rewrite Hn. reflexivity.
Qed.

Lemma dll_move_song_last ns fr hd t t' sz (i j : Z) c n :
  walk ns hd (Z.to_nat i) = inr (Some c) ->
  ns !! c = Some n -> next n = None -> i <> j ->
  dll_move_song (mkDLL ns fr hd t sz) i j
  = dll_move_song (mkDLL ns fr hd t' sz) i j.
Proof.
  intros Hw Hc Hn Hij. unfold dll_move_song. simpl.
  destruct ((i <? 0) || (sz <=? i) || (j <? 0) || (sz <=? j)); [reflexivity|].
  replace (i =? j) with false by (symmetry; apply Z.eqb_neq; exact Hij).
  rewrite Hw. simpl. rewrite (unlink_last ns fr hd t t' sz c n Hc Hn).
  reflexivity.
Qed.

(** The list after a move, with [tail] set to the last node. *)
Lemma moved_well_formed d d' (l1 l2 m1 m2 : list (addr * Song)) c s :
  well_formed d (l1 ++ (c, s) :: l2) ->
  l1 ++ l2 = m1 ++ m2 ->
  dseg (nodes d') None (m1 ++ (c, s) :: m2) None ->
  head d' = first_addr (m1 ++ (c, s) :: m2) None ->
  size d' = size d -> fresh d' = fresh d ->
  well_formed
    (mkDLL (nodes d') (fresh d') (head d')
       (last_addr None (m1 ++ (c, s) :: m2)) (size d'))
    (m1 ++ (c, s) :: m2).
Proof.
  intros (_ & _ & _ & Hs & Hnd & Hf) Hm Hseg Hh Hsz Hfr.
  destruct (moved_addresses _ _ _ _ c s _ Hm Hnd Hf) as [Hnd' Hf'].
  unfold well_formed. simpl. split; [exact Hseg|]. split; [exact Hh|].
  split; [reflexivity|]. split.
  - rewrite Hsz, Hs. apply (f_equal length) in Hm.
    rewrite !length_app in Hm |- *. simpl. lia.
  - split; [exact Hnd'|]. rewrite Hfr. exact Hf'.
Qed.

(** X30.  After [move_song] with both indices valid on a well-formed
    playlist whose log keeps at least one action,
    [undo_last_n_actions(1)] reports ["move"] and brings the old sequence
    back, also when the move had left [tail] on the wrong node; the
    list is well formed again unless the song came from the last index
    (the undo then moves it back to the end, which leaves [tail] one
    node short). *)
Theorem move_then_undo (p : Playlist) (l : list (addr * Song))
    (from_index to_index : Z) :
  well_formed (playlist p) l ->
  (1 <= _max_history (action_logger p))%nat ->
  0 <= from_index < Z.of_nat (length l) ->
  0 <= to_index < Z.of_nat (length l) ->
  exists p1 p2,
    move_song p from_index to_index = inr p1 /\
    undo_last_n_actions p1 1 = inr (p2, ["move"]) /\
    get_all_songs p2 = inr l.*2 /\
    (from_index = to_index \/ from_index < Z.of_nat (length l) - 1 ->
     well_formed (playlist p2) l).
Proof.
  intros Hwf Hcap Hi Hj.
  destruct (split_move l from_index to_index Hi Hj)
    as (l1 & c & s & l2 & m1 & m2 & -> & -> & Hm & ->).
  destruct (pop_logged (action_logger p) "move"
              (UndoMove (Z.of_nat (length l1)) (Z.of_nat (length m1))) Hcap)
    as [h Hpop].
  destruct (decide (length m1 = length l1)) as [E|Hne].
  - (* nothing moves, and nothing moves back *)
    rewrite E in *.
    pose proof (dll_move_song_same _ _ (Z.of_nat (length l1)) Hwf Hi) as Hsame.
    eexists _, _. split; [apply move_song_unfold; exact Hsame|].
    split.
    { apply (undo_one _ (mkAction "move"
                           (UndoMove (Z.of_nat (length l1))
                              (Z.of_nat (length l1))))
               (mkLogger h (_max_history (action_logger p))));
        [exact Hpop|]. simpl. rewrite Hsame. reflexivity. }
    simpl. split; [apply (well_formed_get_all p); exact Hwf|].
    intros _. exact Hwf.
  - destruct (dll_move_song_spec _ _ _ _ _ _ _ Hwf Hm Hne)
      as (d1 & Hmove & Hseg & Hh & Ht & Hs & Hfr).
    pose proof (moved_well_formed _ d1 _ _ _ _ c s Hwf Hm Hseg Hh Hs Hfr)
      as Hwf1.
    assert (Hback : dll_move_song d1 (Z.of_nat (length m1))
                      (Z.of_nat (length l1))
                    = dll_move_song
                        (mkDLL (nodes d1) (fresh d1) (head d1)
                           (last_addr None (m1 ++ (c, s) :: m2)) (size d1))
                        (Z.of_nat (length m1)) (Z.of_nat (length l1))).
    { destruct d1 as [ns fr hd tl sz]. simpl in *.
      destruct m2 as [|[z sz'] m2'].
      - apply (dll_move_song_last ns fr hd _ _ sz _ _ c
                 (mkNode s (last_addr None m1) None)).
        + rewrite Nat2Z.id, Hh. apply (walk_dseg _ _ _ _ _ Hseg).
        + apply dseg_app in Hseg. destruct Hseg as [_ [Hc _]]. exact Hc.
        + reflexivity.
        + lia.
      - f_equal. f_equal. rewrite Ht. destruct m1 as [|x m1'].
        + reflexivity.
        + rewrite !last_addr_app, !last_addr_cons. reflexivity. }
    destruct (dll_move_song_spec _ m1 c s m2 l1 l2 Hwf1 (eq_sym Hm)
                (not_eq_sym Hne))
      as (d2 & Hmove2 & Hseg2 & Hh2 & Ht2 & Hs2 & Hfr2).
    rewrite <- Hback in Hmove2. simpl in Hs2, Hfr2.
    destruct Hwf as (_ & _ & _ & Hs0 & Hnd & Hf).
    eexists _, _. split; [apply move_song_unfold; exact Hmove|].
    split.
    { apply (undo_one _ (mkAction "move"
                           (UndoMove (Z.of_nat (length l1))
                              (Z.of_nat (length m1))))
               (mkLogger h (_max_history (action_logger p))));
        [exact Hpop|]. simpl. rewrite Hmove2. reflexivity. }
    simpl. split.
    { apply (forward_get_all
               (with_list
                  (with_logger
                     (with_logger (with_list p d1)
                        (log_action (action_logger p) "move"
                           (UndoMove (Z.of_nat (length l1))
                              (Z.of_nat (length m1)))))
                     (mkLogger h (_max_history (action_logger p)))) d2));
        assumption. }
    intros [Heq|Hlast]; [apply Nat2Z.inj in Heq; congruence|].
    unfold well_formed. split; [exact Hseg2|]. split; [exact Hh2|].
    split.
    { rewrite Ht2. destruct l1 as [|x l1']; [reflexivity|].
      destruct l2 as [|[z sz] l2'].
      - rewrite !length_app in Hlast. simpl in Hlast. lia.
      - rewrite !last_addr_app, !last_addr_cons. reflexivity. }
    split; [rewrite Hs2, Hs; exact Hs0|].
    split; [exact Hnd|]. rewrite Hfr2, Hfr. exact Hf.
Qed.

End WithLibrary.

Lemma shared_title_is_forgotten_witness :
  lookup_song_by_title (lookup_map covers) "Hurt" = Some cover_b /\
  lookup_song_by_id (lookup_remove_song (lookup_map covers) "h1").2 "h2"
  = Some cover_b /\
  lookup_song_by_title (lookup_remove_song (lookup_map covers) "h1").2 "Hurt"
  = None.
Proof.
  destruct (lookup_add_song (new_lookup_map true "first") cover_a)
    as [r1 m1] eqn:E1.
  destruct (lookup_add_song m1 cover_b) as [r2 m2] eqn:E2.
  assert (R1 : r1 = None) by (vm_compute in E1; congruence).
  assert (R2 : r2 = None).
  { vm_compute in E1. injection E1 as _ <-. vm_compute in E2. congruence. }
  subst r1 r2.
  assert (Em : lookup_map covers = m2).
  { vm_compute in E1. injection E1 as <-. vm_compute in E2.
    injection E2 as <-. vm_compute. reflexivity. }
  destruct (shared_title_is_forgotten _ m1 m2 cover_a cover_b "h1" "h2"
              eq_refl eq_refl ltac:(discriminate) eq_refl E1 E2)
    as (Hfind & m3 & Hrem & Hid & Htitle).
  rewrite Em, Hrem. simpl. split; [exact Hfind|]. split; assumption.
Defined.

Lemma lookup_add_remove_add_witness :
  lookup_song_by_id (lookup_add_song (new_lookup_map true "first") cover_a).2
    "h1" = Some cover_a /\
  exists m2,
    lookup_remove_song
      (lookup_add_song (new_lookup_map true "first") cover_a).2 "h1"
    = (true, m2) /\
    (lookup_add_song m2 cover_a).1 = None.
Proof.
  destruct (lookup_add_song (new_lookup_map true "first") cover_a)
    as [r1 m1] eqn:E1.
  assert (R1 : r1 = None) by (vm_compute in E1; congruence).
  subst r1.
  destruct (lookup_add_remove_add _ m1 cover_a "h1" eq_refl E1)
    as (Hid & _ & m2 & Hrem & _ & _ & Hadd).
  simpl. split; [exact Hid|]. exists m2. split; assumption.
Defined.

Lemma latest_well_formed : well_formed (playlist latest) latest_nodes.
Proof.
  unfold well_formed.
  split; [vm_compute; repeat split|].
  split; [vm_compute; reflexivity|]. split; [vm_compute; reflexivity|].
  split; [vm_compute; reflexivity|].
  split; apply (bool_decide_unpack _); vm_compute; exact I.
Defined.

Lemma add_song_without_first_policy_witness :
  exists p',
    add_song latest "a" "ARTIST" 200 None (Some "2") = inr (p', None) /\
    titles p' = inr ["A"; "a"].
Proof.
  destruct (add_song_without_first_policy latest latest_nodes "a" "ARTIST" 200
              None (Some "2") latest_well_formed) as (p' & Hadd & Hget).
  - intros dc Hdc. vm_compute in Hdc. injection Hdc as <-. discriminate.
  - vm_compute. reflexivity.
  - exists p'. split; [exact Hadd|]. unfold titles. rewrite Hget. reflexivity.
Defined.

Lemma blocked_artist_variants_witness :
  _normalize_artist "  QUEEN " = _normalize_artist "Queen" /\
  add_song (block abc "Queen") "D" "  QUEEN " 180 None (Some "4")
  = inr (block abc "Queen", Some "BLOCKED_ARTIST") /\
  is_blocked (artist_blocklist (block abc "Queen")) "Queens" = false.
Proof.
  assert (Hn : _normalize_artist "  QUEEN " = _normalize_artist "Queen")
    by reflexivity.
  split; [exact Hn|]. split.
  - apply (blocked_artist_variants abc "Queen" "  QUEEN " "D" 180 None
             (Some "4")). exact Hn.
  - vm_compute. reflexivity.
Defined.

Lemma plain_well_formed : well_formed (playlist plain) abc_nodes.
Proof.
  unfold well_formed.
  split; [vm_compute; repeat split|].
  split; [vm_compute; reflexivity|]. split; [vm_compute; reflexivity|].
  split; [vm_compute; reflexivity|].
  split; apply (bool_decide_unpack _); vm_compute; exact I.
Defined.

Lemma shuffle_with_artist_constraints_spec_witness :
  exists p' g',
    shuffle_with_artist_constraints plain Shuffle.counting
    = inr (p', [track "C" "3"; track "B" "2"; track "A" "1"], g') /\
    titles p' = inr ["C"; "B"; "A"] /\
    get_action_history p' = ["delete"; "delete"; "delete"] /\
    match shuffle_with_artist_constraints covers Shuffle.counting with
    | inr (q, shuffled, _) =>
        map artist shuffled = ["Johnny Cash"; "Nine Inch Nails"] /\
        titles q = inr ["Hurt"]
    | inl _ => False
    end.
Proof.
  destruct (shuffle_with_artist_constraints_spec plain abc_nodes
              Shuffle.counting plain_well_formed)
    as (p' & l' & Hrun & _ & _ & Hget & _ & Hall & Hlog).
  assert (E : (Shuffle.shuffle_with_constraints (constrained_shuffler plain)
                 Shuffle.counting abc_nodes.*2).1
              = [track "C" "3"; track "B" "2"; track "A" "1"])
    by (vm_compute; reflexivity).
  rewrite E in Hrun, Hall.
  exists p', (Shuffle.shuffle_with_constraints (constrained_shuffler plain)
                Shuffle.counting abc_nodes.*2).2.
  split; [exact Hrun|]. split.
  - unfold titles. rewrite Hget, Hall; [reflexivity| |].
    + vm_compute. reflexivity.
    + vm_compute. reflexivity.
  - split; [unfold get_action_history; rewrite Hlog; vm_compute; reflexivity|].
    vm_compute. split; reflexivity.
Defined.

Lemma move_then_undo_witness :
  exists p1 p2,
    move_song abc 0 2 = inr p1 /\
    titles p1 = inr ["B"; "C"; "A"] /\
    undo_last_n_actions p1 1 = inr (p2, ["move"]) /\
    titles p2 = inr ["A"; "B"; "C"] /\
    well_formed (playlist p2) abc_nodes.
Proof.
  destruct (move_then_undo abc abc_nodes 0 2 abc_well_formed)
    as (p1 & p2 & Hmove & Hundo & Hget & Hwf).
  - vm_compute. lia.
  - simpl. lia.
  - simpl. lia.
  - exists p1, p2. split; [exact Hmove|]. split.
    + assert (E : move_song abc 0 2 = inr moved) by (vm_compute; reflexivity).
      rewrite E in Hmove. injection Hmove as <-. vm_compute. reflexivity.
    + split; [exact Hundo|]. unfold titles. rewrite Hget.
      split; [reflexivity|]. apply Hwf. right. simpl. lia.
Defined.

End PlaylistIndex.
(** ** Proofs: the recently skipped tracker *)
Module SkippedProofs.
Import Skipped RecommendMore.

Lemma skip_songs_snoc cap ids x :
  skip_songs cap (ids ++ [x]) = skip_song (skip_songs cap ids) x.
Proof. unfold skip_songs. rewrite fold_left_app. reflexivity. Qed.

Lemma skip_songs_capacity cap ids : capacity (skip_songs cap ids) = cap.
Proof.
  induction ids as [|x ids IH] using rev_ind; [reflexivity|].
  rewrite skip_songs_snoc. simpl. exact IH.
Qed.

Lemma skip_songs_deque cap ids :
  (1 <= cap)%nat ->
  _deque (skip_songs cap ids) = drop (length ids - cap) ids.
Proof.
  intros Hcap. induction ids as [|x ids IH] using rev_ind; [reflexivity|].
  rewrite skip_songs_snoc. simpl. rewrite skip_songs_capacity, IH.
  rewrite deque_append_window; [|exact Hcap|rewrite length_drop; lia].
  apply drop_window.
Qed.

(** With room for at least one song, the set holds only songs of the
    deque, and all of them when no song was skipped twice. *)
Lemma skip_songs_set cap ids :
  (1 <= cap)%nat ->
  (forall s, s ∈ _set (skip_songs cap ids) -> s ∈ _deque (skip_songs cap ids)) /\
  (NoDup ids ->
   forall s, s ∈ _deque (skip_songs cap ids) -> s ∈ _set (skip_songs cap ids)).
Proof.
  intros Hcap. induction ids as [|x ids IH] using rev_ind.
  - split; [intros s Hs; apply elem_of_empty in Hs; destruct Hs|].
    intros _ s Hs. inversion Hs.
  - destruct IH as [IH1 IH2].
    pose proof (skip_songs_deque cap ids Hcap) as Hd.
    assert (Hlen : (length (_deque (skip_songs cap ids)) <= cap)%nat)
      by (rewrite Hd, length_drop; lia).
    rewrite skip_songs_snoc. unfold skip_song.
    rewrite skip_songs_capacity. simpl.
    destruct (_deque (skip_songs cap ids)) as [|o d0] eqn:Ed.
    + (* an empty deque: nothing is discarded *)
      destruct cap as [|cap]; [lia|]. simpl. split.
      * intros s Hs. apply elem_of_union in Hs. destruct Hs as [Hs|Hs].
        -- apply elem_of_singleton in Hs. subst s. left.
        -- apply IH1 in Hs. inversion Hs.
      * intros _ s Hs. apply list_elem_of_singleton in Hs. subst s.
        apply elem_of_union. left. apply elem_of_singleton. reflexivity.
    + unfold deque_append. destruct cap as [|cap]; [lia|].
      destruct (Nat.eqb_spec (length (o :: d0)) (S cap)) as [Hfull|Hroom].
      * (* a full deque: the oldest song leaves both *)
        replace (length (o :: d0) <? S cap)%nat with false
          by (symmetry; apply Nat.ltb_ge; lia).
        simpl. split.
        -- intros s Hs. apply elem_of_union in Hs. destruct Hs as [Hs|Hs].
           ++ apply elem_of_singleton in Hs. subst s.
              apply elem_of_app. right. left.
           ++ apply elem_of_difference in Hs. destruct Hs as [Hs Hne].
              apply IH1 in Hs. apply elem_of_cons in Hs.
              destruct Hs as [->|Hs].
              ** exfalso. apply Hne. apply elem_of_singleton. reflexivity.
              ** apply elem_of_app. left. exact Hs.
        -- intros Hnd s Hs. apply NoDup_app in Hnd.
           destruct Hnd as (Hnd & _ & _).
           assert (Hndd : NoDup (o :: d0)).
           { rewrite Hd. eapply sublist_NoDup; [exact Hnd|].
             apply sublist_drop. }
           apply NoDup_cons in Hndd. destruct Hndd as [Ho _].
           apply elem_of_app in Hs. destruct Hs as [Hs|Hs].
           ++ apply elem_of_union. right. apply elem_of_difference. split.
              ** apply (IH2 Hnd). right. exact Hs.
              ** intros E. apply elem_of_singleton in E. subst s.
                 contradiction.
           ++ apply list_elem_of_singleton in Hs. subst s.
              apply elem_of_union. left. apply elem_of_singleton. reflexivity.
      * (* room left: nothing is discarded *)
        replace (length (o :: d0) <? S cap)%nat with true
          by (symmetry; apply Nat.ltb_lt; lia).
        split.
        -- intros s Hs. apply elem_of_union in Hs. destruct Hs as [Hs|Hs].
           ++ apply elem_of_singleton in Hs. subst s.
              apply elem_of_app. right. left.
           ++ apply elem_of_app. left. apply IH1. exact Hs.
        -- intros Hnd s Hs. apply NoDup_app in Hnd.
           destruct Hnd as (Hnd & _ & _).
           apply elem_of_app in Hs. destruct Hs as [Hs|Hs].
           ++ apply elem_of_union. right. apply (IH2 Hnd). exact Hs.
           ++ apply list_elem_of_singleton in Hs. subst s.
              apply elem_of_union. left. apply elem_of_singleton. reflexivity.
Qed.

Lemma skip_songs_zero ids :
  _deque (skip_songs 0 ids) = [] /\
  forall s, s ∈ _set (skip_songs 0 ids) <-> s ∈ ids.
Proof.
  induction ids as [|x ids IH] using rev_ind.
  - split; [reflexivity|]. intros s. split; intros H.
    + apply elem_of_empty in H. destruct H.
    + inversion H.
  - destruct IH as [IHd IHs]. rewrite skip_songs_snoc. unfold skip_song.
    rewrite skip_songs_capacity, IHd. simpl. split; [reflexivity|].
    intros s. rewrite elem_of_union, elem_of_singleton, elem_of_app,
      list_elem_of_singleton, IHs. tauto.
Qed.

(** X29.  After any run of [skip_song] calls on a new tracker of
    capacity at least 1, [get_recently_skipped] is the last [capacity]
    skipped songs, oldest first; every song reported by
    [is_recently_skipped] is among them, and when no song was skipped
    twice so is every one of them reported.  With capacity 0 the list
    stays empty while [is_recently_skipped] reports every song ever
    skipped. *)
Theorem skipped_window (cap : nat) (ids : list string) :
  ((1 <= cap)%nat ->
   get_recently_skipped (skip_songs cap ids) = drop (length ids - cap) ids /\
   (forall s, is_recently_skipped (skip_songs cap ids) s = true ->
              s ∈ get_recently_skipped (skip_songs cap ids)) /\
   (NoDup ids ->
    forall s, s ∈ get_recently_skipped (skip_songs cap ids) ->
              is_recently_skipped (skip_songs cap ids) s = true)) /\
  (cap = 0%nat ->
   get_recently_skipped (skip_songs cap ids) = [] /\
   forall s, is_recently_skipped (skip_songs cap ids) s = true <-> s ∈ ids).
Proof.
  unfold get_recently_skipped, is_recently_skipped. split.
  - intros Hcap. split; [apply skip_songs_deque; exact Hcap|].
    destruct (skip_songs_set cap ids Hcap) as [H1 H2]. split.
    + intros s Hs. apply bool_decide_eq_true in Hs. apply H1, Hs.
    + intros Hnd s Hs. apply bool_decide_eq_true. apply (H2 Hnd), Hs.
  - intros ->. destruct (skip_songs_zero ids) as [Hd Hs].
    split; [exact Hd|]. intros s. rewrite bool_decide_eq_true. apply Hs.
Qed.

Lemma skipped_window_witness :
  get_recently_skipped (skip_songs 2 ["a"; "b"; "c"]) = ["b"; "c"] /\
  is_recently_skipped (skip_songs 2 ["a"; "b"; "c"]) "c" = true /\
  get_recently_skipped (skip_songs 0 ["a"; "b"; "c"]) = [].
Proof.
  destruct (skipped_window 2 ["a"; "b"; "c"]) as [H2 _].
  destruct (skipped_window 0 ["a"; "b"; "c"]) as [_ H0].
  destruct (H2 ltac:(lia)) as (Hd & _ & Hin).
  split; [exact Hd|]. split.
  - apply Hin.
    + apply (bool_decide_unpack _). vm_compute. exact I.
    + rewrite Hd. right. left.
  - exact (proj1 (H0 eq_refl)).
Defined.

(** A song skipped twice in a row is no longer reported once the first
    of the two entries leaves the deque, though the second is still in
    the list. *)
Lemma skipped_twice_is_forgotten :
  get_recently_skipped (skip_songs 2 ["a"; "a"; "b"]) = ["a"; "b"] /\
  is_recently_skipped (skip_songs 2 ["a"; "a"; "b"]) "a" = false /\
  is_recently_skipped (skip_songs 2 ["a"; "a"; "b"]) "b" = true.
Proof. vm_compute. repeat split. Qed.

End SkippedProofs.
